(** * Member Merger: a shallow embedding of MemberMerger.py

    The development follows the script top-down:
    - text and digests ([hashlib.md5], [hashlib.sha1], [str], [repr]);
    - JSON values as [json.load] produces them, and the dictionary
      operations the script uses on them;
    - [task_key] and [merge_ls_tasks] on values, and on a store of
      mutable objects where sharing and updates in place are visible;
    - a file system, [extract_and_flatten_zips], [zip_dir] and [main].

    Strings are Rocq strings, that is sequences of bytes: a Python [str]
    is represented by its UTF-8 encoding, so [str.encode()] is the
    identity.  Paths follow the POSIX flavour of [pathlib]. *)

From Stdlib Require Import ZArith List Ascii Bool Lia Permutation Sorted DecimalString DecimalZ FinFun.
From Stdlib Require String.
From stdpp Require Import base list strings.

Local Open Scope Z_scope.

(** ** Exceptions and results *)

Inductive exn :=
| TypeError
| AttributeError
| ValueError
| RuntimeError
| FileNotFoundError
| FileExistsError
| NotADirectoryError
| IsADirectoryError
| BadZipFile
| IndexError
| KeyError
| SameFileError.

Inductive result (A : Type) :=
| Ok (a : A)
| Raise (e : exn).
Arguments Ok {A} a.
Arguments Raise {A} e.

Definition rbind {A B} (m : result A) (k : A -> result B) : result B :=
  match m with
  | Ok a => k a
  | Raise e => Raise e
  end.

Notation "'do' x <- m ; k" := (rbind m (fun x => k))
  (at level 10, x pattern, m at level 100, k at level 200).

Fixpoint rmap {A B} (f : A -> result B) (l : list A) : result (list B) :=
  match l with
  | [] => Ok []
  | x :: r => do y <- f x; do ys <- rmap f r; Ok (y :: ys)
  end.

(** ** Characters and text *)

Definition chr (n : nat) : ascii := ascii_of_nat n.
Definition ord (c : ascii) : nat := nat_of_ascii c.

Definition dquote : ascii := chr 34.
Definition squote : ascii := chr 39.
Definition backslash : ascii := chr 92.
Definition slash : ascii := chr 47.
Definition dot : ascii := chr 46.

Definition str1 (c : ascii) : string := String c "".

Definition chars (s : string) : list ascii := String.list_ascii_of_string s.
Definition text (l : list ascii) : string := String.string_of_list_ascii l.

Definition ascii_eqb (a b : ascii) : bool := Ascii.eqb a b.

Definition str_contains_char (c : ascii) (s : string) : bool :=
  existsb (ascii_eqb c) (chars s).

Definition hex_char (n : nat) : ascii :=
  if (n <? 10)%nat then chr (48 + n) else chr (87 + n).

(** Two lowercase hexadecimal digits of a byte. *)
Definition hex2 (n : nat) : string :=
  String (hex_char (n / 16)) (String (hex_char (n mod 16)) "").

Fixpoint str_concat (l : list string) : string :=
  match l with
  | [] => ""
  | s :: r => s +:+ str_concat r
  end.

(** [sep.join(l)] *)
Fixpoint str_join (sep : string) (l : list string) : string :=
  match l with
  | [] => ""
  | [s] => s
  | s :: r => s +:+ sep +:+ str_join sep r
  end.

(** [s[:n]] *)
Fixpoint str_take (n : nat) (s : string) : string :=
  match n, s with
  | S n', String c r => String c (str_take n' r)
  | _, _ => ""
  end.

(** [str(z)] of an [int]. *)
Definition str_of_int (z : Z) : string := NilZero.string_of_int (Z.to_int z).

(** ** Digests *)

Definition mask32 : Z := 0xffffffff.
Definition add32 (a b : Z) : Z := Z.land (a + b) mask32.
Definition not32 (a : Z) : Z := Z.lxor a mask32.
Definition rotl32 (x n : Z) : Z :=
  Z.land (Z.lor (Z.shiftl x n) (Z.shiftr x (32 - n))) mask32.

Definition bytes_of (s : string) : list Z := map (fun c => Z.of_nat (ord c)) (chars s).

Definition le_bytes (n : nat) (x : Z) : list Z :=
  map (fun i => Z.land (Z.shiftr x (8 * Z.of_nat i)) 0xff) (seq 0 n).
Definition be_bytes (n : nat) (x : Z) : list Z := rev (le_bytes n x).

Definition le_word (bs : list Z) : Z :=
  fold_right (fun b acc => Z.lor b (Z.shiftl acc 8)) 0 bs.
Definition be_word (bs : list Z) : Z :=
  fold_left (fun acc b => Z.lor (Z.shiftl acc 8) b) bs 0.

(** Message padding shared by MD5 and SHA-1: a 1 bit, zeros up to 56 bytes
    modulo 64, then the bit length on 8 bytes as [len_bytes] lays it out. *)
Definition pad (len_bytes : Z -> list Z) (msg : list Z) : list Z :=
  let n := length msg in
  let zeros := ((64 + 55 - n mod 64) mod 64)%nat in
  msg ++ [0x80] ++ repeat 0 zeros ++ len_bytes (8 * Z.of_nat n).

Fixpoint chunks (fuel : nat) (n : nat) {A} (l : list A) : list (list A) :=
  match fuel with
  | O => []
  | S fuel' =>
      match l with
      | [] => []
      | _ => firstn n l :: chunks fuel' n (skipn n l)
      end
  end.

Definition blocks (bs : list Z) : list (list Z) := chunks (length bs) 64 bs.
Definition words (w : list Z -> Z) (block : list Z) : list Z :=
  map w (chunks 16 4 block).

Definition hex_of_bytes (bs : list Z) : string :=
  str_concat (map (fun b => hex2 (Z.to_nat b)) bs).

Module MD5.

Definition K : list Z :=
  [ 0xd76aa478; 0xe8c7b756; 0x242070db; 0xc1bdceee;
    0xf57c0faf; 0x4787c62a; 0xa8304613; 0xfd469501;
    0x698098d8; 0x8b44f7af; 0xffff5bb1; 0x895cd7be;
    0x6b901122; 0xfd987193; 0xa679438e; 0x49b40821;
    0xf61e2562; 0xc040b340; 0x265e5a51; 0xe9b6c7aa;
    0xd62f105d; 0x02441453; 0xd8a1e681; 0xe7d3fbc8;
    0x21e1cde6; 0xc33707d6; 0xf4d50d87; 0x455a14ed;
    0xa9e3e905; 0xfcefa3f8; 0x676f02d9; 0x8d2a4c8a;
    0xfffa3942; 0x8771f681; 0x6d9d6122; 0xfde5380c;
    0xa4beea44; 0x4bdecfa9; 0xf6bb4b60; 0xbebfbc70;
    0x289b7ec6; 0xeaa127fa; 0xd4ef3085; 0x04881d05;
    0xd9d4d039; 0xe6db99e5; 0x1fa27cf8; 0xc4ac5665;
    0xf4292244; 0x432aff97; 0xab9423a7; 0xfc93a039;
    0x655b59c3; 0x8f0ccc92; 0xffeff47d; 0x85845dd1;
    0x6fa87e4f; 0xfe2ce6e0; 0xa3014314; 0x4e0811a1;
    0xf7537e82; 0xbd3af235; 0x2ad7d2bb; 0xeb86d391 ].

Definition S_ : list Z :=
  [ 7; 12; 17; 22; 7; 12; 17; 22; 7; 12; 17; 22; 7; 12; 17; 22;
    5; 9; 14; 20; 5; 9; 14; 20; 5; 9; 14; 20; 5; 9; 14; 20;
    4; 11; 16; 23; 4; 11; 16; 23; 4; 11; 16; 23; 4; 11; 16; 23;
    6; 10; 15; 21; 6; 10; 15; 21; 6; 10; 15; 21; 6; 10; 15; 21 ].

Definition state : Type := Z * Z * Z * Z.

Definition round (m : list Z) (st : state) (i : nat) : state :=
  let '(a, b, c, d) := st in
  let '(f, g) :=
    if (i <? 16)%nat then (Z.lor (Z.land b c) (Z.land (not32 b) d), i)
    else if (i <? 32)%nat then (Z.lor (Z.land d b) (Z.land (not32 d) c), (5 * i + 1) mod 16)%nat
    else if (i <? 48)%nat then (Z.lxor (Z.lxor b c) d, (3 * i + 5) mod 16)%nat
    else (Z.lxor c (Z.lor b (not32 d)), (7 * i) mod 16)%nat in
  let f' := add32 (add32 (add32 f a) (nth i K 0)) (nth g m 0) in
  (d, add32 b (rotl32 f' (nth i S_ 0)), b, c).

Definition compress (st : state) (block : list Z) : state :=
  let '(a0, b0, c0, d0) := st in
  let '(a, b, c, d) := fold_left (round (words le_word block)) (seq 0 64) st in
  (add32 a0 a, add32 b0 b, add32 c0 c, add32 d0 d).

Definition digest (msg : list Z) : list Z :=
  let '(a, b, c, d) :=
    fold_left compress (blocks (pad (le_bytes 8) msg))
      (0x67452301, 0xefcdab89, 0x98badcfe, 0x10325476) in
  le_bytes 4 a ++ le_bytes 4 b ++ le_bytes 4 c ++ le_bytes 4 d.

(** [hashlib.md5(s.encode()).hexdigest()] *)
Definition hexdigest (s : string) : string := hex_of_bytes (digest (bytes_of s)).

End MD5.

Module SHA1.

Definition state : Type := Z * Z * Z * Z * Z.

Fixpoint schedule (n : nat) (w : list Z) : list Z :=
  match n with
  | O => w
  | S n' =>
      let i := length w in
      let x := Z.lxor (Z.lxor (nth (i - 3) w 0) (nth (i - 8) w 0))
                      (Z.lxor (nth (i - 14) w 0) (nth (i - 16) w 0)) in
      schedule n' (w ++ [rotl32 x 1])
  end.

Definition round (w : list Z) (st : state) (i : nat) : state :=
  let '(a, b, c, d, e) := st in
  let '(f, k) :=
    if (i <? 20)%nat then (Z.lor (Z.land b c) (Z.land (not32 b) d), 0x5a827999)
    else if (i <? 40)%nat then (Z.lxor (Z.lxor b c) d, 0x6ed9eba1)
    else if (i <? 60)%nat then
      (Z.lor (Z.lor (Z.land b c) (Z.land b d)) (Z.land c d), 0x8f1bbcdc)
    else (Z.lxor (Z.lxor b c) d, 0xca62c1d6) in
  let t := add32 (add32 (add32 (add32 (rotl32 a 5) f) e) k) (nth i w 0) in
  (t, a, rotl32 b 30, c, d).

Definition compress (st : state) (block : list Z) : state :=
  let '(h0, h1, h2, h3, h4) := st in
  let w := schedule 64 (words be_word block) in
  let '(a, b, c, d, e) := fold_left (round w) (seq 0 80) st in
  (add32 h0 a, add32 h1 b, add32 h2 c, add32 h3 d, add32 h4 e).

Definition digest (msg : list Z) : list Z :=
  let '(a, b, c, d, e) :=
    fold_left compress (blocks (pad (be_bytes 8) msg))
      (0x67452301, 0xefcdab89, 0x98badcfe, 0x10325476, 0xc3d2e1f0) in
  be_bytes 4 a ++ be_bytes 4 b ++ be_bytes 4 c ++ be_bytes 4 d ++ be_bytes 4 e.

(** [hashlib.sha1(data).hexdigest()] *)
Definition hexdigest (s : string) : string := hex_of_bytes (digest (bytes_of s)).

End SHA1.
(** ** JSON values

    What [json.load] returns: [None], [bool], [int], [float], [str],
    [list] and [dict] with string keys, a dictionary keeping its keys in
    insertion order.  A [float] is carried as its Python [repr], which is
    all the script can observe of it. *)

Inductive json :=
| JNull
| JBool (b : bool)
| JInt (z : Z)
| JFloat (repr : string)
| JStr (s : string)
| JArr (items : list json)
| JObj (fields : list (string * json)).

(** *** Dictionaries in insertion order *)

Section Dict.
Context {A : Type}.

Fixpoint dict_get (d : list (string * A)) (k : string) : option A :=
  match d with
  | [] => None
  | (k', v) :: r => if String.eqb k k' then Some v else dict_get r k
  end.

(** [d[k] = v]: an existing key keeps its position, a new one goes last. *)
Fixpoint dict_set (d : list (string * A)) (k : string) (v : A) : list (string * A) :=
  match d with
  | [] => [(k, v)]
  | (k', v') :: r =>
      if String.eqb k k' then (k', v) :: r else (k', v') :: dict_set r k v
  end.

End Dict.

(** *** Python's view of a value *)

Definition float_is_zero (r : string) : bool :=
  String.eqb r "0.0" || String.eqb r "-0.0".

(** [bool(j)] *)
Definition truthy (j : json) : bool :=
  match j with
  | JNull => false
  | JBool b => b
  | JInt z => negb (z =? 0)
  | JFloat r => negb (float_is_zero r)
  | JStr s => negb (String.eqb s "")
  | JArr l => negb (Nat.eqb (length l) 0)
  | JObj f => negb (Nat.eqb (length f) 0)
  end.

(** One character of [repr(s)] inside quotes [q]; bytes from 128 up belong
    to an encoded printable character and are kept. *)
Definition repr_char (q c : ascii) : string :=
  if ascii_eqb c backslash then String backslash (str1 backslash)
  else if ascii_eqb c q then String backslash (str1 q)
  else if Nat.eqb (ord c) 9 then String backslash "t"
  else if Nat.eqb (ord c) 10 then String backslash "n"
  else if Nat.eqb (ord c) 13 then String backslash "r"
  else if (ord c <? 32)%nat || Nat.eqb (ord c) 127 then String backslash ("x" +:+ hex2 (ord c))
  else str1 c.

(** [repr(s)] of a [str]: single quotes unless the text has a single quote
    and no double quote. *)
Definition repr_str (s : string) : string :=
  let q := if str_contains_char squote s && negb (str_contains_char dquote s)
           then dquote else squote in
  str1 q +:+ str_concat (map (repr_char q) (chars s)) +:+ str1 q.

(** [repr(j)] *)
Fixpoint py_repr (j : json) : string :=
  match j with
  | JNull => "None"
  | JBool true => "True"
  | JBool false => "False"
  | JInt z => str_of_int z
  | JFloat r => r
  | JStr s => repr_str s
  | JArr l => "[" +:+ str_join ", " (map py_repr l) +:+ "]"
  | JObj f =>
      "{" +:+ str_join ", " (map (fun kv => repr_str (fst kv) +:+ ": " +:+ py_repr (snd kv)) f)
          +:+ "}"
  end.

(** [str(j)] *)
Definition py_str (j : json) : string :=
  match j with
  | JStr s => s
  | _ => py_repr j
  end.

(** [j.get(k, dflt)]: only a [dict] has the method. *)
Definition py_get (j : json) (k : string) (dflt : json) : result json :=
  match j with
  | JObj f => Ok (default dflt (dict_get f k))
  | _ => Raise AttributeError
  end.

(** [j[k] = v] with a string key: only a [dict] takes it. *)
Definition py_setitem (j : json) (k : string) (v : json) : result json :=
  match j with
  | JObj f => Ok (JObj (dict_set f k v))
  | _ => Raise TypeError
  end.

(** [len(j)] *)
Definition py_len (j : json) : result nat :=
  match j with
  | JArr l => Ok (length l)
  | JObj f => Ok (length f)
  | JStr s => Ok (String.length s)
  | _ => Raise TypeError
  end.

(** The items [for x in j] goes through. *)
Definition py_iter (j : json) : result (list json) :=
  match j with
  | JArr l => Ok l
  | JObj f => Ok (map (fun kv => JStr (fst kv)) f)
  | JStr s => Ok (map (fun c => JStr (str1 c)) (chars s))
  | _ => Raise TypeError
  end.

(** [j or []] *)
Definition or_empty_list (j : json) : json := if truthy j then j else JArr [].

(** [j or {}] *)
Definition or_empty_dict (j : json) : json := if truthy j then j else JObj [].

(** [json.loads(json.dumps(j))] on a value is the value again. *)
Definition deep_copy (j : json) : json := j.

(** ** Paths, POSIX flavour *)

(** [s.split(c)] *)
Fixpoint split_on (c : ascii) (s : string) : list string :=
  match s with
  | EmptyString => [""]
  | String a r =>
      if ascii_eqb a c then "" :: split_on c r
      else match split_on c r with
           | [] => [str1 a]
           | w :: ws => String a w :: ws
           end
  end.

Definition is_component (x : string) : bool :=
  negb (String.eqb x "") && negb (String.eqb x ".").

(** The parts [pathlib] keeps of a path: empty and [.] components go. *)
Definition path_parts (s : string) : list string :=
  List.filter is_component (split_on slash s).

(** [Path(s).name] *)
Definition path_name (s : string) : string := List.last (path_parts s) "".

(** ** Helpers of the script *)

(** [task_key] *)
Definition task_key (task : json) : result string :=
  do fu <- py_get task "file_upload" JNull;
  if truthy fu then Ok (py_str fu)
  else
    do data <- py_get task "data" JNull;
    do img <- py_get (or_empty_dict data) "image" (JStr "");
    match img with
    | JStr s => Ok (if String.eqb (path_name s) "" then s else path_name s)
    | _ => Raise TypeError
    end.

(** *** [merge_ls_tasks] *)

(** [bucket[k].append(t)] on a [defaultdict(list)] *)
Fixpoint bucket_add (k : string) (t : json) (b : list (string * list json))
  : list (string * list json) :=
  match b with
  | [] => [(k, [t])]
  | (k', ts) :: r =>
      if String.eqb k k' then (k', ts ++ [t]) :: r else (k', ts) :: bucket_add k t r
  end.

(** The group stored under [k], empty when there is none. *)
Definition bucket_get (b : list (string * list json)) (k : string) : list json :=
  default [] (dict_get b k).

Fixpoint fill_bucket (tasks : list json) (b : list (string * list json))
  : result (list (string * list json)) :=
  match tasks with
  | [] => Ok b
  | t :: r => do k <- task_key t; fill_bucket r (bucket_add k t b)
  end.

(** [sorted(l, key=..., reverse=True)]: the sort is stable, so among equal
    keys the earlier item stays first. *)
Fixpoint insert_desc {A} (x : nat * A) (l : list (nat * A)) : list (nat * A) :=
  match l with
  | [] => [x]
  | y :: r => if (fst y <=? fst x)%nat then x :: y :: r else y :: insert_desc x r
  end.

Definition sorted_desc {A} (l : list (nat * A)) : list (nat * A) :=
  fold_right insert_desc [] l.

(** [len(t.get("annotations", []))] *)
Definition annotations_len (t : json) : result nat :=
  do a <- py_get t "annotations" (JArr []); py_len a.

(** [t.get("annotations", []) or []], as the items [extend] appends *)
Definition annotations_items (t : json) : result (list json) :=
  do a <- py_get t "annotations" (JArr []); py_iter (or_empty_list a).

(** [hashlib.md5(str(r).encode()).hexdigest()[:6]] *)
Definition digest6 (r : json) : string := str_take 6 (MD5.hexdigest (py_str r)).

(** The identifier an entry without one receives. *)
Definition synth_id (n : Z) (r : json) : string :=
  "res_" +:+ str_of_int n +:+ "_" +:+ digest6 r.

(** [r["id"] = r.get("id") or f"res_..."] *)
Definition fix_result (n : Z) (r : json) : result json :=
  do i <- py_get r "id" JNull;
  py_setitem r "id" (if truthy i then i else JStr (synth_id n r)).

(** The body of the loop over [all_anns], for the annotation numbered [n].
    The entries are changed in place inside the copy: its [result] list,
    when it has one, holds the changed entries afterwards. *)
Definition renumber (n : Z) (ann : json) : result json :=
  do a <- py_setitem (deep_copy ann) "id" (JInt n);
  do res <- py_get a "result" (JArr []);
  do rs <- py_iter (or_empty_list res);
  do rs' <- rmap (fix_result n) rs;
  match res with
  | JArr (_ :: _) => py_setitem a "result" (JArr rs')
  | _ => Ok a
  end.

Fixpoint renumber_from (n : Z) (anns : list json) : result (list json) :=
  match anns with
  | [] => Ok []
  | a :: r => do a' <- renumber n a; do r' <- renumber_from (n + 1) r; Ok (a' :: r')
  end.

(** The body of the loop over [bucket.items()]. *)
Definition merge_group (tasks : list json) : result json :=
  do keyed <- rmap (fun t => do n <- annotations_len t; Ok (n, t)) tasks;
  match sorted_desc keyed with
  | [] => Raise IndexError
  | (_, first) :: _ =>
      let base := deep_copy first in
      do all_anns <- rmap annotations_items tasks;
      do new_anns <- renumber_from 1 (concat all_anns);
      py_setitem base "annotations" (JArr new_anns)
  end.

Definition merge_ls_tasks (task_lists : list (list json)) : result (list json) :=
  do bucket <- fill_bucket (concat task_lists) [];
  rmap (fun kts => merge_group (snd kts)) bucket.

(** ** What the claims speak about *)

(** The annotations of a task, none when the field is absent. *)
Definition annotations_of (t : json) : list json :=
  match t with
  | JObj f => match dict_get f "annotations" with
              | Some (JArr l) => l
              | _ => []
              end
  | _ => []
  end.

Definition annotation_count (t : json) : nat := length (annotations_of t).

(** The result entries of an annotation. *)
Definition results_of (a : json) : list json :=
  match a with
  | JObj f => match dict_get f "result" with
              | Some (JArr l) => l
              | _ => []
              end
  | _ => []
  end.

(** A field of a dictionary value. *)
Definition field (j : json) (k : string) : option json :=
  match j with
  | JObj f => dict_get f k
  | _ => None
  end.

(** An entry carries an identifier when [r.get("id")] is true. *)
Definition has_id (r : json) : bool := truthy (default JNull (field r "id")).

Definition has_key (k : string) (t : json) : bool :=
  match task_key t with
  | Ok k' => String.eqb k' k
  | Raise _ => false
  end.

(** The tasks of the input that share the key [k], in input order. *)
Definition group_of (k : string) (task_lists : list (list json)) : list json :=
  List.filter (has_key k) (concat task_lists).

(** Tasks as a labelling tool exports them: a dictionary whose key can be
    resolved, whose [annotations], when present, is a list of
    dictionaries, each with a [result] that is absent, false or a list of
    dictionaries. *)
Definition is_dict (j : json) : bool :=
  match j with
  | JObj _ => true
  | _ => false
  end.

Definition wf_annotation (a : json) : bool :=
  match a with
  | JObj f =>
      match dict_get f "result" with
      | None => true
      | Some (JArr rs) => forallb is_dict rs
      | Some v => negb (truthy v)
      end
  | _ => false
  end.

Definition wf_reference (f : list (string * json)) : bool :=
  truthy (default JNull (dict_get f "file_upload"))
  || match default JNull (dict_get f "data") with
     | JObj df =>
         match dict_get df "image" with
         | None | Some (JStr _) => true
         | Some _ => false
         end
     | d => negb (truthy d)
     end.

Definition wf_task (t : json) : bool :=
  match t with
  | JObj f =>
      wf_reference f
      && match dict_get f "annotations" with
         | None => true
         | Some (JArr l) => forallb wf_annotation l
         | Some _ => false
         end
  | _ => false
  end.


(** [n], [n + 1], ..., [len] numbers in all. *)
Fixpoint Zseq (n : Z) (len : nat) : list Z :=
  match len with
  | O => []
  | S len' => n :: Zseq (n + 1) len'
  end.

(** [h] is the first item of [l] whose count is the largest. *)
Definition first_max {A} (l : list (nat * A)) (h : nat * A) : Prop :=
  exists l1 l2, l = l1 ++ h :: l2
    /\ Forall (fun y => (fst y < fst h)%nat) l1
    /\ Forall (fun y => (fst y <= fst h)%nat) l2.

(** The task [merge_ls_tasks] copies as the base of a group. *)
Definition is_base (tasks : list json) (base : json) : Prop :=
  first_max (map (fun t => (annotation_count t, t)) tasks) (annotation_count base, base).

(** Each merged task comes from one group of the bucket, carries the key of
    that group, and is built from it as [merge_group] says. *)
Definition merged_from (task_lists : list (list json)) (kg : string * list json) (m : json)
  : Prop :=
  snd kg = group_of (fst kg) task_lists
  /\ task_key m = Ok (fst kg)
  /\ merge_group (snd kg) = Ok m.


Definition is_hex_digit (c : ascii) : bool :=
  ((48 <=? ord c) && (ord c <=? 57) || (97 <=? ord c) && (ord c <=? 102))%nat.


(** ** Sample inputs *)

(** The scenario of two contributors and one image: the first has one
    annotation on [img1.jpg], the second has two. *)
Definition sample_annotation (label : string) : json :=
  JObj [("id", JInt 40);
        ("result", JArr [JObj [("id", JStr "r1"); ("value", JStr label)]])].

Definition contributor_a : list json :=
  [JObj [("file_upload", JStr "img1.jpg");
         ("annotations", JArr [sample_annotation "stop"])]].

Definition contributor_b : list json :=
  [JObj [("file_upload", JStr "img1.jpg");
         ("annotations", JArr [sample_annotation "stop"; sample_annotation "yield"])];
   JObj [("data", JObj [("image", JStr "/data/upload/img2.jpg")])]].



(** ** Base names, in words *)

(** [d] is empty or ends with a slash: a directory part. *)
Definition is_dir_prefix (d : string) : Prop :=
  d = "" \/ exists d', d = d' +:+ "/".

(** [r] is empty, or a slash followed by components that are all empty or
    a single dot: what [pathlib] drops after the last name. *)
Definition is_trailing (r : string) : Prop :=
  r = "" \/ exists segs, r = "/" +:+ str_join "/" segs
                         /\ Forall (fun x => x = "" \/ x = ".") segs.

(** [b] is the base name of [s]: the last component that is neither empty
    nor a dot, with the directory part before it stripped. *)
Definition is_base_name (s b : string) : Prop :=
  b <> "" /\ b <> "." /\ ~ In slash (chars b)
  /\ exists d r, s = d +:+ b +:+ r /\ is_dir_prefix d /\ is_trailing r.

(** [s] has no name: all its components are empty or a dot. *)
Definition has_no_name (s : string) : Prop :=
  exists segs, s = str_join "/" segs /\ Forall (fun x => x = "" \/ x = ".") segs.

(** ** Induction on JSON values *)

Section JsonInd.
Variable P : json -> Prop.
Hypothesis HNull : P JNull.
Hypothesis HBool : forall b, P (JBool b).
Hypothesis HInt : forall z, P (JInt z).
Hypothesis HFloat : forall r, P (JFloat r).
Hypothesis HStr : forall s, P (JStr s).
Hypothesis HArr : forall l, Forall P l -> P (JArr l).
Hypothesis HObj : forall f, Forall (fun kv => P (snd kv)) f -> P (JObj f).

Fixpoint json_ind2 (j : json) : P j :=
  match j with
  | JNull => HNull
  | JBool b => HBool b
  | JInt z => HInt z
  | JFloat r => HFloat r
  | JStr s => HStr s
  | JArr l =>
      HArr l ((fix go (l : list json) : Forall P l :=
                 match l with
                 | [] => @List.Forall_nil _ P
                 | x :: r => @List.Forall_cons _ P x r (json_ind2 x) (go r)
                 end) l)
  | JObj f =>
      HObj f ((fix go (f : list (string * json)) : Forall (fun kv => P (snd kv)) f :=
                 match f with
                 | [] => @List.Forall_nil _ _
                 | kv :: r => @List.Forall_cons _ (fun kv => P (snd kv)) kv r (json_ind2 (snd kv)) (go r)
                 end) f)
  end.
End JsonInd.


(** ** The store: Python objects that can be shared and changed in place

    A [list] or a [dict] is an object with an identity; the store maps
    locations to objects and a value is a scalar or a reference.  The
    lists local to [merge_ls_tasks] that are only iterated over ([bucket],
    [tasks_sorted], [all_anns], [merged]) are Rocq lists of values, and
    [new_anns] becomes an object when it is stored into the base task.
    The values here come from [json.load]: [str] and [json.dumps] of a
    reference read the store down to the scalars. *)

Abbreviation loc := nat.

Inductive val :=
| VNone
| VBool (b : bool)
| VInt (z : Z)
| VFloat (repr : string)
| VStr (s : string)
| VRef (l : loc).

Inductive obj :=
| OList (items : list val)
| ODict (fields : list (string * val)).

Abbreviation heap := (list obj).

(** Computations that read and change a state and may raise; the state
    survives an exception. *)
Definition ST (S A : Type) : Type := S -> result A * S.

Definition ret {S A} (a : A) : ST S A := fun s => (Ok a, s).
Definition raise {S A} (e : exn) : ST S A := fun s => (Raise e, s).
Definition bind {S A B} (m : ST S A) (k : A -> ST S B) : ST S B :=
  fun s => match m s with
           | (Ok a, s') => k a s'
           | (Raise e, s') => (Raise e, s')
           end.

Notation "'let*' x := m 'in' k" := (bind m (fun x => k))
  (at level 10, x pattern, m at level 100, k at level 200).

(** A computation that only reads the state. *)
Definition look {S A} (f : S -> result A) : ST S A := fun s => (f s, s).

(** A result that depends on nothing. *)
Definition lift {S A} (r : result A) : ST S A := fun s => (r, s).

(** [try: body finally: cleanup] *)
Definition try_finally {S A} (body : ST S A) (cleanup : S -> S) : ST S A :=
  fun s => let '(r, s') := body s in (r, cleanup s').

(** Computations on the store. *)
Abbreviation M := (ST heap).

(** A new object, at the next free location. *)
Definition alloc (o : obj) : M val := fun h => (Ok (VRef (length h)), h ++ [o]).

Fixpoint st_map {S A B} (f : A -> ST S B) (l : list A) : ST S (list B) :=
  match l with
  | [] => ret []
  | x :: r => let* y := f x in let* ys := st_map f r in ret (y :: ys)
  end.

Fixpoint st_each {S A} (f : A -> ST S unit) (l : list A) : ST S unit :=
  match l with
  | [] => ret tt
  | x :: r => let* _ := f x in st_each f r
  end.

(** A loop that carries a value from one item to the next. *)
Fixpoint st_fold {S A B} (f : A -> B -> ST S B) (l : list A) (b : B) : ST S B :=
  match l with
  | [] => ret b
  | x :: r => let* b' := f x b in st_fold f r b'
  end.

(** *** Python's view of a stored value *)

Definition h_truthy (h : heap) (v : val) : bool :=
  match v with
  | VNone => false
  | VBool b => b
  | VInt z => negb (z =? 0)
  | VFloat r => negb (float_is_zero r)
  | VStr s => negb (String.eqb s "")
  | VRef l =>
      match h !! l with
      | Some (OList vs) => negb (Nat.eqb (length vs) 0)
      | Some (ODict kvs) => negb (Nat.eqb (length kvs) 0)
      | None => false
      end
  end.

(** [v.get(k)], [None] of the option standing for the default. *)
Definition h_get (h : heap) (v : val) (k : string) : result (option val) :=
  match v with
  | VRef l =>
      match h !! l with
      | Some (ODict kvs) => Ok (dict_get kvs k)
      | _ => Raise AttributeError
      end
  | _ => Raise AttributeError
  end.

(** [v[k] = x]: the dictionary [v] refers to is changed in place. *)
Definition h_setitem (v : val) (k : string) (x : val) : M unit :=
  fun h =>
    match v with
    | VRef l =>
        match h !! l with
        | Some (ODict kvs) => (Ok tt, <[l := ODict (dict_set kvs k x)]> h)
        | _ => (Raise TypeError, h)
        end
    | _ => (Raise TypeError, h)
    end.

Definition h_len (h : heap) (v : val) : result nat :=
  match v with
  | VStr s => Ok (String.length s)
  | VRef l =>
      match h !! l with
      | Some (OList vs) => Ok (length vs)
      | Some (ODict kvs) => Ok (length kvs)
      | None => Raise TypeError
      end
  | _ => Raise TypeError
  end.

Definition h_iter (h : heap) (v : val) : result (list val) :=
  match v with
  | VStr s => Ok (map (fun c => VStr (str1 c)) (chars s))
  | VRef l =>
      match h !! l with
      | Some (OList vs) => Ok vs
      | Some (ODict kvs) => Ok (map (fun kv => VStr (fst kv)) kvs)
      | None => Raise TypeError
      end
  | _ => Raise TypeError
  end.

(** [json.dumps]: the value a reference stands for.  A chain of references
    longer than the store has objects goes round a cycle, which
    [json.dumps] refuses. *)
Fixpoint dumps (fuel : nat) (h : heap) (v : val) : result json :=
  match v with
  | VNone => Ok JNull
  | VBool b => Ok (JBool b)
  | VInt z => Ok (JInt z)
  | VFloat r => Ok (JFloat r)
  | VStr s => Ok (JStr s)
  | VRef l =>
      match fuel with
      | O => Raise ValueError
      | S fuel' =>
          match h !! l with
          | Some (OList vs) => do js <- rmap (dumps fuel' h) vs; Ok (JArr js)
          | Some (ODict kvs) =>
              do js <- rmap (fun kv => do j <- dumps fuel' h (snd kv); Ok (fst kv, j)) kvs;
              Ok (JObj js)
          | None => Raise ValueError
          end
      end
  end.

Definition json_dumps (h : heap) (v : val) : result json := dumps (S (length h)) h v.

(** [json.loads]: new objects for every list and dictionary of the value,
    the inner ones first. *)
Fixpoint loads (j : json) (h : heap) : val * heap :=
  match j with
  | JNull => (VNone, h)
  | JBool b => (VBool b, h)
  | JInt z => (VInt z, h)
  | JFloat r => (VFloat r, h)
  | JStr s => (VStr s, h)
  | JArr l =>
      let '(vs, h1) :=
        (fix items (l : list json) (h : heap) : list val * heap :=
           match l with
           | [] => ([], h)
           | x :: r =>
               let '(v, h1) := loads x h in
               let '(vs, h2) := items r h1 in
               (v :: vs, h2)
           end) l h in
      (VRef (length h1), h1 ++ [OList vs])
  | JObj f =>
      let '(kvs, h1) :=
        (fix fields (f : list (string * json)) (h : heap) : list (string * val) * heap :=
           match f with
           | [] => ([], h)
           | (k, x) :: r =>
               let '(v, h1) := loads x h in
               let '(kvs, h2) := fields r h1 in
               ((k, v) :: kvs, h2)
           end) f h in
      (VRef (length h1), h1 ++ [ODict kvs])
  end.

(** The two inner loops of [loads], by name. *)
Fixpoint loads_items (l : list json) (h : heap) : list val * heap :=
  match l with
  | [] => ([], h)
  | x :: r =>
      let '(v, h1) := loads x h in
      let '(vs, h2) := loads_items r h1 in
      (v :: vs, h2)
  end.

Fixpoint loads_fields (f : list (string * json)) (h : heap) : list (string * val) * heap :=
  match f with
  | [] => ([], h)
  | (k, x) :: r =>
      let '(v, h1) := loads x h in
      let '(kvs, h2) := loads_fields r h1 in
      ((k, v) :: kvs, h2)
  end.

Definition json_loads (j : json) : M val :=
  fun h => let '(v, h') := loads j h in (Ok v, h').

(** [str(v)] *)
Definition h_str (h : heap) (v : val) : result string :=
  match v with
  | VStr s => Ok s
  | _ => do j <- json_dumps h v; Ok (py_str j)
  end.

(** [v[k]] of a dictionary *)
Definition h_getitem (h : heap) (v : val) (k : string) : result val :=
  match v with
  | VRef l =>
      match h !! l with
      | Some (ODict kvs) =>
          match dict_get kvs k with
          | Some x => Ok x
          | None => Raise KeyError
          end
      | _ => Raise TypeError
      end
  | _ => Raise TypeError
  end.

(** *** The script on the store *)

Definition h_task_key (h : heap) (task : val) : result string :=
  do fu <- h_get h task "file_upload";
  if h_truthy h (default VNone fu) then h_str h (default VNone fu)
  else
    do data <- h_get h task "data";
    do img <- (if h_truthy h (default VNone data)
               then h_get h (default VNone data) "image"
               else Ok None);
    match default (VStr "") img with
    | VStr s => Ok (if String.eqb (path_name s) "" then s else path_name s)
    | _ => Raise TypeError
    end.

Fixpoint h_bucket_add (k : string) (t : val) (b : list (string * list val))
  : list (string * list val) :=
  match b with
  | [] => [(k, [t])]
  | (k', ts) :: r =>
      if String.eqb k k' then (k', ts ++ [t]) :: r else (k', ts) :: h_bucket_add k t r
  end.

Fixpoint h_fill_bucket (h : heap) (tasks : list val) (b : list (string * list val))
  : result (list (string * list val)) :=
  match tasks with
  | [] => Ok b
  | t :: r => do k <- h_task_key h t; h_fill_bucket h r (h_bucket_add k t b)
  end.

(** [len(t.get("annotations", []))] *)
Definition h_annotations_len (h : heap) (t : val) : result nat :=
  do a <- h_get h t "annotations";
  match a with
  | None => Ok 0%nat
  | Some v => h_len h v
  end.

(** The items of [x or []], for [x] the result of a [get] with default [[]] *)
Definition h_items_or_empty (h : heap) (a : option val) : result (list val) :=
  match a with
  | None => Ok []
  | Some v => if h_truthy h v then h_iter h v else Ok []
  end.

Definition h_annotations_items (h : heap) (t : val) : result (list val) :=
  do a <- h_get h t "annotations"; h_items_or_empty h a.

(** [r["id"] = r.get("id") or f"res_{ann_copy['id']}_{...}"] *)
Definition h_fix_result (ann_copy : val) (r : val) : M unit :=
  let* i := look (fun h => h_get h r "id") in
  let* has := look (fun h => Ok (h_truthy h (default VNone i))) in
  if has then h_setitem r "id" (default VNone i)
  else
    let* n := look (fun h => do x <- h_getitem h ann_copy "id"; h_str h x) in
    let* s := look (fun h => h_str h r) in
    h_setitem r "id" (VStr ("res_" +:+ n +:+ "_" +:+ str_take 6 (MD5.hexdigest s))).

Definition h_renumber (n : Z) (ann : val) : M val :=
  let* j := look (fun h => json_dumps h ann) in
  let* ann_copy := json_loads j in
  let* _ := h_setitem ann_copy "id" (VInt n) in
  let* res := look (fun h => h_get h ann_copy "result") in
  let* rs := look (fun h => h_items_or_empty h res) in
  let* _ := st_each (h_fix_result ann_copy) rs in
  ret ann_copy.

Fixpoint h_renumber_from (n : Z) (anns : list val) : M (list val) :=
  match anns with
  | [] => ret []
  | a :: r =>
      let* a' := h_renumber n a in
      let* r' := h_renumber_from (n + 1) r in
      ret (a' :: r')
  end.

Definition h_merge_group (tasks : list val) : M val :=
  let* keyed := look (fun h => rmap (fun t => do n <- h_annotations_len h t; Ok (n, t)) tasks) in
  match sorted_desc keyed with
  | [] => raise IndexError
  | (_, first) :: _ =>
      let* j := look (fun h => json_dumps h first) in
      let* base := json_loads j in
      let* all_anns := look (fun h => rmap (h_annotations_items h) tasks) in
      let* new_anns := h_renumber_from 1 (concat all_anns) in
      let* l := alloc (OList new_anns) in
      let* _ := h_setitem base "annotations" l in
      ret base
  end.

(** [task_lists] holds the arrays the contributors' files were loaded to. *)
Definition h_merge_ls_tasks (task_lists : list val) : M (list val) :=
  let* tls := look (fun h => rmap (h_iter h) task_lists) in
  let* bucket := look (fun h => h_fill_bucket h (concat tls) []) in
  st_map (fun kts => h_merge_group (snd kts)) bucket.

(** *** What the claims about the store speak about *)


(** A value that is not a reference to an object below [b]. *)
Definition val_fresh (b : nat) (v : val) : Prop :=
  match v with
  | VRef l => (b <= l)%nat
  | _ => True
  end.

Definition obj_vals (o : obj) : list val :=
  match o with
  | OList vs => vs
  | ODict kvs => map snd kvs
  end.

(** Every reference held by [o] is to an object from [b] on. *)
Definition obj_fresh (b : nat) (o : obj) : Prop := Forall (val_fresh b) (obj_vals o).

(** [h] is [h0] with new objects after it that refer to new objects only. *)
Definition grown_from (h0 h : heap) : Prop :=
  exists ext, h = h0 ++ ext /\ Forall (obj_fresh (length h0)) ext.


(** Triples: from a state satisfying [P], [m] ends in a state satisfying
    [Q] with its result, or [E] when it raises. *)
Definition hoare {S A} (P : S -> Prop) (m : ST S A) (Q : A -> S -> Prop) (E : S -> Prop)
  : Prop :=
  forall s, P s ->
    match m s with
    | (Ok a, s') => Q a s'
    | (Raise _, s') => E s'
    end.

(** A value that is not a reference outside [lo, hi). *)
Definition val_in (lo hi : nat) (v : val) : Prop :=
  match v with
  | VRef l => (lo <= l < hi)%nat
  | _ => True
  end.

(** The objects of [h] in [lo, hi) refer to earlier objects of the segment
    only. *)
Definition seg_ordered (h : heap) (lo hi : nat) : Prop :=
  forall l o, (lo <= l < hi)%nat -> h !! l = Some o -> Forall (val_in lo l) (obj_vals o).

(** The store after the two contributors' files of the sample scenario
    have been loaded, and the two arrays. *)
Definition sample_store : list val * heap :=
  let '(a, h1) := loads (JArr contributor_a) [] in
  let '(b, h2) := loads (JArr contributor_b) h1 in
  ([a; b], h2).

(** What [loads] builds: an ordered segment after the store, from which
    the value reads back. *)
Definition loaded (h h' : heap) (v : val) (j : json) : Prop :=
  grown_from h h'
  /\ seg_ordered h' (length h) (length h')
  /\ val_in (length h) (length h') v
  /\ forall n, (length h' <= n)%nat -> dumps n h' v = Ok j.


(** ** Files

    A path is the list of its components below the working directory, which
    always exists.  A file holds plain bytes, a JSON document or an
    archive; the bytes of a document or an archive are what the encoder
    writes for it ([json_text] as [json.dump(..., ensure_ascii=False,
    indent=2)] lays it out, [zip_text] standing for the compressed
    container), which matters only when such a file is hashed.  The file
    system is a listing, a directory being enumerated in the order the
    platform chooses: [rglob] is a parameter of what walks a tree. *)

Local Close Scope Z_scope.

Abbreviation path := (list string).

Inductive content :=
| Raw (b : string)
| Json (j : json)
| Zip (entries : list (string * string)).

Inductive node :=
| Dir
| File (c : content).

Definition filesystem := list (path * node).

(** The state of I/O is the file system. *)
Abbreviation IO := (ST filesystem).

Fixpoint path_eqb (p q : path) : bool :=
  match p, q with
  | [], [] => true
  | a :: p', b :: q' => String.eqb a b && path_eqb p' q'
  | _, _ => false
  end.

(** [root] is [p] or above it. *)
Fixpoint is_prefix (root p : path) : bool :=
  match root, p with
  | [], _ => true
  | a :: root', b :: p' => String.eqb a b && is_prefix root' p'
  | _ :: _, [] => false
  end.

(** [p.parent] and [p.name] *)
Definition parent (p : path) : path := removelast p.
Definition name (p : path) : string := List.last p "".

(** [Path(s)]: the components of [s]. *)
Definition Path_of (s : string) : path := path_parts s.

Fixpoint fs_find (fs : filesystem) (p : path) : option node :=
  match fs with
  | [] => None
  | (q, n) :: r => if path_eqb p q then Some n else fs_find r p
  end.

Definition fs_lookup (fs : filesystem) (p : path) : option node :=
  match p with
  | [] => Some Dir
  | _ => fs_find fs p
  end.

Definition fs_exists (fs : filesystem) (p : path) : bool :=
  match fs_lookup fs p with
  | Some _ => true
  | None => false
  end.

Definition fs_is_dir (fs : filesystem) (p : path) : bool :=
  match fs_lookup fs p with
  | Some Dir => true
  | _ => false
  end.

Definition fs_is_file (fs : filesystem) (p : path) : bool :=
  match fs_lookup fs p with
  | Some (File _) => true
  | _ => false
  end.

(** The node at [p] becomes [n]: in place when there is one, last
    otherwise. *)
Fixpoint fs_set (fs : filesystem) (p : path) (n : node) : filesystem :=
  match fs with
  | [] => [(p, n)]
  | (q, m) :: r => if path_eqb p q then (q, n) :: r else (q, m) :: fs_set r p n
  end.

(** Everything at [root] and below goes. *)
Definition fs_remove_tree (fs : filesystem) (root : path) : filesystem :=
  List.filter (fun e => negb (is_prefix root (fst e))) fs.

(** [os.mkdir(p)] *)
Definition os_mkdir (p : path) : IO unit :=
  fun fs =>
    match fs_lookup fs p with
    | Some _ => (Raise FileExistsError, fs)
    | None =>
        match fs_lookup fs (parent p) with
        | Some Dir => (Ok tt, fs ++ [(p, Dir)])
        | Some (File _) => (Raise NotADirectoryError, fs)
        | None => (Raise FileNotFoundError, fs)
        end
    end.

(** The paths from the first component of [p] down to [p]. *)
Definition ancestors (p : path) : list path :=
  map (fun n => firstn n p) (seq 1 (length p)).

(** One level of [mkdir(parents=True, exist_ok=True)] and of
    [os.makedirs]: a directory is kept, a file in the way is an error. *)
Definition ensure_dir (last : bool) (q : path) : IO unit :=
  fun fs =>
    match fs_lookup fs q with
    | Some Dir => (Ok tt, fs)
    | Some (File _) => (Raise (if last then FileExistsError else NotADirectoryError), fs)
    | None => (Ok tt, fs ++ [(q, Dir)])
    end.

(** [p.mkdir(parents=True, exist_ok=True)] *)
Definition mkdir_p (p : path) : IO unit :=
  let* _ := st_each (ensure_dir false) (ancestors (parent p)) in
  match p with
  | [] => ret tt
  | _ => ensure_dir true p
  end.

(** [open(p, "rb").read()] *)
Definition read_file (p : path) : IO content :=
  look (fun fs =>
          match fs_lookup fs p with
          | Some (File c) => Ok c
          | Some Dir => Raise IsADirectoryError
          | None => Raise FileNotFoundError
          end).

(** [open(p, "wb").write(c)] *)
Definition write_file (p : path) (c : content) : IO unit :=
  fun fs =>
    match fs_lookup fs p with
    | Some Dir => (Raise IsADirectoryError, fs)
    | Some (File _) => (Ok tt, fs_set fs p (File c))
    | None =>
        match fs_lookup fs (parent p) with
        | Some Dir => (Ok tt, fs_set fs p (File c))
        | Some (File _) => (Raise NotADirectoryError, fs)
        | None => (Raise FileNotFoundError, fs)
        end
    end.

(** [shutil.copy2(src, dst)] *)
Definition copy2 (src dst : path) : IO unit :=
  let* into := look (fun fs => Ok (fs_is_dir fs dst)) in
  let target := if into then dst ++ [name src] else dst in
  let* c := read_file src in
  if path_eqb src target then raise SameFileError else write_file target c.

(** [shutil.rmtree(p)] *)
Definition rmtree (p : path) : IO unit :=
  fun fs =>
    match fs_lookup fs p with
    | Some Dir => (Ok tt, fs_remove_tree fs p)
    | Some (File _) => (Raise NotADirectoryError, fs)
    | None => (Raise FileNotFoundError, fs)
    end.

(** [shutil.rmtree(p, ignore_errors=True)], as a change of the state *)
Definition rmtree_ignore_errors (p : path) (fs : filesystem) : filesystem :=
  if fs_is_dir fs p then fs_remove_tree fs p else fs.

(** *** Names *)

Fixpoint cs_prefix (a b : list ascii) : bool :=
  match a, b with
  | [], _ => true
  | x :: a', y :: b' => ascii_eqb x y && cs_prefix a' b'
  | _ :: _, [] => false
  end.

Fixpoint cs_infix (a b : list ascii) : bool :=
  cs_prefix a b || match b with
                   | [] => false
                   | _ :: b' => cs_infix a b'
                   end.

(** [s.startswith(a)] and [a in s] *)
Definition str_startswith (a s : string) : bool := cs_prefix (chars a) (chars s).
Definition str_in (a s : string) : bool := cs_infix (chars a) (chars s).

(** [s.rfind(".")], as the number of characters before the last dot *)
Fixpoint rfind_dot (cs : list ascii) : option nat :=
  match cs with
  | [] => None
  | c :: r =>
      match rfind_dot r with
      | Some i => Some (S i)
      | None => if ascii_eqb c dot then Some 0 else None
      end
  end.

(** Where [pathlib] splits a name into stem and suffix, if it does. *)
Definition suffix_at (nm : string) : option nat :=
  match rfind_dot (chars nm) with
  | Some i => if (0 <? i) && (i <? String.length nm - 1) then Some i else None
  | None => None
  end.

(** [p.suffix] and [p.stem], of the name *)
Definition suffix (nm : string) : string :=
  match suffix_at nm with
  | Some i => text (skipn i (chars nm))
  | None => ""
  end.

Definition stem (nm : string) : string :=
  match suffix_at nm with
  | Some i => text (firstn i (chars nm))
  | None => nm
  end.

Definition lower_char (c : ascii) : ascii :=
  if (65 <=? ord c) && (ord c <=? 90) then chr (ord c + 32) else c.

(** [s.lower()] *)
Definition str_lower (s : string) : string := text (map lower_char (chars s)).

Definition IMAGE_EXTENSIONS : list string :=
  [".jpg"; ".jpeg"; ".png"; ".bmp"; ".tif"; ".tiff"; ".webp"].

Definition str_mem (s : string) (l : list string) : bool := existsb (String.eqb s) l.

(** [p.name.startswith("._") or "DS_Store" in p.name] *)
Definition is_metadata (nm : string) : bool :=
  str_startswith "._" nm || str_in "DS_Store" nm.

(** [p.suffix.lower() in IMAGE_EXTENSIONS] *)
Definition is_image (nm : string) : bool := str_mem (str_lower (suffix nm)) IMAGE_EXTENSIONS.

(** [safe_name] *)
Definition is_space (c : ascii) : bool :=
  ((9 <=? ord c) && (ord c <=? 13)) || ((28 <=? ord c) && (ord c <=? 32)).

Fixpoint lstrip (cs : list ascii) : list ascii :=
  match cs with
  | c :: r => if is_space c then lstrip r else cs
  | [] => []
  end.

(** [s.strip()] *)
Definition str_strip (s : string) : string := text (rev (lstrip (rev (lstrip (chars s))))).

(** [ch.isalnum()]; a byte of a character outside ASCII counts as
    alphanumeric. *)
Definition is_alnum (c : ascii) : bool :=
  ((48 <=? ord c) && (ord c <=? 57)) || ((65 <=? ord c) && (ord c <=? 90))
  || ((97 <=? ord c) && (ord c <=? 122)) || (128 <=? ord c).

Definition safe_char (c : ascii) : ascii :=
  if is_alnum c || ascii_eqb c " " || ascii_eqb c "_" || ascii_eqb c "-" || ascii_eqb c "."
  then c else "_"%char.

Definition safe_name (s : string) : string := text (map safe_char (chars (str_strip s))).

(** [s.replace(" ", "_")] *)
Definition spaces_to_underscores (s : string) : string :=
  text (map (fun c => if ascii_eqb c " " then "_"%char else c) (chars s)).

(** *** The bytes of a file *)

Definition json_escape_char (c : ascii) : string :=
  if ascii_eqb c dquote then String backslash (str1 dquote)
  else if ascii_eqb c backslash then String backslash (str1 backslash)
  else if ord c =? 10 then String backslash "n"
  else if ord c =? 13 then String backslash "r"
  else if ord c =? 9 then String backslash "t"
  else if ord c =? 8 then String backslash "b"
  else if ord c =? 12 then String backslash "f"
  else if ord c <? 32 then String backslash ("u00" +:+ hex2 (ord c))
  else str1 c.

Definition json_string (s : string) : string :=
  str1 dquote +:+ str_concat (map json_escape_char (chars s)) +:+ str1 dquote.

Definition json_float (r : string) : string :=
  if String.eqb r "nan" then "NaN"
  else if String.eqb r "inf" then "Infinity"
  else if String.eqb r "-inf" then "-Infinity"
  else r.

Definition newline_indent (level : nat) : string :=
  String (chr 10) (str_concat (repeat "  " level)).

(** [json.dumps(j, ensure_ascii=False, indent=2)], from nesting [level] *)
Fixpoint json_text (level : nat) (j : json) : string :=
  match j with
  | JNull => "null"
  | JBool true => "true"
  | JBool false => "false"
  | JInt z => str_of_int z
  | JFloat r => json_float r
  | JStr s => json_string s
  | JArr [] => "[]"
  | JArr l =>
      "[" +:+ newline_indent (S level)
      +:+ str_join ("," +:+ newline_indent (S level)) (map (json_text (S level)) l)
      +:+ newline_indent level +:+ "]"
  | JObj [] => "{}"
  | JObj f =>
      "{" +:+ newline_indent (S level)
      +:+ str_join ("," +:+ newline_indent (S level))
            (map (fun kv => json_string (fst kv) +:+ ": " +:+ json_text (S level) (snd kv)) f)
      +:+ newline_indent level +:+ "}"
  end.

(** A stand-in for the bytes of an archive. *)
Definition zip_text (es : list (string * string)) : string :=
  str_concat (map (fun e => fst e +:+ str1 (chr 0) +:+ snd e +:+ str1 (chr 0)) es).

Definition content_bytes (c : content) : string :=
  match c with
  | Raw b => b
  | Json j => json_text 0 j
  | Zip es => zip_text es
  end.

(** [hashlib.sha1(b).hexdigest()] of the bytes a file holds. *)
Definition content_digest (c : content) : string := SHA1.hexdigest (content_bytes c).

(** [sha1_of_file]: the digest of the whole file, read block by block. *)
Definition sha1_of_file (p : path) : IO string :=
  let* c := read_file p in ret (content_digest c).

(** [load_ls_array] *)
Definition load_ls_array (p : path) : IO (list json) :=
  let* c := read_file p in
  match c with
  | Json (JArr l) => ret l
  | _ => raise ValueError
  end.

(** *** Archives *)

(** [zipfile.ZipFile(zp, "r")]: the members of the archive. *)
Definition open_zip (zp : path) : IO (list (string * string)) :=
  let* c := read_file zp in
  match c with
  | Zip es => ret es
  | _ => raise BadZipFile
  end.

(** A member whose name ends with a slash is a directory. *)
Definition is_dir_member (nm : string) : bool :=
  match rev (chars nm) with
  | c :: _ => ascii_eqb c slash
  | [] => false
  end.

(** Where a member goes below the target directory: empty components, [.]
    and [..] are dropped from its name. *)
Definition member_path (nm : string) : path :=
  List.filter (fun x => negb (str_mem x [""; "."; ".."])) (split_on slash nm).

(** [os.makedirs(p)] *)
Definition makedirs (p : path) : IO unit :=
  let* _ := st_each (ensure_dir false) (ancestors (parent p)) in os_mkdir p.

(** [ZipFile.extract] of one member into [root] *)
Definition extract_member (root : path) (e : string * string) : IO unit :=
  let target := root ++ member_path (fst e) in
  let upperdirs := parent target in
  let* up := look (fun fs => Ok (fs_exists fs upperdirs)) in
  let* _ := (if up then ret tt else makedirs upperdirs) in
  if is_dir_member (fst e) then
    let* d := look (fun fs => Ok (fs_is_dir fs target)) in
    if d then ret tt else os_mkdir target
  else write_file target (Raw (snd e)).

(** [with zipfile.ZipFile(zp, "r") as zf: zf.extractall(root)] *)
Definition extractall (root : path) (zp : path) : IO unit :=
  let* es := open_zip zp in st_each (extract_member root) es.

Section Walk.

(** [root.rglob("*")]: everything below [root], in the platform's order. *)
Variable rglob : filesystem -> path -> list path.

(** The counters and the digests seen so far. *)
Record flatten_state := {
  seen_hash : list (string * string);
  written : nat;
  skipped : nat
}.

(** A file of the walk that is examined: a regular file with an image
    suffix that is no metadata of the operating system. *)
Definition is_candidate (fs : filesystem) (p : path) : bool :=
  fs_is_file fs p && negb (is_metadata (name p)) && is_image (name p).

(** [f"{p.stem}_{sha1[:8]}{p.suffix}"] *)
Definition renamed (nm sha1 : string) : string :=
  stem nm +:+ "_" +:+ str_take 8 sha1 +:+ suffix nm.

(** The body of the loop over [tmp_root.rglob("*")]. *)
Definition flatten_file (dest_dir : path) (p : path) (st : flatten_state) : IO flatten_state :=
  let* cand := look (fun fs => Ok (is_candidate fs p)) in
  if negb cand then ret st
  else
    let* sha1 := sha1_of_file p in
    match dict_get (seen_hash st) sha1 with
    | Some _ =>
        ret {| seen_hash := seen_hash st; written := written st; skipped := S (skipped st) |}
    | None =>
        let* taken := look (fun fs => Ok (fs_exists fs (dest_dir ++ [name p]))) in
        let dst := if taken then dest_dir ++ [renamed (name p) sha1]
                   else dest_dir ++ [name p] in
        let* _ := copy2 p dst in
        ret {| seen_hash := dict_set (seen_hash st) sha1 (name dst);
               written := S (written st);
               skipped := skipped st |}
    end.

Definition tmp_root_of (dest_dir : path) : path := parent dest_dir ++ ["_unzips_tmp"].

(** The statements before [try]: the destination is cleared and made, the
    working area is made. *)
Definition flatten_prepare (dest_dir : path) : IO unit :=
  let* there := look (fun fs => Ok (fs_exists fs dest_dir)) in
  let* _ := (if there then rmtree dest_dir else ret tt) in
  let* _ := mkdir_p dest_dir in
  mkdir_p (tmp_root_of dest_dir).

(** The body of [try]. *)
Definition flatten_body (zip_paths : list path) (dest_dir : path) : IO (nat * nat) :=
  let* _ := st_each (extractall (tmp_root_of dest_dir)) zip_paths in
  let* ps := look (fun fs => Ok (rglob fs (tmp_root_of dest_dir))) in
  let* st := st_fold (flatten_file dest_dir) ps
               {| seen_hash := []; written := 0; skipped := 0 |} in
  ret (written st, skipped st).

Definition extract_and_flatten_zips (zip_paths : list path) (dest_dir : path)
  : IO (nat * nat) :=
  let* _ := flatten_prepare dest_dir in
  try_finally (flatten_body zip_paths dest_dir)
              (rmtree_ignore_errors (tmp_root_of dest_dir)).

(** *** [zip_dir] *)

Fixpoint path_leb (p q : path) : bool :=
  match p, q with
  | [], _ => true
  | _ :: _, [] => false
  | a :: p', b :: q' =>
      if String.eqb a b then path_leb p' q' else String.leb a b
  end.

Fixpoint insert_path (p : path) (l : list path) : list path :=
  match l with
  | [] => [p]
  | q :: r => if path_leb p q then p :: q :: r else q :: insert_path p r
  end.

(** [sorted(paths)] *)
Definition sorted_paths (l : list path) : list path := fold_right insert_path [] l.

(** [ZipFile.write(p, p.relative_to(src_dir))] *)
Definition zip_member (src_dir p : path) : IO (list (string * string)) :=
  let* f := look (fun fs => Ok (fs_is_file fs p)) in
  if f then
    let* c := read_file p in
    ret [(str_join "/" (skipn (length src_dir) p), content_bytes c)]
  else ret [].

Definition zip_dir (src_dir out_zip : path) : IO unit :=
  let* there := look (fun fs => Ok (fs_exists fs out_zip)) in
  let* _ := (if there
             then fun fs => if fs_is_dir fs out_zip then (Raise IsADirectoryError, fs)
                            else (Ok tt, fs_remove_tree fs out_zip)
             else ret tt) in
  let* _ := write_file out_zip (Zip []) in
  let* ps := look (fun fs => Ok (sorted_paths (rglob fs src_dir))) in
  let* members := st_map (zip_member src_dir) ps in
  write_file out_zip (Zip (concat members)).

(** *** [main] *)

(** What the command line gives: the [--member] triples and [--out-dir]. *)
Record member := {
  member_name : string;
  member_json : string;
  member_zip : string
}.

(** The body of the loop over [args.member]. *)
Definition load_member (indiv_dir : path) (m : member) (acc : list (list json) * list path)
  : IO (list (list json) * list path) :=
  let safe := spaces_to_underscores (safe_name (member_name m)) in
  let jp := Path_of (member_json m) in
  let zp := Path_of (member_zip m) in
  let* j_there := look (fun fs => Ok (fs_exists fs jp)) in
  if negb j_there then raise FileNotFoundError
  else
    let* z_there := look (fun fs => Ok (fs_exists fs zp)) in
    if negb z_there then raise FileNotFoundError
    else
      let* _ := copy2 jp (indiv_dir ++ ["input_" +:+ safe +:+ ".json"]) in
      let* _ := copy2 zp (indiv_dir ++ ["images_" +:+ safe +:+ ".zip"]) in
      let* tl := load_ls_array jp in
      ret (fst acc ++ [tl], snd acc ++ [zp]).

(** What [main] prints at the end. *)
Record summary := {
  images_written : nat;
  duplicates_skipped : nat;
  merged_tasks : nat
}.

Definition main (members : list member) (out_dir : string) : IO summary :=
  if negb ((2 <=? length members) && (length members <=? 4)) then raise RuntimeError
  else
    let merger_dir := Path_of out_dir in
    let indiv_dir := merger_dir ++ ["Individuals"] in
    let img_work := merger_dir ++ ["Temp"] in
    let* _ := st_each mkdir_p [merger_dir; indiv_dir; img_work] in
    let* loaded := st_fold (load_member indiv_dir) members ([], []) in
    let* merged := lift (merge_ls_tasks (fst loaded)) in
    let* _ := write_file (merger_dir ++ ["merged_input.json"]) (Json (JArr merged)) in
    let* counts := extract_and_flatten_zips (snd loaded) img_work in
    let* _ := zip_dir img_work (merger_dir ++ ["merged_images.zip"]) in
    let* _ := (fun fs => (Ok tt, rmtree_ignore_errors img_work fs)) in
    ret {| images_written := fst counts;
           duplicates_skipped := snd counts;
           merged_tasks := length merged |}.

End Walk.

(** A platform that enumerates a tree in the order of the listing. *)
Definition rglob_listing (fs : filesystem) (root : path) : list path :=
  map fst (List.filter (fun e => is_prefix root (fst e) && negb (path_eqb root (fst e))) fs).

(** *** What the claims about files speak about *)

(** From [fs] to [fs']: a directory stays one, and nothing changes at a
    path outside the footprint [W]. *)
Definition evolves (W : path -> bool) (fs fs' : filesystem) : Prop :=
  forall p, (fs_is_dir fs p = true -> fs_is_dir fs' p = true)
            /\ (W p = false -> fs_lookup fs' p = fs_lookup fs p).

(** Nothing is left at [root] or below. *)
Definition tree_absent (fs : filesystem) (root : path) : Prop :=
  forall p, is_prefix root p = true -> fs_lookup fs p = None.

(** The digest [sha1_of_file] gives for the file at [p], if there is one. *)
Definition digest_at (fs : filesystem) (p : path) : option string :=
  match fs_lookup fs p with
  | Some (File c) => Some (content_digest c)
  | _ => None
  end.

(** The name a new image gets in the output directory. *)
Definition output_name (fs : filesystem) (dest_dir : path) (nm sha1 : string) : string :=
  if fs_exists fs (dest_dir ++ [nm]) then renamed nm sha1 else nm.

(** The files of the output directory, with what they hold. *)
Definition files_in (fs : filesystem) (dir : path) : list (string * string) :=
  flat_map (fun e => match snd e with
                     | File c =>
                         if path_eqb (parent (fst e)) dir && negb (path_eqb (fst e) [])
                         then [(name (fst e), content_bytes c)] else []
                     | Dir => []
                     end) fs.

(** Where [copy2] puts a new image. *)
Definition target_of (fs : filesystem) (dest_dir p : path) (sha1 : string) : path :=
  let dst := dest_dir ++ [output_name fs dest_dir (name p) sha1] in
  if fs_is_dir fs dst then dst ++ [name p] else dst.


(** An archive where the first [cat.png] is a copy of [dog.png]. *)
Definition copied_cat : filesystem :=
  [ (["a.zip"], File (Zip [("dog.png", "abc"); ("a/cat.png", "abc"); ("a/b/cat.png", "xyz")])) ].

(** An archive with an image that is named as the third one will be
    renamed: [a9993e36] starts the digest of [abc]. *)
Definition renamed_twice : filesystem :=
  [ (["a.zip"], File (Zip [("cat_a9993e36.png", "w"); ("a/cat.png", "x");
                           ("a/b/cat.png", "abc")])) ].

(** The paths [main] makes or writes before it merges: the output
    directory and the directories above it, [Individuals] and what is in
    it, and [Temp]. *)
Definition staging (merger_dir p : path) : bool :=
  is_prefix p merger_dir
  || is_prefix (merger_dir ++ ["Individuals"]) p
  || path_eqb p (merger_dir ++ ["Temp"]).

(** The input files a contributor declares. *)
Definition declared_paths (m : member) : list path :=
  [Path_of (member_json m); Path_of (member_zip m)].

(** Two contributors, the files of the second one missing. *)
Definition alice : member :=
  {| member_name := "Alice Smith"; member_json := "alice.json"; member_zip := "alice.zip" |}.

Definition bob : member :=
  {| member_name := "Bob Borg"; member_json := "bob.json"; member_zip := "bob.zip" |}.

Definition only_alice : filesystem :=
  [ (["alice.json"], File (Json (JArr [])));
    (["alice.zip"], File (Zip [("cat.png", "abc")])) ].

(** The files of a walk that are examined, and their digests. *)
Definition candidates (fs : filesystem) (ps : list path) : list path :=
  List.filter (is_candidate fs) ps.

Definition digests (fs : filesystem) (ps : list path) : list string :=
  omap (digest_at fs) (candidates fs ps).

(** The file system when the walk starts: the destination and the working
    area are set up and the archives are extracted. *)
Definition walk_start (zip_paths : list path) (dest_dir : path) (fs : filesystem)
  : filesystem :=
  snd ((let* _ := flatten_prepare dest_dir in
        st_each (extractall (tmp_root_of dest_dir)) zip_paths) fs).


(** A good archive, then a file that is no archive. *)
Definition broken_upload : filesystem :=
  [ (["a.zip"], File (Zip [("x/cat.png", "abc")]));
    (["b.zip"], File (Raw "junk")) ].

Local Open Scope Z_scope.

(** ** More of what the script does *)

(** The keys of a list in the order of their first occurrence. *)
Definition first_seen (keys : list string) : list string :=
  fold_left (fun acc k => if existsb (String.eqb k) acc then acc else acc ++ [k]) keys [].

(** A task that carries neither an upload identifier nor an image
    reference. *)
Definition unkeyed (t : json) : bool :=
  match t with
  | JObj f =>
      match dict_get f "file_upload", dict_get f "data" with
      | None, None => true
      | _, _ => false
      end
  | _ => false
  end.

(** Nothing changes at a path outside the footprint [W]. *)
Definition unchanged_outside (W : path -> bool) (fs fs' : filesystem) : Prop :=
  forall p, W p = false -> fs_lookup fs' p = fs_lookup fs p.

(** [m] changes nothing outside [W], whatever it returns. *)
Definition modifies {A} (W : path -> bool) (m : IO A) : Prop :=
  forall fs, unchanged_outside W fs (snd (m fs)).

(** Where the flattener works: the output directory, the directories
    above it, and the working area beside it. *)
Definition flatten_area (dest_dir p : path) : bool :=
  is_prefix p dest_dir || is_prefix dest_dir p || is_prefix (tmp_root_of dest_dir) p.

(** A directory, what is in it and the directories above it. *)
Definition around (dir p : path) : bool := is_prefix p dir || is_prefix dir p.

(** Two contributors with their files in place. *)
Definition both_present : filesystem :=
  [ (["alice.json"], File (Json (JArr contributor_a)));
    (["alice.zip"], File (Zip [("cat.png", "abc")]));
    (["bob.json"], File (Json (JArr contributor_b)));
    (["bob.zip"], File (Zip [("img/cat.png", "xyz"); ("img/dog.png", "abc")])) ].





(** A string of ASCII characters. *)
Definition is_ascii (s : string) : bool := forallb (fun c => (ord c <? 128)%nat) (chars s).

(** An ASCII letter or digit, a space, an underscore, a hyphen or a dot. *)
Definition is_plain (c : ascii) : bool :=
  (((48 <=? ord c) && (ord c <=? 57)) || ((65 <=? ord c) && (ord c <=? 90))
   || ((97 <=? ord c) && (ord c <=? 122)))%nat
  || ascii_eqb c " " || ascii_eqb c "_" || ascii_eqb c "-" || ascii_eqb c ".".

(** No white space at either end. *)
Definition stripped (l : list ascii) : Prop := lstrip l = l /\ lstrip (rev l) = rev l.

(** What the loop of the flattener keeps true of the output directory:
    below it there are files of the directory itself only, each under the
    name recorded for its digest. *)
Definition output_recorded (dest_dir : path) (seen : list (string * string))
  (fs : filesystem) : Prop :=
  forall q, is_prefix dest_dir q = true -> q <> dest_dir ->
    match fs_lookup fs q with
    | None => True
    | Some Dir => False
    | Some (File c) =>
        exists x, q = dest_dir ++ [x] /\ dict_get seen (content_digest c) = Some x
    end.

(** The order [sorted] puts paths in. *)
Abbreviation path_le := (fun p q : path => path_leb p q = true).

(** The bytes of a member of one of the archives, as the archives are in
    [fs]. *)
Definition archived (fs : filesystem) (zip_paths : list path) (b : string) : Prop :=
  exists zp es nm,
    In zp zip_paths /\ fs_lookup fs zp = Some (File (Zip es)) /\ In (nm, b) es.

(** Every file at [root] or below holds bytes that satisfy [B]. *)
Definition files_below (root : path) (B : string -> Prop) (fs : filesystem) : Prop :=
  forall q c, is_prefix root q = true -> fs_lookup fs q = Some (File c) ->
    exists b, c = Raw b /\ B b.

Example md5_empty : MD5.hexdigest "" = "d41d8cd98f00b204e9800998ecf8427e".
Proof. vm_compute. reflexivity. Qed.

Example md5_abc : MD5.hexdigest "abc" = "900150983cd24fb0d6963f7d28e17f72".
Proof. vm_compute. reflexivity. Qed.

Example md5_two_blocks :
  MD5.hexdigest "12345678901234567890123456789012345678901234567890123456789012345678901234567890"
  = "57edf4a22be3c955ac49da2e2107b67a".
Proof. vm_compute. reflexivity. Qed.

Example sha1_empty : SHA1.hexdigest "" = "da39a3ee5e6b4b0d3255bfef95601890afd80709".
Proof. vm_compute. reflexivity. Qed.

Example sha1_abc : SHA1.hexdigest "abc" = "a9993e364706816aba3e25717850c26c9cd0d89d".
Proof. vm_compute. reflexivity. Qed.

Example sha1_two_blocks :
  SHA1.hexdigest "abcdbcdecdefdefgefghfghighijhijkijkljklmklmnlmnomnopnopq"
  = "84983e441c3bd26ebaae4aa1f95129e5e54670f1".
Proof. vm_compute. reflexivity. Qed.

(** ** Results: inversion *)

Lemma rbind_Ok {A B} (m : result A) (k : A -> result B) b :
  rbind m k = Ok b -> exists a, m = Ok a /\ k a = Ok b.
Proof. destruct m as [a|e]; simpl; [eauto | discriminate]. Qed.

Ltac inv_bind H :=
  let x := fresh "x" in
  let Hx := fresh "H" x in
  apply rbind_Ok in H; destruct H as (x & Hx & H).

Lemma rmap_Ok {A B} (f : A -> result B) l l' :
  rmap f l = Ok l' <-> Forall2 (fun x y => f x = Ok y) l l'.
Proof.
  revert l'; induction l as [|x l IH]; intros l'; simpl.
  - split; [intros [= <-]; constructor | intros H; inversion H; reflexivity].
  - split.
    + intros H. inv_bind H. inv_bind H. injection H as <-.
      constructor; [assumption | apply IH; assumption].
    + intros H. inversion H as [|? y ? ys Hy Hys]; subst.
      rewrite Hy; simpl. apply IH in Hys. rewrite Hys. reflexivity.
Qed.

Lemma rmap_total {A B} (f : A -> result B) l :
  Forall (fun x => exists y, f x = Ok y) l -> exists l', rmap f l = Ok l'.
Proof.
  induction 1 as [|x l [y Hy] _ [l' Hl']]; simpl; [eauto|].
  rewrite Hy, Hl'; simpl; eauto.
Qed.

(** ** Dictionaries *)

Lemma dict_get_set_eq {A} (d : list (string * A)) k v :
  dict_get (dict_set d k v) k = Some v.
Proof.
  induction d as [|[k' v'] d IH]; simpl.
  - rewrite String.eqb_refl; reflexivity.
  - destruct (String.eqb k k') eqn:E; simpl; rewrite E; [reflexivity | exact IH].
Qed.

Lemma dict_get_set_ne {A} (d : list (string * A)) k k' v :
  k <> k' -> dict_get (dict_set d k v) k' = dict_get d k'.
Proof.
  intros Hne. induction d as [|[k0 v0] d IH]; simpl.
  - destruct (String.eqb k' k) eqn:E; [|reflexivity].
    apply String.eqb_eq in E; congruence.
  - destruct (String.eqb k k0) eqn:E; simpl.
    + apply String.eqb_eq in E; subst k0.
      destruct (String.eqb k' k) eqn:E'; [|reflexivity].
      apply String.eqb_eq in E'; congruence.
    + rewrite IH; reflexivity.
Qed.

Lemma dict_set_same {A} (d : list (string * A)) k v :
  dict_get d k = Some v -> dict_set d k v = d.
Proof.
  induction d as [|[k' v'] d IH]; simpl; [discriminate|].
  destruct (String.eqb k k') eqn:E.
  - intros [= ->]; reflexivity.
  - intros H; rewrite IH; auto.
Qed.

Lemma field_setitem_ne j k k' v j' :
  py_setitem j k v = Ok j' -> k <> k' -> field j' k' = field j k'.
Proof.
  destruct j; simpl; try discriminate. intros [= <-] Hne; simpl.
  apply dict_get_set_ne; assumption.
Qed.

Lemma field_setitem_eq j k v j' :
  py_setitem j k v = Ok j' -> field j' k = Some v.
Proof.
  destruct j; simpl; try discriminate. intros [= <-]; simpl.
  apply dict_get_set_eq.
Qed.

(** The key of a task depends on its [file_upload] and [data] only. *)
Lemma task_key_fields t t' :
  is_dict t = true -> is_dict t' = true ->
  field t' "file_upload" = field t "file_upload" ->
  field t' "data" = field t "data" ->
  task_key t' = task_key t.
Proof.
  destruct t, t'; simpl; try discriminate. intros _ _ Hfu Hd.
  unfold task_key; simpl. rewrite Hfu, Hd. reflexivity.
Qed.

Lemma task_key_setitem_annotations t v t' :
  py_setitem t "annotations" v = Ok t' -> task_key t' = task_key t.
Proof.
  intros H. apply task_key_fields.
  - destruct t; simpl in *; congruence.
  - destruct t; simpl in *; try discriminate. injection H as <-; reflexivity.
  - eapply field_setitem_ne; [eassumption | discriminate].
  - eapply field_setitem_ne; [eassumption | discriminate].
Qed.

(** ** Text *)

Lemma chars_app s1 s2 : chars (s1 +:+ s2) = chars s1 ++ chars s2.
Proof. induction s1 as [|c s1 IH]; simpl; [reflexivity|]. unfold chars in *; simpl. congruence. Qed.

Lemma chars_inj s1 s2 : chars s1 = chars s2 -> s1 = s2.
Proof.
  intros H. rewrite <- (String.string_of_list_ascii_of_string s1),
    <- (String.string_of_list_ascii_of_string s2). unfold chars in H. congruence.
Qed.

Lemma chars_length s : length (chars s) = String.length s.
Proof. induction s; simpl; [reflexivity|]. unfold chars in *; simpl; congruence. Qed.

Lemma chars_take n s : chars (str_take n s) = firstn n (chars s).
Proof.
  revert s; induction n as [|n IH]; intros [|c s]; try reflexivity.
  simpl. unfold chars in *; simpl. rewrite IH. reflexivity.
Qed.

Lemma chars_concat l : chars (str_concat l) = concat (map chars l).
Proof. induction l as [|s l IH]; simpl; [reflexivity|]. rewrite chars_app, IH. reflexivity. Qed.

Lemma hex_char_digit n : (n < 16)%nat -> is_hex_digit (hex_char n) = true.
Proof.
  intros H. do 16 (destruct n as [|n]; [reflexivity|]). lia.
Qed.

Lemma hex2_chars n :
  (n < 256)%nat -> length (chars (hex2 n)) = 2%nat
                   /\ Forall (fun c => is_hex_digit c = true) (chars (hex2 n)).
Proof.
  intros H. split; [reflexivity|]. unfold hex2, chars.
  cbn [String.list_ascii_of_string].
  repeat constructor; apply hex_char_digit.
  - apply Nat.Div0.div_lt_upper_bound. lia.
  - apply Nat.mod_upper_bound. lia.
Qed.

Lemma le_bytes_bytes n x : Forall (fun b => 0 <= b < 256) (le_bytes n x).
Proof.
  unfold le_bytes. apply List.Forall_forall. intros b Hb.
  apply in_map_iff in Hb. destruct Hb as (i & <- & _).
  change 0xff with (Z.ones 8). rewrite Z.land_ones by lia.
  apply Z.mod_pos_bound. reflexivity.
Qed.

Lemma le_bytes_length n x : length (le_bytes n x) = n.
Proof. unfold le_bytes. rewrite length_map, length_seq. reflexivity. Qed.

Lemma hex_of_bytes_chars bs :
  Forall (fun b => 0 <= b < 256) bs ->
  length (chars (hex_of_bytes bs)) = (2 * length bs)%nat
  /\ Forall (fun c => is_hex_digit c = true) (chars (hex_of_bytes bs)).
Proof.
  unfold hex_of_bytes. induction 1 as [|b bs Hb _ [IHl IHf]]; cbn [map str_concat length].
  - split; [reflexivity | constructor].
  - rewrite chars_app. destruct (hex2_chars (Z.to_nat b)) as [Hl Hf]; [lia|].
    split.
    + rewrite length_app, Hl, IHl. lia.
    + apply Forall_app; split; assumption.
Qed.







(** ** The bucket *)

Lemma has_key_true k t : has_key k t = true <-> task_key t = Ok k.
Proof.
  unfold has_key. destruct (task_key t) as [k'|e].
  - rewrite String.eqb_eq. split; congruence.
  - split; discriminate.
Qed.

Lemma bucket_add_get_eq k t b :
  dict_get (bucket_add k t b) k = Some (default [] (dict_get b k) ++ [t]).
Proof.
  induction b as [|[k' ts] b IH]; simpl.
  - rewrite String.eqb_refl; reflexivity.
  - destruct (String.eqb k k') eqn:E; simpl; rewrite E; [reflexivity | exact IH].
Qed.

Lemma bucket_add_get_ne k k' t b :
  k <> k' -> dict_get (bucket_add k t b) k' = dict_get b k'.
Proof.
  intros Hne. induction b as [|[k0 ts] b IH]; simpl.
  - destruct (String.eqb k' k) eqn:E; [|reflexivity].
    apply String.eqb_eq in E; congruence.
  - destruct (String.eqb k k0) eqn:E; simpl.
    + apply String.eqb_eq in E; subst k0.
      destruct (String.eqb k' k) eqn:E'; [|reflexivity].
      apply String.eqb_eq in E'; congruence.
    + rewrite IH; reflexivity.
Qed.

Lemma bucket_add_keys k t b :
  map fst (bucket_add k t b)
  = if existsb (String.eqb k) (map fst b) then map fst b else map fst b ++ [k].
Proof.
  induction b as [|[k' ts] b IH]; simpl; [reflexivity|].
  destruct (String.eqb k k') eqn:E; simpl; [reflexivity|].
  rewrite IH. destruct (existsb _ _); reflexivity.
Qed.

Lemma existsb_eqb_In k l : existsb (String.eqb k) l = true <-> In k l.
Proof.
  rewrite existsb_exists. split.
  - intros (x & Hx & E). apply String.eqb_eq in E; subst; assumption.
  - intros H; exists k; split; [assumption | apply String.eqb_refl].
Qed.

Lemma bucket_add_NoDup k t b :
  List.NoDup (map fst b) -> List.NoDup (map fst (bucket_add k t b)).
Proof.
  intros Hnd. rewrite bucket_add_keys.
  destruct (existsb (String.eqb k) (map fst b)) eqn:E; [assumption|].
  apply List.NoDup_app.
  - assumption.
  - constructor; [intros [] | constructor].
  - intros x Hx [<-|[]]. apply existsb_eqb_In in Hx. congruence.
Qed.

Lemma dict_get_In {A} (d : list (string * A)) k v :
  dict_get d k = Some v -> In (k, v) d.
Proof.
  induction d as [|[k' v'] d IH]; simpl; [discriminate|].
  destruct (String.eqb k k') eqn:E.
  - apply String.eqb_eq in E; subst. intros [= ->]; left; reflexivity.
  - intros H; right; auto.
Qed.

Lemma In_dict_get {A} (d : list (string * A)) k v :
  List.NoDup (map fst d) -> In (k, v) d -> dict_get d k = Some v.
Proof.
  induction d as [|[k' v'] d IH]; simpl; [intros _ []|].
  intros Hnd [[= -> ->]|Hin].
  - rewrite String.eqb_refl; reflexivity.
  - inversion Hnd as [|? ? Hnotin Hnd']; subst.
    destruct (String.eqb k k') eqn:E.
    + apply String.eqb_eq in E; subst k'. exfalso; apply Hnotin.
      apply in_map_iff. exists (k, v); auto.
    + auto.
Qed.

(** What [fill_bucket] builds: every key once, each group the tasks of
    that key in input order. *)
Lemma fill_bucket_spec ts : forall b b',
  fill_bucket ts b = Ok b' ->
  (List.NoDup (map fst b) -> List.NoDup (map fst b'))
  /\ (forall k, bucket_get b' k = bucket_get b k ++ List.filter (has_key k) ts)
  /\ (forall k, In k (map fst b') ->
        In k (map fst b) \/ exists t, In t ts /\ task_key t = Ok k)
  /\ Forall (fun t => exists k, task_key t = Ok k) ts.
Proof.
  induction ts as [|t ts IH]; intros b b' H; simpl in H.
  - injection H as <-. repeat split; auto.
    intros k. rewrite app_nil_r. reflexivity.
  - inv_bind H. rename x into kt.
    apply IH in H. destruct H as (Hnd & Hget & Hkeys & Hall).
    repeat split.
    + intros Hb. apply Hnd, bucket_add_NoDup, Hb.
    + intros k. rewrite Hget. unfold bucket_get. simpl.
      destruct (has_key k t) eqn:Ek.
      * apply has_key_true in Ek. assert (kt = k) by congruence; subst kt.
        rewrite bucket_add_get_eq. simpl. rewrite <- List.app_assoc. reflexivity.
      * rewrite bucket_add_get_ne; [reflexivity|].
        intros ->. apply has_key_true in Hx. congruence.
    + intros k Hk. apply Hkeys in Hk. destruct Hk as [Hk|(t' & Ht' & Hk)].
      * rewrite bucket_add_keys in Hk.
        destruct (existsb _ _); [left; assumption|].
        apply in_app_or in Hk. destruct Hk as [Hk|[<-|[]]]; [left; assumption|].
        right; exists t; split; [left; reflexivity | assumption].
      * right; exists t'; split; [right; assumption | assumption].
    + constructor; [eauto | assumption].
Qed.

Lemma fill_bucket_groups ts b :
  fill_bucket ts [] = Ok b ->
  List.NoDup (map fst b)
  /\ (forall k g, In (k, g) b -> g = List.filter (has_key k) ts /\ g <> [])
  /\ (forall t k, In t ts -> task_key t = Ok k -> In k (map fst b)).
Proof.
  intros H. apply fill_bucket_spec in H. destruct H as (Hnd & Hget & Hkeys & Hall).
  assert (Hnd' : List.NoDup (map fst b)) by (apply Hnd; constructor).
  repeat split; auto.
  - specialize (Hget k). unfold bucket_get in Hget.
    rewrite (In_dict_get _ _ _ Hnd' H) in Hget. simpl in Hget. exact Hget.
  - intros ->. assert (Hk : In k (map fst b)).
    { apply in_map_iff. exists (k, []); auto. }
    apply Hkeys in Hk. destruct Hk as [[]|(t & Ht & Hk)].
    specialize (Hget k). unfold bucket_get in Hget.
    rewrite (In_dict_get _ _ _ Hnd' H) in Hget. simpl in Hget.
    assert (Hin : In t (List.filter (has_key k) ts)).
    { apply filter_In; split; [assumption | apply has_key_true; assumption]. }
    rewrite <- Hget in Hin. destruct Hin.
  - intros t k Ht Hk. specialize (Hget k). unfold bucket_get in Hget. simpl in Hget.
    destruct (dict_get b k) as [g|] eqn:E.
    + apply dict_get_In in E. apply in_map_iff. exists (k, g); auto.
    + simpl in Hget.
      assert (Hin : In t (List.filter (has_key k) ts)).
      { apply filter_In; split; [assumption | apply has_key_true; assumption]. }
      rewrite <- Hget in Hin. destruct Hin.
Qed.

Lemma fill_bucket_total ts b :
  Forall (fun t => exists k, task_key t = Ok k) ts -> exists b', fill_bucket ts b = Ok b'.
Proof.
  intros H; revert b; induction H as [|t ts [k Hk] _ IH]; intros b; simpl; [eauto|].
  rewrite Hk; simpl. apply IH.
Qed.

(** ** One annotation *)

Lemma fix_result_Ok n r r' :
  fix_result n r = Ok r' ->
  exists f, r = JObj f
    /\ r' = JObj (dict_set f "id" (if has_id r then default JNull (dict_get f "id")
                                   else JStr (synth_id n r))).
Proof.
  unfold fix_result, has_id. destruct r; simpl; try discriminate.
  intros [= <-]. eexists; split; reflexivity.
Qed.

Lemma fix_result_dict n f :
  fix_result n (JObj f)
  = Ok (JObj (dict_set f "id" (if has_id (JObj f) then default JNull (dict_get f "id")
                               else JStr (synth_id n (JObj f))))).
Proof. reflexivity. Qed.

(** An entry that carries an identifier is left as it is. *)
Lemma fix_result_keeps n r :
  is_dict r = true -> has_id r = true -> fix_result n r = Ok r.
Proof.
  destruct r; simpl; try discriminate. intros _ Hid.
  rewrite fix_result_dict, Hid. unfold has_id in Hid; simpl in Hid.
  destruct (dict_get fields "id") as [v|] eqn:E; simpl in *; [|discriminate].
  rewrite dict_set_same; auto.
Qed.

Lemma rmap_fix_result_dicts n rs rs' :
  rmap (fix_result n) rs = Ok rs' -> Forall (fun r => is_dict r = true) rs.
Proof.
  rewrite rmap_Ok. induction 1 as [|r r' rs rs' H _ IH]; constructor; auto.
  apply fix_result_Ok in H. destruct H as (f & -> & _). reflexivity.
Qed.

Lemma iter_or_empty_dicts v rs :
  py_iter (or_empty_list v) = Ok rs -> Forall (fun r => is_dict r = true) rs ->
  match v with
  | JArr (_ :: _) => rs = match v with JArr l => l | _ => [] end
  | _ => rs = []
  end.
Proof.
  unfold or_empty_list. intros H Hd.
  destruct v as [| | | |s|l|g]; simpl in H.
  - injection H as <-; reflexivity.
  - destruct b; simpl in H; [discriminate | injection H as <-; reflexivity].
  - destruct (negb (z =? 0)); simpl in H; [discriminate | injection H as <-; reflexivity].
  - destruct (negb (float_is_zero repr)); simpl in H;
      [discriminate | injection H as <-; reflexivity].
  - destruct s; simpl in H; injection H as <-; [reflexivity|].
    inversion Hd; discriminate.
  - destruct l; simpl in H; injection H as <-; reflexivity.
  - destruct g; simpl in H; injection H as <-; [reflexivity|].
    inversion Hd; discriminate.
Qed.

Lemma renumber_same_results n f :
  match dict_get f "result" with
  | Some (JArr (_ :: _)) => False
  | _ => True
  end ->
  let a' := JObj (dict_set f "id" (JInt n)) in
  is_dict (JObj f) = true
  /\ is_dict a' = true
  /\ field a' "id" = Some (JInt n)
  /\ (forall k, k <> "id" -> k <> "result" -> field a' k = field (JObj f) k)
  /\ Forall2 (fun r r' => fix_result n r = Ok r') (results_of (JObj f)) (results_of a').
Proof.
  intros Hnot; simpl.
  rewrite dict_get_set_eq, (dict_get_set_ne f "id" "result") by discriminate.
  split; [reflexivity|]. split; [reflexivity|]. split; [reflexivity|]. split.
  - intros k Hk _. apply dict_get_set_ne; congruence.
  - destruct (dict_get f "result") as [[| | | | |[|? ?]|]|]; try contradiction; constructor.
Qed.

Lemma renumber_Ok n a a' :
  renumber n a = Ok a' ->
  is_dict a = true
  /\ is_dict a' = true
  /\ field a' "id" = Some (JInt n)
  /\ (forall k, k <> "id" -> k <> "result" -> field a' k = field a k)
  /\ Forall2 (fun r r' => fix_result n r = Ok r') (results_of a) (results_of a').
Proof.
  intros H. destruct a as [| | | | | |f]; try discriminate H.
  pose proof (renumber_same_results n f) as Hsame.
  unfold renumber, deep_copy in H; simpl in H.
  rewrite (dict_get_set_ne f "id" "result") in H by discriminate.
  destruct (dict_get f "result") as [v|] eqn:Ev; simpl in H.
  2:{ injection H as <-. apply Hsame; exact I. }
  inv_bind H. rename x into rs. inv_bind H. rename x into rs'.
  assert (Hdicts := rmap_fix_result_dicts _ _ _ Hx0).
  pose proof (iter_or_empty_dicts _ _ Hx Hdicts) as Hrs.
  destruct v as [| | | | |[|r0 l]|g];
    try (injection H as <-; apply Hsame; exact I).
  subst rs. injection H as <-. clear Hsame. simpl.
  rewrite Ev, dict_get_set_eq.
  rewrite dict_get_set_ne, dict_get_set_eq by discriminate.
  split; [reflexivity|]. split; [reflexivity|]. split; [reflexivity|]. split.
  - intros k Hk Hk'. rewrite !dict_get_set_ne by congruence. reflexivity.
  - apply rmap_Ok; assumption.
Qed.

Lemma renumber_total n a : wf_annotation a = true -> exists a', renumber n a = Ok a'.
Proof.
  unfold renumber, deep_copy, wf_annotation. destruct a as [| | | | | |f]; try discriminate.
  simpl. rewrite (dict_get_set_ne f "id" "result") by discriminate.
  destruct (dict_get f "result") as [v|]; simpl; [|eauto].
  intros Hwf.
  assert (Hcases : (exists l, v = JArr l /\ forallb is_dict l = true)
                   \/ (truthy v = false /\ forall l, v <> JArr l)).
  { destruct v; try (right; split; [apply negb_true_iff; exact Hwf | discriminate]).
    left; eauto. }
  destruct Hcases as [(l & -> & Hl)|[Hf Hna]].
  - destruct l as [|r0 l]; simpl; [eauto|].
    destruct (rmap_total (fix_result n) (r0 :: l)) as [rs' Hrs'].
    { pose proof (proj1 (forallb_forall _ _) Hl) as Hl'.
      apply List.Forall_forall. intros r Hr.
      specialize (Hl' r Hr). destruct r; try discriminate.
      rewrite fix_result_dict; eauto. }
    unfold or_empty_list; simpl. simpl in Hrs'. rewrite Hrs'. simpl. eauto.
  - unfold or_empty_list. rewrite Hf. simpl.
    destruct v as [| | | | |l|]; eauto. exfalso; eapply Hna; reflexivity.
Qed.

(** ** The annotations of a group, renumbered *)

Lemma renumber_from_Ok anns : forall n anns',
  renumber_from n anns = Ok anns' ->
  Forall2 (fun na a' => renumber (fst na) (snd na) = Ok a')
          (combine (Zseq n (length anns)) anns) anns'.
Proof.
  induction anns as [|a anns IH]; intros n anns' H; simpl in H.
  - injection H as <-. constructor.
  - inv_bind H. inv_bind H. injection H as <-. simpl.
    constructor; [assumption | apply IH; assumption].
Qed.

Lemma renumber_from_total anns : forall n,
  Forall (fun a => wf_annotation a = true) anns -> exists anns', renumber_from n anns = Ok anns'.
Proof.
  induction anns as [|a anns IH]; intros n H; simpl; [eauto|].
  inversion H as [|? ? Ha Hanns]; subst.
  destruct (renumber_total n a Ha) as [a' ->]. simpl.
  destruct (IH (n + 1) Hanns) as [anns' ->]. simpl. eauto.
Qed.

Lemma Forall2_combine_length {A B C} (P : A * B -> C -> Prop) l1 l2 l3 :
  length l1 = length l2 -> Forall2 P (combine l1 l2) l3 -> length l3 = length l2.
Proof.
  intros Hlen H. apply Forall2_length in H.
  rewrite length_combine, Hlen, Nat.min_id in H. congruence.
Qed.

Lemma Zseq_length n len : length (Zseq n len) = len.
Proof. revert n; induction len; intros; simpl; auto. Qed.

Lemma renumber_from_length n anns anns' :
  renumber_from n anns = Ok anns' -> length anns' = length anns.
Proof.
  intros H. apply renumber_from_Ok in H.
  eapply Forall2_combine_length; [|eassumption]. apply Zseq_length.
Qed.

(** The identifiers after renumbering are [n], [n + 1], ... in the order
    of the list. *)
Lemma renumber_from_ids anns : forall n anns',
  renumber_from n anns = Ok anns' ->
  map (fun a => field a "id") anns' = map (fun i => Some (JInt i)) (Zseq n (length anns)).
Proof.
  induction anns as [|a anns IH]; intros n anns' H; simpl in H.
  - injection H as <-. reflexivity.
  - inv_bind H. inv_bind H. injection H as <-. simpl.
    apply renumber_Ok in Hx. destruct Hx as (_ & _ & Hid & _).
    rewrite Hid. f_equal. apply IH; assumption.
Qed.

(** ** The base of a group *)

Lemma insert_desc_nonempty {A} (x : nat * A) s : insert_desc x s <> [].
Proof. destruct s as [|y s]; simpl; [discriminate|]. destruct (_ <=? _)%nat; discriminate. Qed.

Lemma sorted_desc_nil {A} (l : list (nat * A)) : sorted_desc l = [] -> l = [].
Proof.
  destruct l as [|x l]; [reflexivity|]. unfold sorted_desc; simpl.
  intros H. exfalso. eapply insert_desc_nonempty; eassumption.
Qed.

Lemma first_max_bound {A} (l : list (nat * A)) h :
  first_max l h -> Forall (fun y => (fst y <= fst h)%nat) l.
Proof.
  intros (l1 & l2 & -> & H1 & H2). apply Forall_app; split.
  - eapply List.Forall_impl; [|exact H1]. simpl; intros; lia.
  - constructor; [lia | assumption].
Qed.

Lemma sorted_desc_head {A} (l : list (nat * A)) : forall h r,
  sorted_desc l = h :: r -> first_max l h.
Proof.
  induction l as [|x l IH]; intros h r H; [discriminate|].
  unfold sorted_desc in H; simpl in H. fold (sorted_desc l) in H.
  destruct (sorted_desc l) as [|z s] eqn:Es.
  - apply sorted_desc_nil in Es; subst l. simpl in H. injection H as <- <-.
    exists [], []; repeat split; constructor.
  - specialize (IH z s eq_refl). simpl in H.
    destruct (fst z <=? fst x)%nat eqn:E.
    + injection H as <- <-. apply Nat.leb_le in E.
      exists [], l; repeat split; [constructor|].
      eapply List.Forall_impl; [|apply first_max_bound; exact IH]. simpl; intros; lia.
    + injection H as <- <-. apply Nat.leb_gt in E.
      destruct IH as (l1 & l2 & -> & H1 & H2).
      exists (x :: l1), l2; repeat split; [constructor; assumption | assumption].
Qed.

(** ** One group *)

Lemma items_of_task t items :
  annotations_items t = Ok items -> Forall (fun a => is_dict a = true) items ->
  items = annotations_of t
  /\ forall n, annotations_len t = Ok n -> n = annotation_count t.
Proof.
  unfold annotations_items, annotations_len, annotation_count, annotations_of.
  destruct t as [| | | | | |f]; simpl; try discriminate.
  intros H Hd. pose proof (iter_or_empty_dicts _ _ H Hd) as Hi.
  destruct (dict_get f "annotations") as [v|]; simpl in *.
  - destruct v as [| | | |s|[|a l]|g]; subst items; simpl;
      split; try reflexivity; try discriminate; intros n [= <-]; try reflexivity.
    + destruct s; [reflexivity | discriminate H].
    + destruct g; [reflexivity | discriminate H].
  - subst items. split; [reflexivity | intros n [= <-]; reflexivity].
Qed.

Lemma renumber_from_dicts anns : forall n anns',
  renumber_from n anns = Ok anns' -> Forall (fun a => is_dict a = true) anns.
Proof.
  induction anns as [|a anns IH]; intros n anns' H; [constructor|].
  simpl in H. inv_bind H. inv_bind H.
  constructor; [apply renumber_Ok in Hx; tauto | eapply IH; eassumption].
Qed.

Lemma flat_map_length_sum {A B} (f : A -> list B) l :
  length (flat_map f l) = list_sum (map (fun x => length (f x)) l).
Proof. induction l; simpl; [reflexivity|]. rewrite length_app; congruence. Qed.

Lemma merge_group_Ok tasks m :
  merge_group tasks = Ok m ->
  exists base new_anns,
    is_base tasks base
    /\ py_setitem base "annotations" (JArr new_anns) = Ok m
    /\ renumber_from 1 (flat_map annotations_of tasks) = Ok new_anns.
Proof.
  unfold merge_group, deep_copy. intros H. inv_bind H. rename x into keyed.
  destruct (sorted_desc keyed) as [|[n0 first] rest] eqn:Es; [discriminate|].
  inv_bind H. rename x into all_anns. inv_bind H. rename x into new_anns.
  exists first, new_anns.
  pose proof (renumber_from_dicts _ _ _ Hx1) as Hd.
  apply rmap_Ok in Hx, Hx0.
  assert (Hall : concat all_anns = flat_map annotations_of tasks
                 /\ keyed = map (fun t => (annotation_count t, t)) tasks).
  { clear Es H Hx1. revert keyed all_anns Hx Hx0 Hd.
    induction tasks as [|t tasks IH]; intros keyed all_anns Hk Hi Hd.
    - inversion Hk; inversion Hi; subst; split; reflexivity.
    - inversion Hk as [|? kt ? keyed' Hkt Hk']; subst.
      inversion Hi as [|? it ? all' Hit Hi']; subst.
      simpl in Hd. apply Forall_app in Hd. destruct Hd as [Hd1 Hd2].
      destruct (IH _ _ Hk' Hi' Hd2) as [E1 E2].
      destruct (items_of_task _ _ Hit Hd1) as [-> Hlen].
      inv_bind Hkt. injection Hkt as <-.
      simpl. rewrite E1, (Hlen _ Hx), <- E2. split; reflexivity. }
  destruct Hall as [Hc Hk]. rewrite Hc in Hx1.
  repeat split; try assumption.
  unfold is_base. rewrite <- Hk.
  apply sorted_desc_head in Es.
  assert (n0 = annotation_count first); [|subst n0; exact Es].
  destruct Es as (l1 & l2 & E & _). rewrite Hk in E.
  assert (Hin : In (n0, first) (map (fun t => (annotation_count t, t)) tasks)).
  { rewrite E. apply in_or_app; right; left; reflexivity. }
  apply in_map_iff in Hin. destruct Hin as (t & [= <- <-] & _). reflexivity.
Qed.

Lemma is_base_In tasks base : is_base tasks base -> In base tasks.
Proof.
  intros (l1 & l2 & E & _).
  assert (Hin : In (annotation_count base, base)
                   (map (fun t => (annotation_count t, t)) tasks)).
  { rewrite E. apply in_or_app; right; left; reflexivity. }
  apply in_map_iff in Hin. destruct Hin as (t & [= _ <-] & Ht). exact Ht.
Qed.

Lemma merge_group_total tasks :
  tasks <> [] -> Forall (fun t => wf_task t = true) tasks ->
  exists m, merge_group tasks = Ok m.
Proof.
  intros Hne Hwf. unfold merge_group, deep_copy.
  assert (Hlen : forall t, wf_task t = true ->
            annotations_len t = Ok (annotation_count t)
            /\ annotations_items t = Ok (annotations_of t)
            /\ Forall (fun a => wf_annotation a = true) (annotations_of t)
            /\ is_dict t = true).
  { intros t Ht. unfold wf_task in Ht. destruct t as [| | | | | |f]; try discriminate.
    apply andb_true_iff in Ht. destruct Ht as [_ Ht].
    unfold annotations_len, annotations_items, annotation_count, annotations_of; simpl.
    destruct (dict_get f "annotations") as [[| | | | |l|]|]; try discriminate; simpl.
    - repeat split; try reflexivity.
      + unfold or_empty_list. destruct l; reflexivity.
      + apply List.Forall_forall. apply forallb_forall. exact Ht.
    - repeat split; constructor. }
  destruct (rmap_total (fun t => do n <- annotations_len t; Ok (n, t)) tasks) as [keyed Hk].
  { eapply List.Forall_impl; [|exact Hwf]. simpl. intros t Ht.
    destruct (Hlen t Ht) as (-> & _). simpl; eauto. }
  rewrite Hk; simpl.
  destruct (sorted_desc keyed) as [|[n0 first] rest] eqn:Es.
  { apply sorted_desc_nil in Es; subst keyed. apply rmap_Ok in Hk.
    inversion Hk; subst. congruence. }
  assert (Hfirst : In first tasks).
  { apply sorted_desc_head in Es. destruct Es as (l1 & l2 & E & _).
    apply rmap_Ok in Hk. clear -Hk E.
    assert (Hin : In (n0, first) keyed) by (rewrite E; apply in_or_app; right; left; reflexivity).
    clear E. induction Hk as [|t kt ts kts Hkt _ IH]; [destruct Hin|].
    destruct Hin as [->|Hin]; [|right; auto].
    inv_bind Hkt. injection Hkt as _ ->. left; reflexivity. }
  assert (Hitems : rmap annotations_items tasks = Ok (map annotations_of tasks)).
  { apply rmap_Ok. clear -Hwf Hlen. induction Hwf as [|t ts Ht _ IH]; simpl; constructor; auto.
    apply Hlen; assumption. }
  rewrite Hitems; simpl.
  destruct (renumber_from_total (concat (map annotations_of tasks)) 1) as [new_anns Hn].
  { apply Forall_concat. apply Forall_map.
    eapply List.Forall_impl; [|exact Hwf]. simpl. intros t Ht. apply Hlen; assumption. }
  rewrite Hn; simpl.
  rewrite Forall_forall in Hwf. apply list_elem_of_In in Hfirst.
  destruct (Hlen first (Hwf _ Hfirst)) as (_ & _ & _ & Hd).
  destruct first; try discriminate. simpl. eauto.
Qed.

(** ** The merged list *)

Lemma merge_ls_tasks_Ok task_lists merged :
  merge_ls_tasks task_lists = Ok merged ->
  exists bucket,
    fill_bucket (concat task_lists) [] = Ok bucket
    /\ Forall2 (fun kg m => merge_group (snd kg) = Ok m) bucket merged.
Proof.
  unfold merge_ls_tasks. intros H. inv_bind H. exists x. split; [assumption|].
  apply rmap_Ok in H. exact H.
Qed.

Lemma merge_ls_tasks_groups task_lists merged :
  merge_ls_tasks task_lists = Ok merged ->
  exists bucket,
    List.NoDup (map fst bucket)
    /\ (forall t k, In t (concat task_lists) -> task_key t = Ok k -> In k (map fst bucket))
    /\ Forall2 (merged_from task_lists) bucket merged.
Proof.
  intros H. apply merge_ls_tasks_Ok in H. destruct H as (bucket & Hb & Hm).
  apply fill_bucket_groups in Hb. destruct Hb as (Hnd & Hg & Hk).
  exists bucket. repeat split; try assumption.
  clear Hnd Hk. induction Hm as [|[k g] m bucket merged Hkm _ IH]; constructor.
  - simpl in Hkm. destruct (Hg k g (or_introl eq_refl)) as [Eg _].
    unfold merged_from, group_of; simpl. repeat split; try assumption.
    destruct (merge_group_Ok _ _ Hkm) as (base & new_anns & Hbase & Hset & _).
    rewrite (task_key_setitem_annotations _ _ _ Hset).
    apply is_base_In in Hbase. rewrite Eg in Hbase.
    apply filter_In in Hbase. apply has_key_true. tauto.
  - apply IH. intros k' g' Hin. apply Hg. right; assumption.
Qed.

Lemma filter_key_absent task_lists bucket merged k :
  Forall2 (merged_from task_lists) bucket merged ->
  ~ In k (map fst bucket) -> List.filter (has_key k) merged = [].
Proof.
  induction 1 as [|[k0 g0] m bucket merged (_ & Hk0 & _) _ IH]; simpl; [reflexivity|].
  intros Hnot. simpl in Hk0.
  destruct (has_key k m) eqn:E.
  - apply has_key_true in E. exfalso; apply Hnot. left. congruence.
  - apply IH. intros Hin; apply Hnot; right; assumption.
Qed.

Lemma filter_key_unique task_lists bucket merged k :
  Forall2 (merged_from task_lists) bucket merged ->
  List.NoDup (map fst bucket) -> In k (map fst bucket) ->
  exists g m, In (k, g) bucket /\ merged_from task_lists (k, g) m
    /\ List.filter (has_key k) merged = [m].
Proof.
  induction 1 as [|[k0 g0] m bucket merged Hm Hrest IH]; simpl; [intros _ []|].
  intros Hnd Hin. inversion Hnd as [|? ? Hnotin Hnd']; subst.
  destruct Hm as (Hg0 & Hk0 & Hmg0). simpl in *.
  destruct (String.eqb_spec k0 k) as [->|Hne].
  - exists g0, m. split; [left; reflexivity|]. split; [repeat split; assumption|].
    assert (E : has_key k m = true) by (apply has_key_true; assumption).
    rewrite E. f_equal. eapply filter_key_absent; eassumption.
  - destruct Hin as [Hin|Hin]; [contradiction|].
    destruct (IH Hnd' Hin) as (g & m' & Hin' & Hm' & Hf).
    exists g, m'. split; [right; assumption|]. split; [assumption|].
    assert (E : has_key k m = false).
    { destruct (has_key k m) eqn:E; [|reflexivity].
      apply has_key_true in E. congruence. }
    rewrite E. assumption.
Qed.

Lemma merged_from_In task_lists bucket merged m :
  Forall2 (merged_from task_lists) bucket merged -> In m merged ->
  exists kg, In kg bucket /\ merged_from task_lists kg m.
Proof.
  induction 1 as [|kg m' bucket merged Hm _ IH]; simpl; [intros []|].
  intros [<-|Hin].
  - exists kg; split; [left; reflexivity | assumption].
  - destruct (IH Hin) as (kg' & Hin' & Hm'). exists kg'; split; [right|]; assumption.
Qed.

Lemma annotations_of_setitem base new_anns m :
  py_setitem base "annotations" (JArr new_anns) = Ok m -> annotations_of m = new_anns.
Proof.
  destruct base; simpl; try discriminate. intros [= <-]; simpl.
  rewrite dict_get_set_eq. reflexivity.
Qed.

(** What a merged task holds, in terms of its group. *)
Lemma merged_from_annotations task_lists k g m :
  merged_from task_lists (k, g) m ->
  exists base,
    is_base (group_of k task_lists) base
    /\ py_setitem base "annotations" (JArr (annotations_of m)) = Ok m
    /\ renumber_from 1 (flat_map annotations_of (group_of k task_lists))
       = Ok (annotations_of m).
Proof.
  intros (Hg & _ & Hm). simpl in *. subst g.
  destruct (merge_group_Ok _ _ Hm) as (base & new_anns & Hbase & Hset & Hren).
  rewrite (annotations_of_setitem _ _ _ Hset). eauto.
Qed.

Lemma or_empty_dict_false d : negb (truthy d) = true -> or_empty_dict d = JObj [].
Proof. unfold or_empty_dict. destruct (truthy d); [discriminate | reflexivity]. Qed.

Lemma wf_task_key t : wf_task t = true -> exists k, task_key t = Ok k.
Proof.
  unfold wf_task. destruct t as [| | | | | |f]; try discriminate.
  intros H. apply andb_true_iff in H. destruct H as [H _].
  unfold wf_reference in H. unfold task_key; simpl.
  destruct (truthy (default JNull (dict_get f "file_upload"))); simpl in *; [eauto|].
  destruct (default JNull (dict_get f "data")) as [| | | | | |df] eqn:Ed;
    try (match goal with
         | |- context [or_empty_dict ?d] => rewrite (or_empty_dict_false d H)
         end; simpl; eauto; fail).
  unfold or_empty_dict.
  destruct df as [|kv df]; [simpl; eauto|].
  change (truthy (JObj (kv :: df))) with true. cbv iota.
  unfold py_get at 1.
  destruct (dict_get (kv :: df) "image") as [[]|]; try discriminate; simpl; eauto.
Qed.

Lemma merge_ls_tasks_total task_lists :
  Forall (Forall (fun t => wf_task t = true)) task_lists ->
  exists merged, merge_ls_tasks task_lists = Ok merged.
Proof.
  intros Hwf. unfold merge_ls_tasks.
  assert (Hall : Forall (fun t => wf_task t = true) (concat task_lists)).
  { apply Forall_concat. exact Hwf. }
  destruct (fill_bucket_total (concat task_lists) []) as [bucket Hb].
  { eapply List.Forall_impl; [|exact Hall]. apply wf_task_key. }
  rewrite Hb; simpl. apply rmap_total.
  apply fill_bucket_groups in Hb. destruct Hb as (_ & Hg & _).
  apply List.Forall_forall. intros [k g] Hin. simpl.
  destruct (Hg k g Hin) as [-> Hne]. apply merge_group_total; [assumption|].
  apply List.Forall_forall. intros t Ht. apply filter_In in Ht.
  rewrite List.Forall_forall in Hall. apply Hall. tauto.
Qed.

Lemma Zseq_In n len x : In x (Zseq n len) -> n <= x < n + Z.of_nat len.
Proof.
  revert n; induction len as [|len IH]; intros n; simpl; [intros []|].
  intros [<-|Hin]; [lia|]. apply IH in Hin. lia.
Qed.

Lemma Zseq_NoDup n len : List.NoDup (Zseq n len).
Proof.
  revert n; induction len as [|len IH]; intros n; simpl; constructor.
  - intros Hin. apply Zseq_In in Hin. lia.
  - apply IH.
Qed.

Lemma Zseq_nat len : Zseq 1 len = map Z.of_nat (seq 1 len).
Proof.
  assert (H : forall k, Zseq (Z.of_nat k) len = map Z.of_nat (seq k len)).
  { induction len as [|len IH]; intros k; simpl; [reflexivity|].
    f_equal. rewrite <- IH. f_equal. lia. }
  exact (H 1%nat).
Qed.

Lemma renumber_from_fields anns : forall n anns',
  renumber_from n anns = Ok anns' ->
  Forall2 (fun a a' => forall f, f <> "id" -> f <> "result" -> field a' f = field a f)
    anns anns'.
Proof.
  induction anns as [|a anns IH]; intros n anns' H; simpl in H.
  - injection H as <-. constructor.
  - inv_bind H. inv_bind H. injection H as <-. constructor.
    + apply renumber_Ok in Hx. intros f Hf Hf'. apply Hx; assumption.
    + eapply IH; eassumption.
Qed.

(** * The claims about [merge_ls_tasks] *)

(** C1. Well-formed input is merged without error; whenever the merge
    returns, every key of the input has exactly one task in the merged
    list, whose annotations are as many as those of all the input tasks of
    that key together; a task without the [annotations] field counts for
    none. *)
Theorem merge_one_task_per_key (task_lists : list (list json)) :
  (Forall (Forall (fun t => wf_task t = true)) task_lists ->
     exists merged, merge_ls_tasks task_lists = Ok merged)
  /\ (forall merged, merge_ls_tasks task_lists = Ok merged ->
        forall t k, In t (concat task_lists) -> task_key t = Ok k ->
          exists m, List.filter (has_key k) merged = [m]
            /\ annotation_count m
               = list_sum (map annotation_count (group_of k task_lists)))
  /\ (forall f, dict_get f "annotations" = None -> annotation_count (JObj f) = 0%nat).
Proof.
  split; [apply merge_ls_tasks_total|]. split.
  - intros merged H t k Ht Hk.
    destruct (merge_ls_tasks_groups _ _ H) as (bucket & Hnd & Hkeys & Hm).
    destruct (filter_key_unique _ _ _ k Hm Hnd (Hkeys _ _ Ht Hk))
      as (g & m & _ & Hfrom & Hf).
    exists m. split; [assumption|].
    destruct (merged_from_annotations _ _ _ _ Hfrom) as (base & _ & _ & Hren).
    apply renumber_from_length in Hren. unfold annotation_count at 1.
    rewrite Hren. apply flat_map_length_sum.
  - intros f Hf. unfold annotation_count, annotations_of. rewrite Hf. reflexivity.
Qed.

(** C2. In every merged task the annotation identifiers are 1, 2, ..., n
    without repeats, and the i-th annotation is the i-th one collected
    from the tasks of the group (tasks in input order, each task's
    annotations in their order): apart from [id] and [result] it has the
    fields of that annotation. *)
Theorem merged_annotation_ids (task_lists : list (list json)) merged m :
  merge_ls_tasks task_lists = Ok merged -> In m merged ->
  exists k, task_key m = Ok k
    /\ let collected := flat_map annotations_of (group_of k task_lists) in
       map (fun a => field a "id") (annotations_of m)
         = map (fun i => Some (JInt (Z.of_nat i))) (seq 1 (length collected))
       /\ List.NoDup (map (fun a => field a "id") (annotations_of m))
       /\ Forall2 (fun a a' => forall f, f <> "id" -> f <> "result" -> field a' f = field a f)
            collected (annotations_of m).
Proof.
  intros H Hin.
  destruct (merge_ls_tasks_groups _ _ H) as (bucket & _ & _ & Hm).
  destruct (merged_from_In _ _ _ _ Hm Hin) as ([k g] & _ & Hfrom).
  exists k. split; [apply Hfrom|]. simpl.
  destruct (merged_from_annotations _ _ _ _ Hfrom) as (base & _ & _ & Hren).
  pose proof (renumber_from_ids _ _ _ Hren) as Hids.
  split; [|split].
  - rewrite Hids, Zseq_nat, map_map. reflexivity.
  - rewrite Hids. apply Injective_map_NoDup; [|apply Zseq_NoDup].
    intros x y [= ->]; reflexivity.
  - eapply renumber_from_fields; eassumption.
Qed.






Lemma merge_one_task_per_key_witness :
  exists merged m,
    merge_ls_tasks [contributor_a; contributor_b] = Ok merged
    /\ List.filter (has_key "img1.jpg") merged = [m]
    /\ annotation_count m = 3%nat.
Proof.
  destruct (merge_one_task_per_key [contributor_a; contributor_b]) as (Htot & Hone & _).
  destruct Htot as [merged Hm].
  { repeat constructor. }
  exists merged.
  destruct (Hone merged Hm
              (JObj [("file_upload", JStr "img1.jpg");
                     ("annotations", JArr [sample_annotation "stop"])])
              "img1.jpg" (or_introl eq_refl) eq_refl) as (m & Hf & Hc).
  exists m. repeat split; assumption.
Defined.

Lemma merged_annotation_ids_witness :
  exists merged m,
    merge_ls_tasks [contributor_a; contributor_b] = Ok merged
    /\ In m merged
    /\ map (fun a => field a "id") (annotations_of m)
       = [Some (JInt 1); Some (JInt 2); Some (JInt 3)].
Proof.
  eexists. eexists. split; [vm_compute; reflexivity|]. split; [left; reflexivity|].
  match goal with
  | |- map _ (annotations_of ?m) = _ =>
      destruct (merged_annotation_ids [contributor_a; contributor_b] _ m
                  ltac:(vm_compute; reflexivity) (or_introl eq_refl))
        as (k & Hk & Hids & _)
  end.
  vm_compute in Hk. injection Hk as <-. exact Hids.
Defined.

(** ** Paths *)

Lemma str_app_cons c s t : String c s +:+ t = String c (s +:+ t).
Proof. reflexivity. Qed.

Lemma str_app_nil_r s : s +:+ "" = s.
Proof. induction s as [|c s IH]; [reflexivity | rewrite str_app_cons; congruence]. Qed.

Lemma str_app_assoc a b c : (a +:+ b) +:+ c = a +:+ b +:+ c.
Proof. induction a as [|x a IH]; [reflexivity | rewrite !str_app_cons; congruence]. Qed.

Lemma split_on_nonempty c s : split_on c s <> [].
Proof.
  destruct s as [|a s]; simpl; [discriminate|].
  destruct (ascii_eqb a c); [discriminate|].
  destruct (split_on c s); discriminate.
Qed.

Lemma str_join_cons sep s r :
  r <> [] -> str_join sep (s :: r) = s +:+ sep +:+ str_join sep r.
Proof. destruct r; [congruence | reflexivity]. Qed.

Lemma split_on_join s : str_join "/" (split_on slash s) = s.
Proof.
  induction s as [|a s IH]; [reflexivity|]. simpl.
  destruct (ascii_eqb a slash) eqn:E.
  - apply Ascii.eqb_eq in E; subst a.
    rewrite str_join_cons by apply split_on_nonempty. rewrite IH. reflexivity.
  - pose proof (split_on_nonempty slash s) as Hne.
    destruct (split_on slash s) as [|w ws]; [congruence|].
    destruct ws as [|w' ws]; [simpl in *; congruence|].
    rewrite str_join_cons in * by discriminate. rewrite str_app_cons. congruence.
Qed.

Lemma split_on_no_slash s : Forall (fun x => ~ In slash (chars x)) (split_on slash s).
Proof.
  induction s as [|a s IH]; simpl.
  - constructor; [intros [] | constructor].
  - destruct (ascii_eqb a slash) eqn:E.
    + constructor; [intros [] | assumption].
    + pose proof (split_on_nonempty slash s) as Hne.
      destruct (split_on slash s) as [|w ws]; [congruence|].
      inversion IH as [|? ? Hw Hws]; subst. constructor; [|assumption].
      unfold chars; simpl. intros [->|Hin]; [|apply Hw; exact Hin].
      unfold ascii_eqb in E. rewrite Ascii.eqb_refl in E. discriminate.
Qed.

Lemma is_component_false x : is_component x = false -> x = "" \/ x = ".".
Proof.
  unfold is_component. intros H. apply andb_false_iff in H.
  destruct H as [H|H]; apply negb_false_iff, String.eqb_eq in H; auto.
Qed.

Lemma is_component_true x : is_component x = true -> x <> "" /\ x <> ".".
Proof.
  unfold is_component. intros H. apply andb_true_iff in H. destruct H as [H1 H2].
  apply negb_true_iff, String.eqb_neq in H1, H2. auto.
Qed.

(** The last item of a list that passes a test, and what comes after it. *)
Lemma last_filter {A} (p : A -> bool) (l : list A) (d : A) :
  (List.filter p l = [] /\ Forall (fun x => p x = false) l)
  \/ exists l1 x l2, l = l1 ++ x :: l2 /\ p x = true
       /\ Forall (fun y => p y = false) l2 /\ List.last (List.filter p l) d = x.
Proof.
  induction l as [|a l IH]; simpl.
  - left; split; constructor.
  - destruct IH as [[Hf Hall]|(l1 & x & l2 & -> & Hx & Hl2 & Hlast)].
    + rewrite Hf. destruct (p a) eqn:Ea.
      * right. exists [], a, l. repeat split; assumption.
      * left. split; [reflexivity | constructor; assumption].
    + right. exists (a :: l1), x, l2. repeat split; try assumption.
      destruct (p a); [|assumption].
      destruct (List.filter p (l1 ++ x :: l2)) eqn:Ef; [|exact Hlast].
      assert (Hin : In x (List.filter p (l1 ++ x :: l2))).
      { apply filter_In. split; [apply in_or_app; right; left; reflexivity | assumption]. }
      rewrite Ef in Hin. destruct Hin.
Qed.

Lemma str_join_app_cons sep l1 x l2 :
  str_join sep (l1 ++ x :: l2)
  = (match l1 with [] => "" | _ => str_join sep l1 +:+ sep end)
    +:+ x +:+ (match l2 with [] => "" | _ => sep +:+ str_join sep l2 end).
Proof.
  induction l1 as [|a l1 IH].
  - simpl. destruct l2; [rewrite str_app_nil_r|]; reflexivity.
  - change ((a :: l1) ++ x :: l2) with (a :: (l1 ++ x :: l2)).
    rewrite str_join_cons by (destruct l1; discriminate). rewrite IH.
    destruct l1 as [|b l1].
    + simpl. rewrite !str_app_assoc. reflexivity.
    + rewrite (str_join_cons sep a (b :: l1)) by discriminate.
      rewrite !str_app_assoc. reflexivity.
Qed.

(** [Path(s).name] is the base name of [s], and empty only when [s] has no
    name. *)
Lemma path_name_spec s :
  (path_name s = "" /\ has_no_name s) \/ is_base_name s (path_name s).
Proof.
  unfold path_name, path_parts.
  destruct (last_filter is_component (split_on slash s) "")
    as [[Hf Hall]|(l1 & x & l2 & E & Hx & Hl2 & Hlast)].
  - left. rewrite Hf. split; [reflexivity|].
    exists (split_on slash s). split; [symmetry; apply split_on_join|].
    eapply List.Forall_impl; [|exact Hall]. apply is_component_false.
  - right. rewrite Hlast. apply is_component_true in Hx. destruct Hx as [Hx1 Hx2].
    pose proof (split_on_no_slash s) as Hns. rewrite E in Hns.
    apply Forall_app in Hns. destruct Hns as [_ Hns].
    apply Forall_cons in Hns. destruct Hns as [Hxs _].
    repeat split; try assumption.
    exists (match l1 with [] => "" | _ => str_join "/" l1 +:+ "/" end),
           (match l2 with [] => "" | _ => "/" +:+ str_join "/" l2 end).
    split; [|split].
    + rewrite <- (split_on_join s) at 1. rewrite E. apply str_join_app_cons.
    + destruct l1; [left; reflexivity | right; eexists; reflexivity].
    + destruct l2 as [|y l2]; [left; reflexivity|]. right.
      exists (y :: l2). split; [reflexivity|].
      eapply List.Forall_impl; [|exact Hl2]. apply is_component_false.
Qed.

(** * The claim about [task_key] *)

(** C7. A task whose upload identifier is a non-empty string has that
    string as its key (any other true value has its text); otherwise the
    key is the base name of the image reference, the directory part
    stripped, and the reference itself when it has no name; a task without
    image reference has the empty key. *)
Theorem task_key_resolution (f : list (string * json)) :
  (forall s, dict_get f "file_upload" = Some (JStr s) -> s <> "" ->
     task_key (JObj f) = Ok s)
  /\ (forall fu, dict_get f "file_upload" = Some fu -> truthy fu = true ->
        task_key (JObj f) = Ok (py_str fu))
  /\ (forall df img,
        truthy (default JNull (dict_get f "file_upload")) = false ->
        dict_get f "data" = Some (JObj df) -> dict_get df "image" = Some (JStr img) ->
        (is_base_name img (path_name img) /\ task_key (JObj f) = Ok (path_name img))
        \/ (has_no_name img /\ task_key (JObj f) = Ok img))
  /\ (truthy (default JNull (dict_get f "file_upload")) = false ->
      truthy (default JNull (dict_get f "data")) = false ->
      task_key (JObj f) = Ok "").
Proof.
  unfold task_key; simpl. repeat split.
  - intros s Hs Hne. rewrite Hs; simpl.
    destruct (String.eqb_spec s ""); [contradiction | reflexivity].
  - intros fu Hfu Ht. rewrite Hfu; simpl. rewrite Ht. reflexivity.
  - intros df img Hfu Hd Hi. rewrite Hfu, Hd; simpl.
    unfold or_empty_dict.
    assert (Ht : truthy (JObj df) = true) by (destruct df; [discriminate | reflexivity]).
    rewrite Ht; simpl. rewrite Hi; simpl.
    destruct (path_name_spec img) as [[E Hno]|Hb].
    + right. rewrite E. split; [assumption | reflexivity].
    + left. split; [assumption|].
      destruct (String.eqb_spec (path_name img) "") as [E|_]; [|reflexivity].
      destruct Hb as [Hb _]. contradiction.
  - intros Hfu Hd. rewrite Hfu; simpl. unfold or_empty_dict. rewrite Hd. reflexivity.
Qed.

Lemma task_key_resolution_witness :
  task_key (JObj [("file_upload", JStr "3f2a-img1.jpg");
                  ("data", JObj [("image", JStr "/data/upload/3f2a-img1.jpg")])])
  = Ok "3f2a-img1.jpg"
  /\ task_key (JObj [("data", JObj [("image", JStr "/data/upload/img2.jpg")])])
     = Ok "img2.jpg"
  /\ task_key (JObj [("data", JObj [("image", JStr "/")])]) = Ok "/"
  /\ task_key (JObj [("id", JInt 5)]) = Ok "".
Proof.
  split; [|split; [|split]].
  - apply (task_key_resolution
             [("file_upload", JStr "3f2a-img1.jpg");
              ("data", JObj [("image", JStr "/data/upload/3f2a-img1.jpg")])]);
      [reflexivity | discriminate].
  - destruct (task_key_resolution [("data", JObj [("image", JStr "/data/upload/img2.jpg")])])
      as (_ & _ & H & _).
    destruct (H [("image", JStr "/data/upload/img2.jpg")] "/data/upload/img2.jpg"
                eq_refl eq_refl eq_refl) as [[_ E]|[_ E]]; [exact E | reflexivity].
  - destruct (task_key_resolution [("data", JObj [("image", JStr "/")])]) as (_ & _ & H & _).
    destruct (H [("image", JStr "/")] "/" eq_refl eq_refl eq_refl) as [[_ E]|[_ E]];
      [reflexivity | exact E].
  - apply (task_key_resolution [("id", JInt 5)]); reflexivity.
Defined.

(** ** Triples *)

Lemma hoare_ret {S A} (P : S -> Prop) (a : A) Q E :
  (forall h, P h -> Q a h) -> hoare P (ret a) Q E.
Proof. intros H h Hh. simpl. auto. Qed.

Lemma hoare_raise {S A} (P : S -> Prop) e (Q : A -> S -> Prop) (E : S -> Prop) :
  (forall h, P h -> E h) -> hoare P (raise e) Q E.
Proof. intros H h Hh. simpl. auto. Qed.

Lemma hoare_bind {S A B} (P : S -> Prop) (m : ST S A) (k : A -> ST S B) Q R E :
  hoare P m Q E -> (forall a, hoare (Q a) (k a) R E) -> hoare P (bind m k) R E.
Proof.
  intros Hm Hk h Hh. unfold bind. specialize (Hm h Hh).
  destruct (m h) as [[a|e] h1]; [|assumption]. apply Hk. assumption.
Qed.

Lemma hoare_look {S A} (P : S -> Prop) (f : S -> result A) (Q : A -> S -> Prop) E :
  (forall h a, P h -> f h = Ok a -> Q a h) -> (forall h, P h -> E h) ->
  hoare P (look f) Q E.
Proof.
  intros HQ HE h Hh. unfold look. destruct (f h) eqn:Ef; [apply HQ | apply HE]; auto.
Qed.

Lemma hoare_weaken {S A} (P P' : S -> Prop) (m : ST S A) (Q Q' : A -> S -> Prop) E E' :
  hoare P m Q E -> (forall h, P' h -> P h) -> (forall a h, Q a h -> Q' a h) ->
  (forall h, E h -> E' h) -> hoare P' m Q' E'.
Proof.
  intros Hm HP HQ HE h Hh. specialize (Hm h (HP h Hh)).
  destruct (m h) as [[a|e] h1]; auto.
Qed.

Lemma hoare_each {S A} (I : S -> Prop) (f : A -> ST S unit) (l : list A) (G : A -> Prop) :
  (forall x, G x -> hoare I (f x) (fun _ => I) I) -> Forall G l ->
  hoare I (st_each f l) (fun _ => I) I.
Proof.
  intros Hf Hl. induction Hl as [|x l' Hx Hl' IH]; simpl.
  - apply hoare_ret. auto.
  - eapply hoare_bind; [apply Hf; exact Hx|]. intros u. exact IH.
Qed.

(** ** The store only grows *)

Lemma val_fresh_le b b' v : (b' <= b)%nat -> val_fresh b v -> val_fresh b' v.
Proof. destruct v; simpl; auto. lia. Qed.

Lemma obj_fresh_le b b' o : (b' <= b)%nat -> obj_fresh b o -> obj_fresh b' o.
Proof.
  intros Hle. unfold obj_fresh. apply List.Forall_impl. intros v. apply val_fresh_le; assumption.
Qed.

Lemma grown_refl h : grown_from h h.
Proof. exists []. split; [symmetry; apply app_nil_r | constructor]. Qed.

Lemma grown_length h0 h : grown_from h0 h -> (length h0 <= length h)%nat.
Proof. intros (ext & -> & _). rewrite length_app. lia. Qed.

Lemma grown_alloc h0 h o :
  grown_from h0 h -> obj_fresh (length h0) o -> grown_from h0 (h ++ [o]).
Proof.
  intros (ext & -> & Hext) Ho. exists (ext ++ [o]). split.
  - rewrite <- List.app_assoc. reflexivity.
  - apply Forall_app; split; [assumption | constructor; [assumption | constructor]].
Qed.

Lemma grown_lookup h0 h l o :
  grown_from h0 h -> (length h0 <= l)%nat -> h !! l = Some o -> obj_fresh (length h0) o.
Proof.
  intros (ext & -> & Hext) Hl Ho.
  rewrite lookup_app_r in Ho by assumption.
  rewrite Forall_lookup in Hext. eapply Hext; eassumption.
Qed.

Lemma grown_store h0 h l o :
  grown_from h0 h -> (length h0 <= l)%nat -> obj_fresh (length h0) o ->
  grown_from h0 (<[l := o]> h).
Proof.
  intros (ext & -> & Hext) Hl Ho.
  exists (<[(l - length h0)%nat := o]> ext). split.
  - apply insert_app_r_alt. assumption.
  - apply Forall_insert; assumption.
Qed.

Lemma grown_trans h0 h1 h2 : grown_from h0 h1 -> grown_from h1 h2 -> grown_from h0 h2.
Proof.
  intros H1 (ext2 & -> & Hext2). pose proof (grown_length _ _ H1) as Hle.
  destruct H1 as (ext1 & -> & Hext1).
  exists (ext1 ++ ext2). split; [rewrite <- List.app_assoc; reflexivity|].
  apply Forall_app; split; [assumption|].
  eapply List.Forall_impl; [|exact Hext2]. intros o. apply obj_fresh_le. exact Hle.
Qed.

Lemma loads_arr l h :
  loads (JArr l) h
  = let '(vs, h1) := loads_items l h in (VRef (length h1), h1 ++ [OList vs]).
Proof.
  assert (E : forall l h,
             (fix items (l : list json) (h : heap) : list val * heap :=
                match l with
                | [] => ([], h)
                | x :: r =>
                    let '(v, h1) := loads x h in
                    let '(vs, h2) := items r h1 in
                    (v :: vs, h2)
                end) l h = loads_items l h).
  { clear. induction l as [|x l IH]; intros h; simpl; [reflexivity|].
    destruct (loads x h) as [v h1]. rewrite IH. reflexivity. }
  simpl. rewrite E. reflexivity.
Qed.

Lemma loads_obj f h :
  loads (JObj f) h
  = let '(kvs, h1) := loads_fields f h in (VRef (length h1), h1 ++ [ODict kvs]).
Proof.
  assert (E : forall f h,
             (fix fields (f : list (string * json)) (h : heap)
                : list (string * val) * heap :=
                match f with
                | [] => ([], h)
                | (k, x) :: r =>
                    let '(v, h1) := loads x h in
                    let '(kvs, h2) := fields r h1 in
                    ((k, v) :: kvs, h2)
                end) f h = loads_fields f h).
  { clear. induction f as [|[k x] f IH]; intros h; simpl; [reflexivity|].
    destruct (loads x h) as [v h1]. rewrite IH. reflexivity. }
  simpl. rewrite E. reflexivity.
Qed.

(** What [loads] adds refers to what it adds only. *)
Lemma loads_grown j : forall h v h',
  loads j h = (v, h') -> grown_from h h' /\ val_fresh (length h) v.
Proof.
  induction j as [| | | | |l IH|f IH] using json_ind2; intros h v h' H;
    try (injection H as <- <-; split; [apply grown_refl | exact I]).
  - rewrite loads_arr in H.
    assert (Hitems : forall h vs h1, loads_items l h = (vs, h1) ->
              grown_from h h1 /\ Forall (val_fresh (length h)) vs).
    { clear H. induction IH as [|x l' Hx Hl' IHl]; intros h0 vs h1 H; simpl in H.
      - injection H as <- <-. split; [apply grown_refl | constructor].
      - destruct (loads x h0) as [v1 h2] eqn:E1.
        destruct (loads_items l' h2) as [vs2 h3] eqn:E2. injection H as <- <-.
        destruct (Hx _ _ _ E1) as [G1 F1]. destruct (IHl _ _ _ E2) as [G2 F2].
        split; [eapply grown_trans; eassumption|].
        constructor; [assumption|].
        eapply List.Forall_impl; [|exact F2]. intros w.
        apply val_fresh_le. apply grown_length; assumption. }
    destruct (loads_items l h) as [vs h1] eqn:E. injection H as <- <-.
    destruct (Hitems _ _ _ E) as [G F]. split.
    + apply grown_alloc; assumption.
    + simpl. apply grown_length; assumption.
  - rewrite loads_obj in H.
    assert (Hfields : forall h kvs h1, loads_fields f h = (kvs, h1) ->
              grown_from h h1 /\ Forall (val_fresh (length h)) (map snd kvs)).
    { clear H. induction IH as [|[k x] f' Hx Hf' IHf]; intros h0 kvs h1 H; simpl in H.
      - injection H as <- <-. split; [apply grown_refl | constructor].
      - destruct (loads x h0) as [v1 h2] eqn:E1.
        destruct (loads_fields f' h2) as [kvs2 h3] eqn:E2. injection H as <- <-.
        destruct (Hx _ _ _ E1) as [G1 F1]. destruct (IHf _ _ _ E2) as [G2 F2].
        split; [eapply grown_trans; eassumption|].
        simpl. constructor; [assumption|].
        eapply List.Forall_impl; [|exact F2]. intros w.
        apply val_fresh_le. apply grown_length; assumption. }
    destruct (loads_fields f h) as [kvs h1] eqn:E. injection H as <- <-.
    destruct (Hfields _ _ _ E) as [G F]. split.
    + apply grown_alloc; assumption.
    + simpl. apply grown_length; assumption.
Qed.

Lemma hoare_bind_pure {S A B} (P I : S -> Prop) (F : A -> Prop) (m : ST S A)
  (k : A -> ST S B) R E :
  hoare P m (fun a h => I h /\ F a) E -> (forall a, F a -> hoare I (k a) R E) ->
  hoare P (bind m k) R E.
Proof.
  intros Hm Hk. eapply hoare_bind; [exact Hm|]. intros a h [Hh Ha]. apply Hk; assumption.
Qed.

Lemma hoare_look_pure {S A} (I : S -> Prop) (f : S -> result A) (F : A -> Prop) :
  (forall h a, I h -> f h = Ok a -> F a) -> hoare I (look f) (fun a h => I h /\ F a) I.
Proof. intros H. apply hoare_look; [|auto]. intros h a Hh Hf. split; eauto. Qed.

Lemma hoare_unit {S A} (I : S -> Prop) (m : ST S A) :
  hoare I m (fun _ => I) I -> hoare I m (fun a h => I h /\ True) I.
Proof.
  intros Hm h Hh. specialize (Hm h Hh). destruct (m h) as [[a|e] h']; auto.
Qed.

Section Frame.
Variable h0 : heap.

Let I : heap -> Prop := grown_from h0.
Let fresh : val -> Prop := val_fresh (length h0).

Lemma h_get_fresh h v k o x :
  I h -> fresh v -> h_get h v k = Ok o -> o = Some x -> fresh x.
Proof.
  intros Hh Hv Hg ->. destruct v as [| | | | |l]; try discriminate. simpl in Hg.
  destruct (h !! l) as [[vs|kvs]|] eqn:El; try discriminate. injection Hg as Hg.
  pose proof (grown_lookup _ _ _ _ Hh Hv El) as Ho. unfold obj_fresh in Ho; simpl in Ho.
  rewrite List.Forall_forall in Ho. apply Ho.
  apply dict_get_In in Hg. apply in_map_iff. exists (k, x); auto.
Qed.

Lemma h_get_default_fresh h v k o d :
  I h -> fresh v -> fresh d -> h_get h v k = Ok o -> fresh (default d o).
Proof.
  intros Hh Hv Hd Hg. destruct o as [x|]; [|exact Hd].
  exact (h_get_fresh h v k (Some x) x Hh Hv Hg eq_refl).
Qed.

Lemma h_iter_fresh h v vs : I h -> fresh v -> h_iter h v = Ok vs -> Forall fresh vs.
Proof.
  intros Hh Hv Hi. destruct v as [| | | |s|l]; try discriminate; simpl in Hi.
  - injection Hi as <-. apply List.Forall_forall. intros x Hx.
    apply in_map_iff in Hx. destruct Hx as (c & <- & _). exact Logic.I.
  - destruct (h !! l) as [[ws|kvs]|] eqn:El; try discriminate; injection Hi as <-.
    + exact (grown_lookup _ _ _ _ Hh Hv El).
    + apply List.Forall_forall. intros x Hx.
      apply in_map_iff in Hx. destruct Hx as (c & <- & _). exact Logic.I.
Qed.

Lemma h_items_or_empty_fresh h o vs :
  I h -> (forall x, o = Some x -> fresh x) -> h_items_or_empty h o = Ok vs -> Forall fresh vs.
Proof.
  intros Hh Ho Hi. destruct o as [x|]; simpl in Hi.
  - destruct (h_truthy h x).
    + eapply h_iter_fresh; eauto.
    + injection Hi as <-. constructor.
  - injection Hi as <-. constructor.
Qed.

Lemma dict_set_vals {A} (P : A -> Prop) (d : list (string * A)) k x :
  Forall P (map snd d) -> P x -> Forall P (map snd (dict_set d k x)).
Proof.
  intros Hd Hx. induction d as [|[k' v'] d IH]; simpl.
  - constructor; [assumption | constructor].
  - simpl in Hd. apply Forall_cons in Hd. destruct Hd as [Hv Hd].
    destruct (String.eqb k k'); simpl; constructor; auto.
Qed.

Lemma hoare_setitem v k x :
  fresh v -> fresh x -> hoare I (h_setitem v k x) (fun _ => I) I.
Proof.
  intros Hv Hx h Hh. unfold h_setitem.
  destruct v as [| | | | |l]; try exact Hh.
  destruct (h !! l) as [[vs|kvs]|] eqn:El; try exact Hh.
  apply grown_store; try assumption.
  pose proof (grown_lookup _ _ _ _ Hh Hv El) as Ho.
  unfold obj_fresh in *; simpl in *. apply dict_set_vals; assumption.
Qed.

Lemma hoare_loads j : hoare I (json_loads j) (fun v h => I h /\ fresh v) I.
Proof.
  intros h Hh. unfold json_loads. destruct (loads j h) as [v h'] eqn:E.
  apply loads_grown in E. destruct E as [G F]. split.
  - eapply grown_trans; eassumption.
  - eapply val_fresh_le; [|exact F]. apply grown_length; assumption.
Qed.

Lemma hoare_alloc o :
  obj_fresh (length h0) o -> hoare I (alloc o) (fun v h => I h /\ fresh v) I.
Proof.
  intros Ho h Hh. unfold alloc. split.
  - apply grown_alloc; assumption.
  - simpl. apply grown_length; assumption.
Qed.

Lemma hoare_fix_result c r :
  fresh c -> fresh r -> hoare I (h_fix_result c r) (fun _ => I) I.
Proof.
  intros Hc Hr. unfold h_fix_result.
  eapply hoare_bind_pure with (F := fun i => fresh (default VNone i)).
  { apply hoare_look_pure. intros h o Hh Hg.
    eapply h_get_default_fresh; eauto. exact Logic.I. }
  intros i Hi.
  eapply hoare_bind_pure with (F := fun _ => True).
  { apply hoare_look_pure. auto. }
  intros [|] _.
  - apply hoare_setitem; assumption.
  - eapply hoare_bind_pure with (F := fun _ => True); [apply hoare_look_pure; auto|].
    intros n _.
    eapply hoare_bind_pure with (F := fun _ => True); [apply hoare_look_pure; auto|].
    intros s _. apply hoare_setitem; [assumption | exact Logic.I].
Qed.

Lemma hoare_renumber n ann : hoare I (h_renumber n ann) (fun c h => I h /\ fresh c) I.
Proof.
  unfold h_renumber.
  eapply hoare_bind_pure with (F := fun _ => True); [apply hoare_look_pure; auto|].
  intros j _.
  eapply hoare_bind_pure with (F := fresh); [apply hoare_loads|]. intros c Hc.
  eapply hoare_bind_pure with (F := fun _ => True).
  { apply hoare_unit. apply hoare_setitem; [assumption | exact Logic.I]. }
  intros u _.
  eapply hoare_bind_pure with (F := fun o => forall x, o = Some x -> fresh x).
  { apply hoare_look_pure. intros h o Hh Hg x Hx. eapply h_get_fresh; eauto. }
  intros res Hres.
  eapply hoare_bind_pure with (F := Forall fresh).
  { apply hoare_look_pure. intros h vs Hh Hi. eapply h_items_or_empty_fresh; eauto. }
  intros rs Hrs.
  eapply hoare_bind_pure with (F := fun _ => True).
  { apply hoare_unit. apply (hoare_each I (h_fix_result c) rs fresh); [|assumption].
    intros r Hr. apply hoare_fix_result; assumption. }
  intros u' _. apply hoare_ret. auto.
Qed.

Lemma hoare_renumber_from anns : forall n,
  hoare I (h_renumber_from n anns) (fun cs h => I h /\ Forall fresh cs) I.
Proof.
  induction anns as [|a anns IH]; intros n; simpl.
  - apply hoare_ret. intros h Hh. split; [assumption | constructor].
  - eapply hoare_bind_pure with (F := fresh); [apply hoare_renumber|]. intros c Hc.
    eapply hoare_bind_pure with (F := Forall fresh); [apply IH|]. intros cs Hcs.
    apply hoare_ret. intros h Hh. split; [assumption | constructor; assumption].
Qed.

Lemma hoare_merge_group tasks :
  hoare I (h_merge_group tasks) (fun m h => I h /\ fresh m) I.
Proof.
  unfold h_merge_group.
  eapply hoare_bind_pure with (F := fun _ => True); [apply hoare_look_pure; auto|].
  intros keyed _. destruct (sorted_desc keyed) as [|[n0 first] rest].
  { apply hoare_raise. auto. }
  eapply hoare_bind_pure with (F := fun _ => True); [apply hoare_look_pure; auto|].
  intros j _.
  eapply hoare_bind_pure with (F := fresh); [apply hoare_loads|]. intros base Hbase.
  eapply hoare_bind_pure with (F := fun _ => True); [apply hoare_look_pure; auto|].
  intros all_anns _.
  eapply hoare_bind_pure with (F := Forall fresh); [apply hoare_renumber_from|].
  intros new_anns Hnew.
  eapply hoare_bind_pure with (F := fresh); [apply hoare_alloc; exact Hnew|].
  intros l Hl.
  eapply hoare_bind_pure with (F := fun _ => True).
  { apply hoare_unit. apply hoare_setitem; assumption. }
  intros u _. apply hoare_ret. auto.
Qed.

Lemma hoare_map_fresh {A} (f : A -> M val) (l : list A) :
  (forall x, hoare I (f x) (fun m h => I h /\ fresh m) I) ->
  hoare I (st_map f l) (fun ms h => I h /\ Forall fresh ms) I.
Proof.
  intros Hf. induction l as [|x l IH]; simpl.
  - apply hoare_ret. intros h Hh. split; [assumption | constructor].
  - eapply hoare_bind_pure with (F := fresh); [apply Hf|]. intros m Hm.
    eapply hoare_bind_pure with (F := Forall fresh); [apply IH|]. intros ms Hms.
    apply hoare_ret. intros h Hh. split; [assumption | constructor; assumption].
Qed.

Lemma hoare_merge_ls_tasks task_lists :
  hoare I (h_merge_ls_tasks task_lists) (fun ms h => I h /\ Forall fresh ms) I.
Proof.
  unfold h_merge_ls_tasks.
  eapply hoare_bind_pure with (F := fun _ => True); [apply hoare_look_pure; auto|].
  intros tls _.
  eapply hoare_bind_pure with (F := fun _ => True); [apply hoare_look_pure; auto|].
  intros bucket _.
  apply hoare_map_fresh. intros kts. apply hoare_merge_group.
Qed.

End Frame.

(** ** Reading the store *)

Lemma rmap_ext_Ok {A B} (f g : A -> result B) l l' :
  (forall x y, In x l -> f x = Ok y -> g x = Ok y) -> rmap f l = Ok l' -> rmap g l = Ok l'.
Proof.
  revert l'. induction l as [|x l IH]; intros l' Hfg H; simpl in *; [assumption|].
  inv_bind H. inv_bind H. injection H as <-.
  rewrite (Hfg x x0 (or_introl eq_refl) Hx0). simpl.
  rewrite (IH x1); [reflexivity | intros; apply Hfg; auto | assumption].
Qed.


(** More fuel reads the same. *)
Lemma dumps_mono h n : forall v j m,
  dumps n h v = Ok j -> (n <= m)%nat -> dumps m h v = Ok j.
Proof.
  induction n as [|n IH]; intros v j m H Hle.
  - destruct v; try (destruct m; exact H). discriminate.
  - destruct v; try (destruct m; exact H).
    destruct m as [|m]; [lia|]. simpl in *.
    destruct (h !! l) as [[vs|kvs]|]; try discriminate.
    + inv_bind H.
      assert (E : rmap (dumps m h) vs = Ok x).
      { eapply rmap_ext_Ok; [|exact Hx]. intros v y _ Hy. apply (IH _ _ m Hy). lia. }
      rewrite E. exact H.
    + inv_bind H.
      assert (E : rmap (fun kv => do j <- dumps m h (snd kv); Ok (fst kv, j)) kvs = Ok x).
      { eapply rmap_ext_Ok; [|exact Hx]. intros kv y _ Hy. simpl in Hy. inv_bind Hy.
        rewrite (IH _ _ m Hx0) by lia. exact Hy. }
      rewrite E. exact H.
Qed.

(** New objects after the store do not change what is read. *)
Lemma dumps_app h ext n : forall v j,
  dumps n h v = Ok j -> dumps n (h ++ ext) v = Ok j.
Proof.
  induction n as [|n IH]; intros v j H.
  - destruct v; exact H.
  - destruct v; try exact H. simpl in *.
    destruct (h !! l) as [o|] eqn:El; [|discriminate].
    rewrite (lookup_app_l_Some _ _ _ _ El).
    destruct o as [vs|kvs].
    + inv_bind H.
      assert (E : rmap (dumps n (h ++ ext)) vs = Ok x).
      { eapply rmap_ext_Ok; [|exact Hx]. intros v y _ Hy. apply (IH _ _ Hy). }
      rewrite E. exact H.
    + inv_bind H.
      assert (E : rmap (fun kv => do j <- dumps n (h ++ ext) (snd kv); Ok (fst kv, j)) kvs
                  = Ok x).
      { eapply rmap_ext_Ok; [|exact Hx]. intros kv y _ Hy. simpl in Hy. inv_bind Hy.
        rewrite (IH _ _ Hx0). exact Hy. }
      rewrite E. exact H.
Qed.

Lemma json_dumps_app h ext v j : json_dumps h v = Ok j -> json_dumps (h ++ ext) v = Ok j.
Proof.
  unfold json_dumps. intros H. apply dumps_app.
  eapply dumps_mono; [exact H|]. rewrite length_app. lia.
Qed.












(** ** Running a computation step by step *)

Lemma bind_Ok_inv {S A B} (m : ST S A) (k : A -> ST S B) h b h' :
  bind m k h = (Ok b, h') -> exists a h1, m h = (Ok a, h1) /\ k a h1 = (Ok b, h').
Proof.
  unfold bind. destruct (m h) as [[a|e] h1]; [eauto | discriminate].
Qed.

Lemma look_Ok_inv {S A} (f : S -> result A) h a h1 :
  look f h = (Ok a, h1) -> f h = Ok a /\ h1 = h.
Proof. unfold look. intros [= -> ->]. auto. Qed.


(** ** Fields of a dictionary, read through the store *)





(** * The claims about the store *)

(** C10. Whatever the input and however the merge ends, the store it
    started from is still there unchanged when it ends: every object of
    the input is at its place with its content, every value read from the
    input reads the same, and the merged tasks returned are new objects.
    All writes of the merge go to the copies. *)
Theorem merge_leaves_inputs_unchanged (task_lists : list val) (h0 : heap) r h1 :
  h_merge_ls_tasks task_lists h0 = (r, h1) ->
  (exists ext, h1 = h0 ++ ext)
  /\ (forall l o, h0 !! l = Some o -> h1 !! l = Some o)
  /\ (forall v j, json_dumps h0 v = Ok j -> json_dumps h1 v = Ok j)
  /\ (forall ms, r = Ok ms -> Forall (val_fresh (length h0)) ms).
Proof.
  intros H. pose proof (hoare_merge_ls_tasks h0 task_lists h0 (grown_refl h0)) as Hh.
  rewrite H in Hh.
  assert (G : grown_from h0 h1) by (destruct r; [apply Hh | exact Hh]).
  destruct G as (ext & -> & _).
  split; [eauto|]. split; [|split].
  - intros l o Hl. apply lookup_app_l_Some. exact Hl.
  - intros v j Hv. apply json_dumps_app. exact Hv.
  - intros ms ->. apply Hh.
Qed.

Lemma merge_leaves_inputs_unchanged_witness :
  exists r h1,
    h_merge_ls_tasks (fst sample_store) (snd sample_store) = (r, h1)
    /\ (exists ext, h1 = snd sample_store ++ ext)
    /\ json_dumps h1 (nth 1 (fst sample_store) VNone) = Ok (JArr contributor_b).
Proof.
  destruct (h_merge_ls_tasks (fst sample_store) (snd sample_store)) as [r h1] eqn:E.
  exists r, h1. split; [reflexivity|].
  destruct (merge_leaves_inputs_unchanged _ _ _ _ E) as (Hext & _ & Hread & _).
  split; [exact Hext|]. apply Hread. vm_compute. reflexivity.
Defined.





(** ** Files: paths and the listing *)

Lemma path_eqb_eq p q : path_eqb p q = true <-> p = q.
Proof.
  revert q; induction p as [|a p IH]; intros [|b q]; simpl; split;
    try discriminate; try reflexivity.
  - intros H. apply andb_true_iff in H. destruct H as [E H].
    apply String.eqb_eq in E. apply IH in H. congruence.
  - intros [= -> ->]. rewrite String.eqb_refl. apply IH. reflexivity.
Qed.

Lemma path_eqb_refl p : path_eqb p p = true.
Proof. apply path_eqb_eq. reflexivity. Qed.


Lemma is_prefix_spec root p : is_prefix root p = true <-> exists l, p = root ++ l.
Proof.
  revert p; induction root as [|a root IH]; intros p; simpl.
  - split; [intros _; exists p; reflexivity | reflexivity].
  - destruct p as [|b p]; [split; [discriminate | intros [l [=]]]|].
    rewrite andb_true_iff, String.eqb_eq, IH. split.
    + intros [-> [l ->]]. exists l. reflexivity.
    + intros [l [= -> ->]]. split; [reflexivity | exists l; reflexivity].
Qed.

Lemma is_prefix_app root l : is_prefix root (root ++ l) = true.
Proof. apply is_prefix_spec. exists l. reflexivity. Qed.

Lemma is_prefix_refl p : is_prefix p p = true.
Proof. apply is_prefix_spec. exists []. rewrite app_nil_r. reflexivity. Qed.

Lemma fs_find_app fs q n p :
  fs_find (fs ++ [(q, n)]) p
  = match fs_find fs p with
    | Some x => Some x
    | None => if path_eqb p q then Some n else None
    end.
Proof.
  induction fs as [|[q' n'] fs IH]; simpl; [reflexivity|].
  destruct (path_eqb p q'); [reflexivity | exact IH].
Qed.

Lemma fs_find_set fs q n p :
  fs_find (fs_set fs q n) p = if path_eqb p q then Some n else fs_find fs p.
Proof.
  induction fs as [|[q' n'] fs IH]; simpl; [reflexivity|].
  destruct (path_eqb q q') eqn:E; simpl.
  - apply path_eqb_eq in E; subst q'. destruct (path_eqb p q); reflexivity.
  - destruct (path_eqb p q') eqn:E'; [|exact IH].
    apply path_eqb_eq in E'; subst q'.
    destruct (path_eqb p q) eqn:E''; [|reflexivity].
    apply path_eqb_eq in E''; subst q. rewrite path_eqb_refl in E. discriminate.
Qed.

Lemma fs_find_remove_tree fs root p :
  fs_find (fs_remove_tree fs root) p = if is_prefix root p then None else fs_find fs p.
Proof.
  unfold fs_remove_tree. induction fs as [|[q n] fs IH]; simpl.
  - destruct (is_prefix root p); reflexivity.
  - destruct (is_prefix root q) eqn:Eq; simpl.
    + rewrite IH. destruct (is_prefix root p) eqn:Ep; [reflexivity|].
      destruct (path_eqb p q) eqn:E; [|reflexivity].
      apply path_eqb_eq in E; subst q. congruence.
    + destruct (path_eqb p q) eqn:E; [|exact IH].
      apply path_eqb_eq in E; subst q. rewrite Eq. reflexivity.
Qed.

Lemma fs_lookup_app fs q n p :
  fs_lookup fs q = None ->
  fs_lookup (fs ++ [(q, n)]) p = if path_eqb p q then Some n else fs_lookup fs p.
Proof.
  intros Hq. destruct p as [|a p].
  - destruct q; [discriminate | reflexivity].
  - unfold fs_lookup. rewrite fs_find_app.
    destruct (path_eqb (a :: p) q) eqn:E.
    + apply path_eqb_eq in E; subst q. simpl in Hq. rewrite Hq. reflexivity.
    + destruct (fs_find fs (a :: p)); reflexivity.
Qed.

Lemma fs_lookup_set fs q n p :
  q <> [] ->
  fs_lookup (fs_set fs q n) p = if path_eqb p q then Some n else fs_lookup fs p.
Proof.
  intros Hq. destruct p as [|a p].
  - destruct q; [contradiction | reflexivity].
  - unfold fs_lookup. apply fs_find_set.
Qed.

Lemma fs_lookup_remove_tree fs root p :
  root <> [] ->
  fs_lookup (fs_remove_tree fs root) p = if is_prefix root p then None else fs_lookup fs p.
Proof.
  intros Hr. destruct p as [|a p].
  - destruct root; [contradiction | reflexivity].
  - unfold fs_lookup. apply fs_find_remove_tree.
Qed.

Lemma fs_lookup_nil_ne fs p : fs_lookup fs p = None -> p <> [].
Proof. intros H ->. discriminate. Qed.

Lemma fs_is_dir_lookup fs p : fs_is_dir fs p = true <-> fs_lookup fs p = Some Dir.
Proof.
  unfold fs_is_dir. destruct (fs_lookup fs p) as [[|c]|]; split; congruence.
Qed.

(** *** How a file system evolves *)

Lemma evolves_refl W fs : evolves W fs fs.
Proof. intros p. split; auto. Qed.

Lemma evolves_trans W fs1 fs2 fs3 :
  evolves W fs1 fs2 -> evolves W fs2 fs3 -> evolves W fs1 fs3.
Proof.
  intros H12 H23 p. destruct (H12 p) as [D1 F1]. destruct (H23 p) as [D2 F2]. split.
  - auto.
  - intros Hp. rewrite F2, F1; auto.
Qed.

Lemma evolves_append W fs q n :
  fs_lookup fs q = None -> W q = true -> evolves W fs (fs ++ [(q, n)]).
Proof.
  intros Hq HW p. rewrite fs_is_dir_lookup, fs_is_dir_lookup, fs_lookup_app by assumption.
  destruct (path_eqb p q) eqn:E.
  - apply path_eqb_eq in E; subst q. split; congruence.
  - split; auto.
Qed.

Lemma evolves_set_file W fs q c :
  fs_is_dir fs q = false -> q <> [] -> W q = true -> evolves W fs (fs_set fs q (File c)).
Proof.
  intros Hq Hne HW p. rewrite fs_is_dir_lookup, fs_is_dir_lookup, fs_lookup_set by assumption.
  destruct (path_eqb p q) eqn:E.
  - apply path_eqb_eq in E; subst q. split; [|congruence].
    intros Hd. apply fs_is_dir_lookup in Hd. congruence.
  - split; auto.
Qed.

Section Evolves.

Variable W : path -> bool.
Variable fs0 : filesystem.

Let I (fs : filesystem) : Prop := evolves W fs0 fs.

Lemma evolves_step fs fs' : I fs -> evolves W fs fs' -> I fs'.
Proof. intros H H'. eapply evolves_trans; eassumption. Qed.

Lemma hoare_ensure_dir b q : W q = true -> hoare I (ensure_dir b q) (fun _ => I) I.
Proof.
  intros HW fs Hfs. unfold ensure_dir.
  destruct (fs_lookup fs q) as [[|c]|] eqn:E; try exact Hfs.
  eapply evolves_step; [exact Hfs|]. apply evolves_append; assumption.
Qed.

Lemma hoare_os_mkdir q : W q = true -> hoare I (os_mkdir q) (fun _ => I) I.
Proof.
  intros HW fs Hfs. unfold os_mkdir.
  destruct (fs_lookup fs q) as [n|] eqn:E; [exact Hfs|].
  destruct (fs_lookup fs (parent q)) as [[|c]|]; try exact Hfs.
  eapply evolves_step; [exact Hfs|]. apply evolves_append; assumption.
Qed.

Lemma hoare_write_file q c : W q = true -> hoare I (write_file q c) (fun _ => I) I.
Proof.
  intros HW fs Hfs. unfold write_file.
  destruct (fs_lookup fs q) as [[|c']|] eqn:E; [exact Hfs| |].
  - eapply evolves_step; [exact Hfs|]. apply evolves_set_file; try assumption.
    + unfold fs_is_dir. rewrite E. reflexivity.
    + intros ->. discriminate.
  - destruct (fs_lookup fs (parent q)) as [[|c']|]; try exact Hfs.
    eapply evolves_step; [exact Hfs|]. apply evolves_set_file; try assumption.
    + unfold fs_is_dir. rewrite E. reflexivity.
    + intros ->. discriminate.
Qed.

Lemma hoare_read {A} (f : filesystem -> result A) : hoare I (look f) (fun _ => I) I.
Proof. apply hoare_look; auto. Qed.

Lemma hoare_read_file p : hoare I (read_file p) (fun _ => I) I.
Proof. apply hoare_read. Qed.

Lemma hoare_copy2 src dst :
  W dst = true -> W (dst ++ [name src]) = true -> hoare I (copy2 src dst) (fun _ => I) I.
Proof.
  intros H1 H2. unfold copy2.
  eapply hoare_bind; [apply hoare_read|]. intros into.
  eapply hoare_bind; [apply hoare_read_file|]. intros c.
  destruct (path_eqb src _); [apply hoare_raise; auto|].
  apply hoare_write_file. destruct into; assumption.
Qed.

Lemma hoare_fold {A B} (f : A -> B -> IO B) (l : list A) (G : A -> Prop) :
  (forall x b, G x -> hoare I (f x b) (fun _ => I) I) -> Forall G l ->
  forall b, hoare I (st_fold f l b) (fun _ => I) I.
Proof.
  intros Hf Hl. induction Hl as [|x l' Hx Hl' IH]; intros b; simpl.
  - apply hoare_ret. auto.
  - eapply hoare_bind; [apply Hf; exact Hx|]. intros b'. apply IH.
Qed.

Lemma hoare_map {A B} (f : A -> IO B) (l : list A) :
  (forall x, hoare I (f x) (fun _ => I) I) -> hoare I (st_map f l) (fun _ => I) I.
Proof.
  intros Hf. induction l as [|x l IH]; simpl.
  - apply hoare_ret. auto.
  - eapply hoare_bind; [apply Hf|]. intros y.
    eapply hoare_bind; [exact IH|]. intros ys. apply hoare_ret. auto.
Qed.

(** The directories [mkdir_p] and [makedirs] may make. *)
Lemma ancestors_prefix p q : In q (ancestors p) -> exists l, p = q ++ l /\ q <> [].
Proof.
  unfold ancestors. intros H. apply in_map_iff in H. destruct H as (n & <- & Hn).
  apply in_seq in Hn. exists (skipn n p). split.
  - symmetry. apply firstn_skipn.
  - destruct p as [|a p]; [simpl in Hn; lia|].
    destruct n as [|n]; [lia | discriminate].
Qed.

Lemma hoare_ancestors p :
  (forall q l, p = q ++ l -> q <> [] -> W q = true) ->
  hoare I (st_each (ensure_dir false) (ancestors p)) (fun _ => I) I.
Proof.
  intros HW. apply hoare_each with (G := fun q => W q = true).
  - intros q Hq. apply hoare_ensure_dir. exact Hq.
  - apply List.Forall_forall. intros q Hq.
    apply ancestors_prefix in Hq. destruct Hq as (l & E & Hne). eapply HW; eassumption.
Qed.

Lemma parent_app p : p <> [] -> p = parent p ++ [name p].
Proof. intros H. apply app_removelast_last. assumption. Qed.

Lemma hoare_mkdir_p p :
  (forall q l, p = q ++ l -> q <> [] -> W q = true) -> hoare I (mkdir_p p) (fun _ => I) I.
Proof.
  intros HW. unfold mkdir_p. eapply hoare_bind.
  - apply hoare_ancestors. intros q l E Hne.
    destruct p as [|a p]; [destruct q; [contradiction | discriminate]|].
    apply (HW q (l ++ [name (a :: p)])); [|assumption].
    rewrite List.app_assoc, <- E. apply parent_app. discriminate.
  - intros u. destruct p as [|a p]; [apply hoare_ret; auto|].
    apply hoare_ensure_dir. apply (HW (a :: p) []); [|discriminate].
    rewrite app_nil_r. reflexivity.
Qed.

Lemma hoare_makedirs p :
  (forall q l, p = q ++ l -> q <> [] -> W q = true) -> hoare I (makedirs p) (fun _ => I) I.
Proof.
  intros HW. unfold makedirs. eapply hoare_bind.
  - apply hoare_ancestors. intros q l E Hne.
    destruct p as [|a p]; [destruct q; [contradiction | discriminate]|].
    apply (HW q (l ++ [name (a :: p)])); [|assumption].
    rewrite List.app_assoc, <- E. apply parent_app. discriminate.
  - intros u. destruct p as [|a p].
    + intros fs Hfs. exact Hfs.
    + apply hoare_os_mkdir. apply (HW (a :: p) []); [|discriminate].
      rewrite app_nil_r. reflexivity.
Qed.

Lemma hoare_sha1_of_file p : hoare I (sha1_of_file p) (fun _ => I) I.
Proof.
  unfold sha1_of_file. eapply hoare_bind; [apply hoare_read_file|].
  intros c. apply hoare_ret; auto.
Qed.

(** The loop body writes below the output directory only. *)
Lemma hoare_flatten_file dest_dir p st :
  (forall x, W (dest_dir ++ x) = true) ->
  hoare I (flatten_file dest_dir p st) (fun _ => I) I.
Proof.
  intros HW. unfold flatten_file.
  eapply hoare_bind; [apply hoare_read|]. intros cand.
  destruct (negb cand); [apply hoare_ret; auto|].
  eapply hoare_bind; [apply hoare_sha1_of_file|]. intros sha1.
  destruct (dict_get (seen_hash st) sha1); [apply hoare_ret; auto|].
  eapply hoare_bind; [apply hoare_read|]. intros taken.
  eapply hoare_bind.
  { apply hoare_copy2; destruct taken; rewrite <- ?List.app_assoc; apply HW. }
  intros u. apply hoare_ret; auto.
Qed.

End Evolves.

(** ** The working area of the flattener *)

Section Persist.

Variable rglob : filesystem -> path -> list path.
Variable fs0 : filesystem.

Let anywhere : path -> bool := fun _ => true.
Let I (fs : filesystem) : Prop := evolves anywhere fs0 fs.

Lemma persist_extract_member root e : hoare I (extract_member root e) (fun _ => I) I.
Proof.
  unfold extract_member.
  eapply hoare_bind; [apply hoare_read|]. intros up.
  apply hoare_bind with (Q := fun _ => I).
  { destruct up; [apply hoare_ret; auto | apply hoare_makedirs; intros; reflexivity]. }
  intros u. destruct (is_dir_member (fst e)).
  - eapply hoare_bind; [apply hoare_read|]. intros d.
    destruct d; [apply hoare_ret; auto | apply hoare_os_mkdir; reflexivity].
  - apply hoare_write_file; reflexivity.
Qed.

Lemma persist_extractall root zp : hoare I (extractall root zp) (fun _ => I) I.
Proof.
  unfold extractall, open_zip.
  apply hoare_bind with (Q := fun _ => I).
  { eapply hoare_bind; [apply hoare_read_file|]. intros c.
    destruct c; try (apply hoare_raise; auto). apply hoare_ret; auto. }
  intros es. apply hoare_each with (G := fun _ => True).
  - intros e _. apply persist_extract_member.
  - apply List.Forall_forall. auto.
Qed.

Lemma persist_flatten_file dest_dir p st :
  hoare I (flatten_file dest_dir p st) (fun _ => I) I.
Proof. apply hoare_flatten_file. reflexivity. Qed.

Lemma persist_flatten_body zip_paths dest_dir :
  hoare I (flatten_body rglob zip_paths dest_dir) (fun _ => I) I.
Proof.
  unfold flatten_body.
  eapply hoare_bind.
  { apply hoare_each with (G := fun _ => True).
    - intros zp _. apply persist_extractall.
    - apply List.Forall_forall. auto. }
  intros u. eapply hoare_bind; [apply hoare_read|]. intros ps.
  eapply hoare_bind.
  { apply hoare_fold with (G := fun _ => True).
    - intros p st _. apply persist_flatten_file.
    - apply List.Forall_forall. auto. }
  intros st. apply hoare_ret; auto.
Qed.

End Persist.

Lemma ensure_dir_is_dir b q fs fs' :
  ensure_dir b q fs = (Ok tt, fs') -> fs_is_dir fs' q = true.
Proof.
  unfold ensure_dir. destruct (fs_lookup fs q) as [[|c]|] eqn:E; intros [= <-].
  - apply fs_is_dir_lookup. assumption.
  - apply fs_is_dir_lookup. rewrite fs_lookup_app by assumption.
    rewrite path_eqb_refl. reflexivity.
Qed.

Lemma mkdir_p_is_dir p fs fs' : mkdir_p p fs = (Ok tt, fs') -> fs_is_dir fs' p = true.
Proof.
  destruct p as [|a p]; [reflexivity|].
  unfold mkdir_p, bind.
  destruct (st_each _ _ fs) as [[u|e] fs1]; [|discriminate].
  apply ensure_dir_is_dir.
Qed.

Lemma tmp_root_not_nil dest_dir : tmp_root_of dest_dir <> [].
Proof. unfold tmp_root_of. destruct (parent dest_dir); discriminate. Qed.

Lemma flatten_prepare_is_dir dest_dir fs fs1 :
  flatten_prepare dest_dir fs = (Ok tt, fs1) -> fs_is_dir fs1 (tmp_root_of dest_dir) = true.
Proof.
  unfold flatten_prepare, bind, look.
  destruct (fs_exists fs dest_dir).
  - destruct (rmtree dest_dir fs) as [[u|e] fs2]; [|discriminate].
    destruct (mkdir_p dest_dir fs2) as [[u'|e] fs3]; [|discriminate].
    apply mkdir_p_is_dir.
  - simpl. destruct (mkdir_p dest_dir fs) as [[u'|e] fs3]; [|discriminate].
    apply mkdir_p_is_dir.
Qed.

Lemma remove_tree_absent fs root : root <> [] -> tree_absent (fs_remove_tree fs root) root.
Proof.
  intros Hne p Hp. rewrite fs_lookup_remove_tree by assumption. rewrite Hp. reflexivity.
Qed.





(** ** One file of the walk *)

#[local] Arguments content_digest : simpl never.

Lemma text_chars s : text (chars s) = s.
Proof. apply String.string_of_list_ascii_of_string. Qed.

Lemma chars_text l : chars (text l) = l.
Proof. apply String.list_ascii_of_string_of_list_ascii. Qed.



Lemma is_candidate_file fs p :
  is_candidate fs p = true -> exists c, fs_lookup fs p = Some (File c).
Proof.
  unfold is_candidate, fs_is_file. intros H.
  destruct (fs_lookup fs p) as [[|c]|]; try discriminate. exists c. reflexivity.
Qed.

Lemma flatten_file_other dest_dir p st fs :
  is_candidate fs p = false -> flatten_file dest_dir p st fs = (Ok st, fs).
Proof. intros H. unfold flatten_file, bind, look. rewrite H. reflexivity. Qed.

Lemma flatten_file_duplicate dest_dir p st fs c n :
  is_candidate fs p = true -> fs_lookup fs p = Some (File c) ->
  dict_get (seen_hash st) (content_digest c) = Some n ->
  flatten_file dest_dir p st fs
  = (Ok {| seen_hash := seen_hash st; written := written st; skipped := S (skipped st) |}, fs).
Proof.
  intros Hc Hp Hs. unfold flatten_file, bind, look, sha1_of_file, read_file, bind, look, ret.
  rewrite Hc. cbn [negb]. cbv beta iota. rewrite Hp. cbv beta iota. rewrite Hs. reflexivity.
Qed.

Lemma name_app d x : name (d ++ [x]) = x.
Proof. unfold name. apply last_last. Qed.

Lemma parent_of_app d x : parent (d ++ [x]) = d.
Proof. unfold parent. apply removelast_last. Qed.

Lemma flatten_file_new dest_dir p st fs c st' fs' :
  is_candidate fs p = true -> fs_lookup fs p = Some (File c) ->
  dict_get (seen_hash st) (content_digest c) = None ->
  flatten_file dest_dir p st fs = (Ok st', fs') ->
  fs' = fs_set fs (target_of fs dest_dir p (content_digest c)) (File c)
  /\ fs_is_dir fs (target_of fs dest_dir p (content_digest c)) = false
  /\ st' = {| seen_hash := dict_set (seen_hash st) (content_digest c)
                             (output_name fs dest_dir (name p) (content_digest c));
              written := S (written st);
              skipped := skipped st |}.
Proof.
  intros Hc Hp Hs Hrun.
  unfold flatten_file, bind, look, sha1_of_file, read_file, bind, look, ret in Hrun.
  rewrite Hc in Hrun. cbn [negb] in Hrun. cbv beta iota in Hrun.
  rewrite Hp in Hrun. cbv beta iota in Hrun.
  rewrite Hs in Hrun. unfold copy2, bind, look, read_file, look in Hrun.
  rewrite Hp in Hrun. unfold target_of, output_name.
  destruct (fs_exists fs (dest_dir ++ [name p])) eqn:Et; rewrite name_app in Hrun;
    match type of Hrun with context [fs_is_dir fs ?d] => destruct (fs_is_dir fs d) eqn:Ed end;
    match type of Hrun with context [path_eqb p ?t] =>
      destruct (path_eqb p t); [discriminate|];
      unfold write_file in Hrun;
      destruct (fs_lookup fs t) as [[|c']|] eqn:El; [discriminate| |];
      [|destruct (fs_lookup fs (parent t)) as [[|c']|]; try discriminate];
      injection Hrun as <- <-;
      (split; [reflexivity|]); (split; [|reflexivity]);
      unfold fs_is_dir; rewrite El; reflexivity
    end.
Qed.



Lemma app_not_nil {A} (d : list A) x : d ++ [x] <> [].
Proof. destruct d; discriminate. Qed.




(** C5 at an input where the code loses an image: the third file is
    renamed to the name the first one has, and is copied over it, so the
    bytes [w] are in no file of the output although 3 files count as
    written. *)
Theorem retained_copy_overwritten :
  fst (extract_and_flatten_zips rglob_listing [["a.zip"]] ["Merger"; "Temp"] renamed_twice)
  = Ok (3, 0)%nat
  /\ files_in (snd (extract_and_flatten_zips rglob_listing [["a.zip"]] ["Merger"; "Temp"]
                      renamed_twice)) ["Merger"; "Temp"]
     = [("cat_a9993e36.png", "abc"); ("cat.png", "x")].
Proof. split; vm_compute; reflexivity. Qed.

(** ** A missing input *)

Lemma is_prefix_app_both m x y : is_prefix (m ++ x) (m ++ y) = is_prefix x y.
Proof.
  induction m as [|a m IH]; simpl; [reflexivity|].
  rewrite String.eqb_refl. exact IH.
Qed.

Lemma is_prefix_longer m a : is_prefix (m ++ [a]) m = false.
Proof.
  destruct (is_prefix (m ++ [a]) m) eqn:E; [|reflexivity].
  apply is_prefix_spec in E. destruct E as [l E].
  apply (f_equal (@length string)) in E. rewrite !length_app in E. simpl in E. lia.
Qed.

Lemma path_eqb_app_both m x y : path_eqb (m ++ x) (m ++ y) = path_eqb x y.
Proof.
  induction m as [|a m IH]; simpl; [reflexivity|].
  rewrite String.eqb_refl. exact IH.
Qed.

Lemma staging_above m q l : m = q ++ l -> staging m q = true.
Proof.
  intros ->. unfold staging. rewrite is_prefix_app. reflexivity.
Qed.

Lemma staging_individuals m l : staging m ((m ++ ["Individuals"]) ++ l) = true.
Proof.
  unfold staging. rewrite is_prefix_app. rewrite orb_true_r. reflexivity.
Qed.

Lemma staging_child m x q l :
  m ++ [x] = q ++ l -> staging m (m ++ [x]) = true -> staging m q = true.
Proof.
  intros E Hx. destruct l as [|b l] using rev_ind.
  - rewrite app_nil_r in E. subst q. exact Hx.
  - rewrite List.app_assoc in E. apply app_inj_tail in E. destruct E as [E _].
    eapply staging_above. exact E.
Qed.

Lemma staging_not_output m x :
  x <> "Individuals" -> x <> "Temp" -> staging m (m ++ [x]) = false.
Proof.
  intros H1 H2. unfold staging.
  rewrite is_prefix_longer, is_prefix_app_both, path_eqb_app_both.
  cbn [is_prefix path_eqb].
  destruct (String.eqb_spec "Individuals" x) as [E|_]; [congruence|].
  destruct (String.eqb_spec x "Temp") as [E|_]; [congruence|]. reflexivity.
Qed.

Section Staging.

Variable merger_dir : path.
Variable fs0 : filesystem.

Let indiv_dir : path := merger_dir ++ ["Individuals"].
Let I (fs : filesystem) : Prop := evolves (staging merger_dir) fs0 fs.

Lemma staging_mkdirs :
  hoare I (st_each mkdir_p [merger_dir; indiv_dir; merger_dir ++ ["Temp"]]) (fun _ => I) I.
Proof.
  apply hoare_each with (G := fun d => forall q l, d = q ++ l -> staging merger_dir q = true).
  - intros d Hd. apply hoare_mkdir_p. intros q l E _. eapply Hd. exact E.
  - repeat constructor.
    + intros q l E. eapply staging_above. exact E.
    + intros q l E. eapply staging_child; [exact E|].
      rewrite <- (app_nil_r (merger_dir ++ ["Individuals"])). apply staging_individuals.
    + intros q l E. eapply staging_child; [exact E|].
      unfold staging. rewrite path_eqb_refl. apply orb_true_r.
Qed.

Lemma staging_copy2 src x : hoare I (copy2 src (indiv_dir ++ [x])) (fun _ => I) I.
Proof.
  apply hoare_copy2.
  - apply staging_individuals.
  - unfold indiv_dir. rewrite <- List.app_assoc. apply staging_individuals.
Qed.

Lemma staging_load_ls_array p : hoare I (load_ls_array p) (fun _ => I) I.
Proof.
  unfold load_ls_array. eapply hoare_bind; [apply hoare_read_file|]. intros c.
  destruct c as [b|j|es]; try (apply hoare_raise; auto).
  destruct j; try (apply hoare_raise; auto). apply hoare_ret; auto.
Qed.

Lemma staging_load_member m acc : hoare I (load_member indiv_dir m acc) (fun _ => I) I.
Proof.
  unfold load_member.
  eapply hoare_bind; [apply hoare_read|]. intros j_there.
  destruct (negb j_there); [apply hoare_raise; auto|].
  eapply hoare_bind; [apply hoare_read|]. intros z_there.
  destruct (negb z_there); [apply hoare_raise; auto|].
  eapply hoare_bind; [apply staging_copy2|]. intros u.
  eapply hoare_bind; [apply staging_copy2|]. intros u'.
  eapply hoare_bind; [apply staging_load_ls_array|]. intros tl.
  apply hoare_ret; auto.
Qed.

Lemma staging_missing fs p :
  I fs -> staging merger_dir p = false -> fs_exists fs0 p = false -> fs_exists fs p = false.
Proof.
  intros Hfs Hp H0. unfold fs_exists in *. destruct (Hfs p) as [_ F].
  rewrite (F Hp). exact H0.
Qed.

(** A contributor with a missing file stops the loop. *)
Lemma load_member_missing m p acc :
  In p (declared_paths m) -> staging merger_dir p = false -> fs_exists fs0 p = false ->
  hoare I (load_member indiv_dir m acc) (fun _ _ => False) I.
Proof.
  intros Hin Hp H0 fs Hfs.
  pose proof (staging_missing fs p Hfs Hp H0) as Hm.
  unfold load_member, bind, look. simpl in Hin. destruct Hin as [<-|[<-|[]]].
  - rewrite Hm. simpl. exact Hfs.
  - destruct (fs_exists fs (Path_of (member_json m))); simpl; [|exact Hfs].
    rewrite Hm. simpl. exact Hfs.
Qed.

Lemma load_members_missing members m p :
  In m members -> In p (declared_paths m) -> staging merger_dir p = false ->
  fs_exists fs0 p = false ->
  forall acc, hoare I (st_fold (load_member indiv_dir) members acc) (fun _ _ => False) I.
Proof.
  intros Hm Hin Hp H0. induction members as [|x members IH]; [destruct Hm|].
  intros acc. simpl. destruct Hm as [->|Hm].
  - apply hoare_bind with (Q := fun _ _ => False).
    + eapply load_member_missing; eassumption.
    + intros b fs [].
  - apply hoare_bind with (Q := fun _ => I).
    + apply staging_load_member.
    + intros b. apply IH. exact Hm.
Qed.

End Staging.

(** C3, as the code has it: when a declared input file is missing, and is
    not a path the run makes itself before it looks, the run raises before
    it merges: the merged task file and the merged archive are as they
    were.  (The directories and the copies of the contributors before the
    missing one may have been written.) *)
Theorem missing_input_aborts rglob members out_dir fs m p :
  In m members ->
  In p (declared_paths m) ->
  fs_exists fs p = false ->
  staging (Path_of out_dir) p = false ->
  exists e fs',
    main rglob members out_dir fs = (Raise e, fs')
    /\ fs_lookup fs' (Path_of out_dir ++ ["merged_input.json"])
       = fs_lookup fs (Path_of out_dir ++ ["merged_input.json"])
    /\ fs_lookup fs' (Path_of out_dir ++ ["merged_images.zip"])
       = fs_lookup fs (Path_of out_dir ++ ["merged_images.zip"]).
Proof.
  intros Hm Hin H0 Hp.
  assert (H : hoare (evolves (staging (Path_of out_dir)) fs) (main rglob members out_dir)
                (fun _ _ => False) (evolves (staging (Path_of out_dir)) fs)).
  { unfold main. destruct (negb _); [apply hoare_raise; auto|].
    apply hoare_bind with (Q := fun _ => evolves (staging (Path_of out_dir)) fs).
    { apply staging_mkdirs. }
    intros u. apply hoare_bind with (Q := fun _ _ => False).
    { eapply load_members_missing; eassumption. }
    intros loaded fs1 []. }
  specialize (H fs (evolves_refl _ fs)).
  destruct (main rglob members out_dir fs) as [[s|e] fs']; [destruct H|].
  exists e, fs'. split; [reflexivity|].
  split; apply H; apply staging_not_output; discriminate.
Qed.

(** C3 as the spec words it fails: the second contributor's files are
    missing, the run raises, and the output directories and the copies of
    the first contributor's files have been written by then. *)
Lemma written_before_missing_input :
  fst (main rglob_listing [alice; bob] "Merger" only_alice) = Raise FileNotFoundError
  /\ fs_exists (snd (main rglob_listing [alice; bob] "Merger" only_alice))
       ["Merger"; "Individuals"; "input_Alice_Smith.json"] = true
  /\ fs_exists only_alice ["Merger"; "Individuals"; "input_Alice_Smith.json"] = false.
Proof. repeat split. Qed.

Lemma missing_input_aborts_witness :
  exists e fs',
    main rglob_listing [alice; bob] "Merger" only_alice = (Raise e, fs')
    /\ fs_lookup fs' ["Merger"; "merged_input.json"] = None
    /\ fs_lookup fs' ["Merger"; "merged_images.zip"] = None.
Proof.
  destruct (missing_input_aborts rglob_listing [alice; bob] "Merger" only_alice bob ["bob.zip"])
    as (e & fs' & Hrun & Hj & Hz).
  - right; left; reflexivity.
  - right; left; reflexivity.
  - reflexivity.
  - reflexivity.
  - exists e, fs'. split; [exact Hrun|]. split; [exact Hj | exact Hz].
Defined.



(** ** The counters of the flattener *)

#[local] Arguments content_digest : simpl never.

Local Open Scope nat_scope.

Lemma dict_get_None_keys {A} (d : list (string * A)) k :
  dict_get d k = None <-> ~ In k (map fst d).
Proof.
  induction d as [|[k' v] d IH]; simpl; [tauto|].
  destruct (String.eqb_spec k k') as [->|Hne].
  - split; [discriminate | intros H; exfalso; apply H; left; reflexivity].
  - rewrite IH. split; [intros H [E|Hin]; [congruence | contradiction] | tauto].
Qed.

Lemma dict_set_new_keys {A} (d : list (string * A)) k v :
  dict_get d k = None -> map fst (dict_set d k v) = map fst d ++ [k].
Proof.
  induction d as [|[k' v'] d IH]; simpl; [reflexivity|].
  destruct (String.eqb k k'); [discriminate|]. intros H. simpl. rewrite IH; auto.
Qed.

Lemma omap_cons {A B} (f : A -> option B) x l :
  omap f (x :: l) = match f x with
                    | Some y => y :: omap f l
                    | None => omap f l
                    end.
Proof. reflexivity. Qed.

Lemma candidates_stable fs fs' ps :
  (forall q, In q ps -> fs_lookup fs' q = fs_lookup fs q) ->
  candidates fs' ps = candidates fs ps /\ digests fs' ps = digests fs ps.
Proof.
  unfold digests, candidates. induction ps as [|p ps IH]; intros H; [split; reflexivity|].
  destruct IH as [IH1 IH2]; [intros q Hq; apply H; right; exact Hq|].
  assert (Hp : fs_lookup fs' p = fs_lookup fs p) by (apply H; left; reflexivity).
  assert (Ec : is_candidate fs' p = is_candidate fs p).
  { unfold is_candidate, fs_is_file. rewrite Hp. reflexivity. }
  assert (Ed : digest_at fs' p = digest_at fs p).
  { unfold digest_at. rewrite Hp. reflexivity. }
  cbn [List.filter]. rewrite Ec. destruct (is_candidate fs p); [|split; assumption].
  rewrite !omap_cons, Ed, IH2, IH1. split; reflexivity.
Qed.

(** What one turn of the loop does to the counters and the digests. *)
Lemma flatten_file_step dest_dir p st fs st' fs' :
  flatten_file dest_dir p st fs = (Ok st', fs') ->
  List.NoDup (map fst (seen_hash st)) ->
  evolves (is_prefix dest_dir) fs fs'
  /\ written st' + skipped st' = written st + skipped st + length (candidates fs [p])
  /\ written st' + length (seen_hash st) = written st + length (seen_hash st')
  /\ List.NoDup (map fst (seen_hash st'))
  /\ (forall d, In d (map fst (seen_hash st'))
                <-> In d (map fst (seen_hash st)) \/ In d (digests fs [p])).
Proof.
  intros Hrun Hnd.
  assert (Hev : evolves (is_prefix dest_dir) fs fs').
  { pose proof (hoare_flatten_file (is_prefix dest_dir) fs dest_dir p st
                  (is_prefix_app dest_dir) fs (evolves_refl _ fs)) as H.
    rewrite Hrun in H. exact H. }
  split; [exact Hev|]. unfold digests, candidates. simpl.
  destruct (is_candidate fs p) eqn:Hc.
  - destruct (is_candidate_file _ _ Hc) as [c Hp].
    assert (Ed : digest_at fs p = Some (content_digest c)).
    { unfold digest_at. rewrite Hp. reflexivity. }
    simpl. rewrite Ed.
    destruct (dict_get (seen_hash st) (content_digest c)) as [n|] eqn:Hs.
    + rewrite (flatten_file_duplicate _ _ _ _ _ _ Hc Hp Hs) in Hrun.
      injection Hrun as <- <-. simpl. repeat split; try lia; try assumption; try tauto.
      intros [H|[<-|[]]]; [exact H|].
      destruct (in_dec String.string_dec (content_digest c) (map fst (seen_hash st)))
        as [Hin|Hin]; [exact Hin|].
      apply dict_get_None_keys in Hin. congruence.
    + destruct (flatten_file_new _ _ _ _ _ _ _ Hc Hp Hs Hrun) as (_ & _ & ->). simpl.
      assert (Ek := dict_set_new_keys (seen_hash st) (content_digest c)
                      (output_name fs dest_dir (name p) (content_digest c)) Hs).
      assert (El : length (dict_set (seen_hash st) (content_digest c)
                             (output_name fs dest_dir (name p) (content_digest c)))
                   = S (length (seen_hash st))).
      { rewrite <- (length_map fst), Ek, length_app, length_map. simpl. lia. }
      rewrite Ek. repeat split; try lia.
      * apply List.NoDup_app; [assumption | constructor; [intros [] | constructor]|].
        intros x Hx [<-|[]]. apply dict_get_None_keys in Hs. contradiction.
      * intros H. apply in_app_or in H. simpl in *. tauto.
      * intros H. apply in_or_app. simpl in *. tauto.
  - rewrite (flatten_file_other _ _ _ _ Hc) in Hrun. injection Hrun as <- <-.
    simpl. repeat split; try lia; try assumption; tauto.
Qed.

Lemma candidates_cons fs p ps : candidates fs (p :: ps) = candidates fs [p] ++ candidates fs ps.
Proof. unfold candidates. simpl. destruct (is_candidate fs p); reflexivity. Qed.

Lemma digests_cons fs p ps : digests fs (p :: ps) = digests fs [p] ++ digests fs ps.
Proof.
  unfold digests. rewrite candidates_cons.
  unfold candidates. simpl. destruct (is_candidate fs p); [|reflexivity].
  simpl. destruct (digest_at fs p); reflexivity.
Qed.

(** The loop: the counters count the candidates, and the digests seen are
    the digests of the candidates, each once. *)
Lemma flatten_loop dest_dir ps : forall st fs st' fs',
  Forall (fun p => is_prefix dest_dir p = false) ps ->
  st_fold (flatten_file dest_dir) ps st fs = (Ok st', fs') ->
  List.NoDup (map fst (seen_hash st)) ->
  written st' + skipped st' = written st + skipped st + length (candidates fs ps)
  /\ written st' + length (seen_hash st) = written st + length (seen_hash st')
  /\ List.NoDup (map fst (seen_hash st'))
  /\ (forall d, In d (map fst (seen_hash st'))
                <-> In d (map fst (seen_hash st)) \/ In d (digests fs ps)).
Proof.
  induction ps as [|p ps IH]; intros st fs st' fs' Hout Hrun Hnd.
  - injection Hrun as <- <-. simpl. repeat split; try lia; try assumption; tauto.
  - simpl in Hrun. unfold bind in Hrun.
    destruct (flatten_file dest_dir p st fs) as [[st1|e] fs1] eqn:E1; [|discriminate].
    inversion Hout as [|? ? Hp Hps]; subst.
    destruct (flatten_file_step _ _ _ _ _ _ E1 Hnd) as (Hev & Hc1 & Hl1 & Hnd1 & Hk1).
    destruct (IH _ _ _ _ Hps Hrun Hnd1) as (Hc2 & Hl2 & Hnd2 & Hk2).
    destruct (candidates_stable fs fs1 ps) as [Ec Ed].
    { intros q Hq. apply Hev. eapply (proj1 (List.Forall_forall _ _) Hps). exact Hq. }
    rewrite Ec in Hc2. rewrite Ed in Hk2.
    rewrite candidates_cons, length_app.
    repeat split; try lia; try assumption.
    + intros H. apply Hk2 in H. rewrite digests_cons. rewrite in_app_iff.
      destruct H as [H|H]; [apply Hk1 in H; tauto | tauto].
    + intros H. apply Hk2. rewrite digests_cons, in_app_iff in H.
      destruct H as [H|[H|H]]; [left; apply Hk1; tauto | left; apply Hk1; tauto | tauto].
Qed.

Lemma beside_output dest_dir p :
  dest_dir <> [] -> name dest_dir <> "_unzips_tmp" ->
  is_prefix (tmp_root_of dest_dir) p = true -> is_prefix dest_dir p = false.
Proof.
  intros Hne Hnm Ht. destruct (is_prefix dest_dir p) eqn:Ed; [|reflexivity].
  apply is_prefix_spec in Ht. destruct Ht as [l Ht].
  apply is_prefix_spec in Ed. destruct Ed as [l' Ed].
  rewrite (parent_app dest_dir Hne) in Ed. unfold tmp_root_of in Ht.
  rewrite Ht, <- !List.app_assoc in Ed. apply app_inv_head in Ed.
  injection Ed as E _. congruence.
Qed.

Lemma rglob_listing_below fs root p :
  In p (rglob_listing fs root) -> is_prefix root p = true.
Proof.
  unfold rglob_listing. intros H. apply in_map_iff in H. destruct H as ([q n] & <- & H).
  apply filter_In in H. destruct H as [_ H]. apply andb_true_iff in H. apply H.
Qed.

(** A call that returns has walked the working area from [walk_start]. *)
Lemma flatten_run rglob zip_paths dest_dir fs w s fs' :
  extract_and_flatten_zips rglob zip_paths dest_dir fs = (Ok (w, s), fs') ->
  exists st' fs3,
    st_fold (flatten_file dest_dir)
      (rglob (walk_start zip_paths dest_dir fs) (tmp_root_of dest_dir))
      {| seen_hash := []; written := 0; skipped := 0 |}
      (walk_start zip_paths dest_dir fs) = (Ok st', fs3)
    /\ w = written st' /\ s = skipped st'.
Proof.
  unfold extract_and_flatten_zips, try_finally, flatten_body, walk_start, bind, look, ret.
  destruct (flatten_prepare dest_dir fs) as [[u|e] fs1]; [|discriminate].
  destruct (st_each (extractall (tmp_root_of dest_dir)) zip_paths fs1) as [[u'|e] fs2];
    [|discriminate].
  simpl. destruct (st_fold _ _ _ fs2) as [[st'|e] fs3]; [|discriminate].
  intros [= <- <- _]. exists st', fs3. auto.
Qed.

Lemma flatten_run_loop rglob zip_paths dest_dir fs w s fs' :
  (forall fs root p, In p (rglob fs root) -> is_prefix root p = true) ->
  dest_dir <> [] -> name dest_dir <> "_unzips_tmp" ->
  extract_and_flatten_zips rglob zip_paths dest_dir fs = (Ok (w, s), fs') ->
  exists seen,
    w + s = length (candidates (walk_start zip_paths dest_dir fs)
                      (rglob (walk_start zip_paths dest_dir fs) (tmp_root_of dest_dir)))
    /\ w = length seen
    /\ List.NoDup seen
    /\ (forall d, In d seen
                  <-> In d (digests (walk_start zip_paths dest_dir fs)
                              (rglob (walk_start zip_paths dest_dir fs)
                                 (tmp_root_of dest_dir)))).
Proof.
  intros Hrglob Hne Hnm Hrun.
  destruct (flatten_run _ _ _ _ _ _ _ Hrun) as (st' & fs3 & Hloop & -> & ->).
  apply flatten_loop in Hloop.
  - destruct Hloop as (Hc & Hl & Hnd & Hk). simpl in *.
    exists (map fst (seen_hash st')). rewrite length_map.
    repeat split; try lia; try assumption.
    + intros H. apply Hk in H. tauto.
    + intros H. apply Hk. tauto.
  - apply List.Forall_forall. intros p Hp.
    apply beside_output; try assumption. eapply Hrglob. exact Hp.
  - constructor.
Qed.

(** The counters of a call that returns sum to the number of candidate
    files of the walk. *)
Theorem flatten_counters_sum rglob zip_paths dest_dir fs w s fs' :
  (forall fs root p, In p (rglob fs root) -> is_prefix root p = true) ->
  dest_dir <> [] -> name dest_dir <> "_unzips_tmp" ->
  extract_and_flatten_zips rglob zip_paths dest_dir fs = (Ok (w, s), fs') ->
  w + s = length (candidates (walk_start zip_paths dest_dir fs)
                    (rglob (walk_start zip_paths dest_dir fs) (tmp_root_of dest_dir))).
Proof.
  intros Hrglob Hne Hnm Hrun.
  destruct (flatten_run_loop _ _ _ _ _ _ _ Hrglob Hne Hnm Hrun) as (seen & H & _). exact H.
Qed.

(** One file is copied for each digest among the candidate files: the
    written counter is the number of different digests. *)
Theorem one_copy_per_digest rglob zip_paths dest_dir fs w s fs' :
  (forall fs root p, In p (rglob fs root) -> is_prefix root p = true) ->
  dest_dir <> [] -> name dest_dir <> "_unzips_tmp" ->
  extract_and_flatten_zips rglob zip_paths dest_dir fs = (Ok (w, s), fs') ->
  w = length (nodup String.string_dec
                (digests (walk_start zip_paths dest_dir fs)
                   (rglob (walk_start zip_paths dest_dir fs) (tmp_root_of dest_dir)))).
Proof.
  intros Hrglob Hne Hnm Hrun.
  destruct (flatten_run_loop _ _ _ _ _ _ _ Hrglob Hne Hnm Hrun) as (seen & _ & -> & Hnd & Hk).
  apply Permutation_length. apply Permutation.NoDup_Permutation.
  - exact Hnd.
  - apply NoDup_nodup.
  - intros d. rewrite nodup_In. apply Hk.
Qed.

Lemma flatten_counters_sum_witness :
  2 + 1 = length (candidates (walk_start [["a.zip"]] ["Merger"; "Temp"] copied_cat)
                    (rglob_listing (walk_start [["a.zip"]] ["Merger"; "Temp"] copied_cat)
                       (tmp_root_of ["Merger"; "Temp"]))).
Proof.
  apply (flatten_counters_sum rglob_listing [["a.zip"]] ["Merger"; "Temp"] copied_cat 2 1
           (snd (extract_and_flatten_zips rglob_listing [["a.zip"]] ["Merger"; "Temp"]
                   copied_cat))).
  - exact rglob_listing_below.
  - discriminate.
  - discriminate.
  - vm_compute. reflexivity.
Defined.

Lemma one_copy_per_digest_witness :
  2 = length (nodup String.string_dec
                (digests (walk_start [["a.zip"]] ["Merger"; "Temp"] copied_cat)
                   (rglob_listing (walk_start [["a.zip"]] ["Merger"; "Temp"] copied_cat)
                      (tmp_root_of ["Merger"; "Temp"])))).
Proof.
  apply (one_copy_per_digest rglob_listing [["a.zip"]] ["Merger"; "Temp"] copied_cat 2 1
           (snd (extract_and_flatten_zips rglob_listing [["a.zip"]] ["Merger"; "Temp"]
                   copied_cat))).
  - exact rglob_listing_below.
  - discriminate.
  - discriminate.
  - vm_compute. reflexivity.
Defined.

Local Close Scope nat_scope.

(** ** More about [merge_ls_tasks] *)

Lemma merge_ls_tasks_bucket task_lists merged :
  merge_ls_tasks task_lists = Ok merged ->
  exists bucket,
    fill_bucket (concat task_lists) [] = Ok bucket
    /\ List.NoDup (map fst bucket)
    /\ Forall2 (fun kg m => task_key m = Ok (fst kg) /\ merge_group (snd kg) = Ok m)
         bucket merged.
Proof.
  intros H. apply merge_ls_tasks_Ok in H. destruct H as (bucket & Hb & Hm).
  exists bucket. split; [assumption|].
  apply fill_bucket_groups in Hb. destruct Hb as (Hnd & Hg & Hk).
  split; [assumption|]. clear Hnd Hk.
  induction Hm as [|[k g] m bucket merged Hkm _ IH]; constructor.
  - simpl in Hkm. destruct (Hg k g (or_introl eq_refl)) as [Eg _].
    split; [|assumption]. simpl.
    destruct (merge_group_Ok _ _ Hkm) as (base & new_anns & Hbase & Hset & _).
    rewrite (task_key_setitem_annotations _ _ _ Hset).
    apply is_base_In in Hbase. rewrite Eg in Hbase.
    apply filter_In in Hbase. apply has_key_true. tauto.
  - apply IH. intros k' g' Hin. apply Hg. right; assumption.
Qed.

Lemma fill_bucket_keys ts : forall b b',
  fill_bucket ts b = Ok b' ->
  exists keys,
    rmap task_key ts = Ok keys
    /\ map fst b'
       = fold_left (fun acc k => if existsb (String.eqb k) acc then acc else acc ++ [k])
           keys (map fst b).
Proof.
  induction ts as [|t ts IH]; intros b b' H; simpl in H.
  - injection H as <-. exists []. split; reflexivity.
  - inv_bind H. apply IH in H. destruct H as (keys & Hk & E).
    exists (x :: keys). simpl. rewrite Hx, Hk. simpl. split; [reflexivity|].
    rewrite E, bucket_add_keys. reflexivity.
Qed.

(** The merged tasks come in the order in which their keys are first met
    in the input, one task for each key. *)
Theorem merged_in_first_seen_order (task_lists : list (list json)) merged :
  merge_ls_tasks task_lists = Ok merged ->
  exists keys,
    rmap task_key (concat task_lists) = Ok keys
    /\ rmap task_key merged = Ok (first_seen keys)
    /\ length merged = length (first_seen keys).
Proof.
  intros H. destruct (merge_ls_tasks_bucket _ _ H) as (bucket & Hb & _ & Hm).
  destruct (fill_bucket_keys _ _ _ Hb) as (keys & Hk & E).
  exists keys. split; [assumption|]. unfold first_seen. simpl in E. rewrite <- E.
  assert (Hr : rmap task_key merged = Ok (map fst bucket)).
  { apply rmap_Ok. clear -Hm. induction Hm as [|kg m bucket merged [Hkm _] _ IH].
    - constructor.
    - simpl. constructor; assumption. }
  split; [exact Hr|].
  rewrite length_map. symmetry. eapply Forall2_length. exact Hm.
Qed.

Lemma merged_in_first_seen_order_witness :
  exists merged,
    merge_ls_tasks [contributor_a; contributor_b] = Ok merged
    /\ rmap task_key merged = Ok ["img1.jpg"; "img2.jpg"].
Proof.
  destruct (merge_ls_tasks [contributor_a; contributor_b]) as [merged|e] eqn:E;
    [|vm_compute in E; discriminate].
  exists merged. split; [reflexivity|].
  destruct (merged_in_first_seen_order _ _ E) as (keys & Hk & Hr & _).
  vm_compute in Hk. injection Hk as <-. exact Hr.
Defined.

(** *** Merging what has been merged *)

Lemma fix_result_fixed n r r' : fix_result n r = Ok r' -> fix_result n r' = Ok r'.
Proof.
  intros H. apply fix_result_Ok in H. destruct H as (f & -> & ->).
  apply fix_result_keeps; [reflexivity|].
  unfold has_id at 1, field. rewrite dict_get_set_eq. simpl.
  destruct (has_id (JObj f)) eqn:E; [exact E | reflexivity].
Qed.

Lemma rmap_fixed {A} (f : A -> result A) l l' :
  (forall x y, f x = Ok y -> f y = Ok y) -> rmap f l = Ok l' -> rmap f l' = Ok l'.
Proof.
  intros Hf H. apply rmap_Ok in H. apply rmap_Ok.
  induction H as [|x y l l' Hxy _ IH]; constructor; eauto.
Qed.

Lemma renumber_fixed n a a' : renumber n a = Ok a' -> renumber n a' = Ok a'.
Proof.
  unfold renumber, deep_copy. intros H.
  destruct a as [| | | | | |f]; try discriminate. simpl in H.
  set (f1 := dict_set f "id" (JInt n)) in *.
  assert (Hid : dict_set f1 "id" (JInt n) = f1)
    by (apply dict_set_same, dict_get_set_eq).
  destruct (py_iter (or_empty_list (default (JArr []) (dict_get f1 "result"))))
    as [rs|e] eqn:Ers; [|discriminate].
  simpl in H. destruct (rmap (fix_result n) rs) as [rs'|e] eqn:Erm; [|discriminate].
  simpl in H.
  destruct (default (JArr []) (dict_get f1 "result")) as [| | | | |l|g] eqn:Eres;
    try (injection H as <-; simpl; rewrite Hid, Eres; simpl;
         try (rewrite Ers; simpl; rewrite Erm; simpl); reflexivity).
  destruct l as [|x l].
  { injection H as <-. simpl. rewrite Hid, Eres. reflexivity. }
  simpl in H. injection H as <-.
  simpl in Ers. injection Ers as <-.
  set (f2 := dict_set f1 "result" (JArr rs')).
  assert (Hid2 : dict_set f2 "id" (JInt n) = f2).
  { apply dict_set_same. unfold f2. rewrite dict_get_set_ne by discriminate.
    apply dict_get_set_eq. }
  assert (Hres2 : dict_get f2 "result" = Some (JArr rs')) by apply dict_get_set_eq.
  assert (Hfix : rmap (fix_result n) rs' = Ok rs')
    by (eapply rmap_fixed; [apply fix_result_fixed | exact Erm]).
  destruct rs' as [|y rs'].
  { apply rmap_Ok in Erm. inversion Erm. }
  simpl. rewrite Hid2, Hres2. simpl. simpl in Hfix. rewrite Hfix. simpl.
  fold f2. rewrite dict_set_same; [reflexivity | exact Hres2].
Qed.

Lemma renumber_from_fixed anns : forall n anns',
  renumber_from n anns = Ok anns' -> renumber_from n anns' = Ok anns'.
Proof.
  induction anns as [|a anns IH]; intros n anns' H; simpl in H.
  - injection H as <-. reflexivity.
  - inv_bind H. inv_bind H. injection H as <-. simpl.
    rewrite (renumber_fixed _ _ _ Hx). simpl. rewrite (IH _ _ Hx0). reflexivity.
Qed.

(** A merged task is a group of its own: merging it alone gives it back. *)
Lemma merge_group_fixed tasks m : merge_group tasks = Ok m -> merge_group [m] = Ok m.
Proof.
  intros H. destruct (merge_group_Ok _ _ H) as (base & anns & _ & Hset & Hren).
  destruct base as [| | | | | |f]; try discriminate. simpl in Hset. injection Hset as <-.
  apply renumber_from_fixed in Hren.
  assert (Hget : dict_get (dict_set f "annotations" (JArr anns)) "annotations"
                 = Some (JArr anns)) by apply dict_get_set_eq.
  unfold merge_group, annotations_len, annotations_items, deep_copy. simpl.
  rewrite Hget. simpl.
  assert (Hit : py_iter (or_empty_list (JArr anns)) = Ok anns).
  { destruct anns; reflexivity. }
  rewrite Hit. simpl. rewrite app_nil_r, Hren. simpl.
  rewrite dict_set_same; [reflexivity | exact Hget].
Qed.

Lemma bucket_add_new k t b :
  ~ In k (map fst b) -> bucket_add k t b = b ++ [(k, [t])].
Proof.
  induction b as [|[k' ts] b IH]; simpl; [reflexivity|]. intros H.
  destruct (String.eqb_spec k k') as [->|Hne]; [exfalso; apply H; left; reflexivity|].
  rewrite IH; [reflexivity|]. intros Hin. apply H. right. exact Hin.
Qed.

Lemma fill_bucket_distinct ms : forall keys b,
  Forall2 (fun m k => task_key m = Ok k) ms keys ->
  List.NoDup (map fst b ++ keys) ->
  fill_bucket ms b = Ok (b ++ map (fun mk => (snd mk, [fst mk])) (combine ms keys)).
Proof.
  induction ms as [|m ms IH]; intros keys b H Hnd; inversion H as [|? k ? keys' Hk Hks]; subst.
  - simpl. rewrite app_nil_r. reflexivity.
  - simpl. rewrite Hk. simpl.
    assert (Hnew : ~ In k (map fst b)).
    { intros Hin. apply List.NoDup_remove_2 in Hnd. apply Hnd.
      apply in_or_app. left. exact Hin. }
    rewrite (bucket_add_new _ _ _ Hnew), IH with (keys := keys').
    + rewrite <- List.app_assoc. reflexivity.
    + assumption.
    + rewrite map_app, <- List.app_assoc. exact Hnd.
Qed.

(** Merging is idempotent: the merged list, given back as the only input,
    is merged into itself. *)
Theorem merge_of_merged (task_lists : list (list json)) merged :
  merge_ls_tasks task_lists = Ok merged -> merge_ls_tasks [merged] = Ok merged.
Proof.
  intros H. destruct (merge_ls_tasks_bucket _ _ H) as (bucket & _ & Hnd & Hm).
  assert (Hkeys : Forall2 (fun m k => task_key m = Ok k) merged (map fst bucket)).
  { clear -Hm. induction Hm as [|kg m bucket merged [Hk _] _ IH]; constructor; assumption. }
  unfold merge_ls_tasks. simpl. rewrite app_nil_r.
  rewrite (fill_bucket_distinct merged (map fst bucket) [] Hkeys Hnd). simpl.
  apply rmap_Ok. clear -Hm.
  induction Hm as [|kg m bucket merged [_ Hg] _ IH]; simpl; constructor.
  - simpl. eapply merge_group_fixed. exact Hg.
  - exact IH.
Qed.

Lemma merge_of_merged_witness :
  exists merged,
    merge_ls_tasks [contributor_a; contributor_b] = Ok merged
    /\ merge_ls_tasks [merged] = Ok merged.
Proof.
  destruct (merge_ls_tasks [contributor_a; contributor_b]) as [merged|e] eqn:E;
    [|vm_compute in E; discriminate].
  exists merged. split; [reflexivity|]. exact (merge_of_merged _ _ E).
Defined.

(** *** Tasks without a reference, and values that are no tasks *)

Lemma unkeyed_key t : unkeyed t = true -> task_key t = Ok "".
Proof.
  destruct t as [| | | | | |f]; try discriminate. unfold unkeyed, task_key. simpl.
  destruct (dict_get f "file_upload"); [discriminate|].
  destruct (dict_get f "data"); [discriminate|]. intros _. reflexivity.
Qed.

Lemma first_seen_one k keys acc :
  Forall (fun k' => k' = k) keys -> In k acc ->
  fold_left (fun acc k => if existsb (String.eqb k) acc then acc else acc ++ [k]) keys acc
  = acc.
Proof.
  intros H Hin. induction H as [|k' keys -> _ IH]; simpl; [reflexivity|].
  rewrite (proj2 (existsb_eqb_In k acc) Hin). exact IH.
Qed.

Lemma filter_all {A} (p : A -> bool) l : Forall (fun x => p x = true) l -> List.filter p l = l.
Proof.
  induction 1 as [|x l Hx _ IH]; simpl; [reflexivity|]. rewrite Hx, IH. reflexivity.
Qed.

(** Tasks that carry neither an upload identifier nor an image reference
    all have the empty key: they are merged into one task, which holds the
    annotations of all of them. *)
Theorem unkeyed_tasks_are_merged (task_lists : list (list json)) merged :
  Forall (fun t => unkeyed t = true) (concat task_lists) ->
  concat task_lists <> [] ->
  merge_ls_tasks task_lists = Ok merged ->
  exists m, merged = [m]
    /\ task_key m = Ok ""
    /\ annotation_count m = list_sum (map annotation_count (concat task_lists)).
Proof.
  intros Hun Hne H.
  destruct (merge_ls_tasks_groups _ _ H) as (bucket & Hnd & Hkeys & Hm).
  assert (Hex : exists t0, In t0 (concat task_lists)).
  { destruct (concat task_lists) as [|t0 ts]; [contradiction | exists t0; left; reflexivity]. }
  destruct Hex as [t0 Ht0].
  assert (Hk0 : In "" (map fst bucket)).
  { apply (Hkeys t0 "" Ht0). apply unkeyed_key.
    eapply (proj1 (List.Forall_forall _ _) Hun). exact Ht0. }
  destruct (filter_key_unique _ _ _ "" Hm Hnd Hk0) as (g & m & _ & Hfrom & Hf).
  assert (Hall : Forall (fun x => has_key "" x = true) merged).
  { apply List.Forall_forall. intros x Hx.
    destruct (merged_from_In _ _ _ _ Hm Hx) as ([k g'] & Hin & Hg & Hkx & Hmg).
    simpl in *. apply has_key_true. rewrite Hkx. f_equal.
    destruct (merge_group_Ok _ _ Hmg) as (base & _ & Hbase & _ & _).
    apply is_base_In in Hbase. rewrite Hg in Hbase. apply filter_In in Hbase.
    destruct Hbase as [Hb Hkb]. apply has_key_true in Hkb.
    assert (Hu : unkeyed base = true).
    { eapply (proj1 (List.Forall_forall _ _) Hun). exact Hb. }
    apply unkeyed_key in Hu. congruence. }
  rewrite (filter_all _ _ Hall) in Hf. exists m. split; [exact Hf|].
  destruct Hfrom as (Hg & Hkm & Hmg). simpl in *. split; [exact Hkm|].
  destruct (merged_from_annotations _ _ _ _ (conj Hg (conj Hkm Hmg))) as (base & _ & _ & Hren).
  apply renumber_from_length in Hren. unfold annotation_count at 1. rewrite Hren.
  unfold group_of. rewrite filter_all.
  - apply flat_map_length_sum.
  - apply List.Forall_forall. intros x Hx. apply has_key_true, unkeyed_key.
    eapply (proj1 (List.Forall_forall _ _) Hun). exact Hx.
Qed.

Lemma unkeyed_tasks_are_merged_witness :
  exists m,
    merge_ls_tasks [[JObj [("annotations", JArr [JObj []])]];
                    [JObj [("annotations", JArr [JObj []; JObj []])]]] = Ok [m]
    /\ task_key m = Ok ""
    /\ annotation_count m = 3%nat.
Proof.
  set (tls := [[JObj [("annotations", JArr [JObj []])]];
               [JObj [("annotations", JArr [JObj []; JObj []])]]]).
  destruct (merge_ls_tasks tls) as [merged|e] eqn:E; [|vm_compute in E; discriminate].
  destruct (unkeyed_tasks_are_merged tls merged) as (m & -> & Hk & Hc).
  - simpl. repeat constructor.
  - simpl. discriminate.
  - exact E.
  - exists m. split; [reflexivity|]. split; [exact Hk | exact Hc].
Defined.

Lemma fill_bucket_rejects ts t : forall b,
  In t ts -> is_dict t = false -> exists e, fill_bucket ts b = Raise e.
Proof.
  induction ts as [|t' ts IH]; intros b Hin Hd; [destruct Hin|]. simpl.
  destruct (task_key t') as [k|e] eqn:Ek; simpl; [|eauto].
  destruct Hin as [->|Hin]; [|apply IH; assumption].
  destruct t; try discriminate Hd; discriminate Ek.
Qed.

(** A value that is no dictionary among the tasks makes the merge raise:
    no task is merged when one cannot be keyed. *)
Theorem merge_rejects_non_object (task_lists : list (list json)) t :
  In t (concat task_lists) -> is_dict t = false ->
  exists e, merge_ls_tasks task_lists = Raise e.
Proof.
  intros Hin Hd. unfold merge_ls_tasks.
  destruct (fill_bucket_rejects _ _ [] Hin Hd) as [e He]. rewrite He. exists e. reflexivity.
Qed.

Lemma merge_rejects_non_object_witness :
  exists e, merge_ls_tasks [contributor_a; [JStr "img3.jpg"]] = Raise e.
Proof.
  apply (merge_rejects_non_object [contributor_a; [JStr "img3.jpg"]] (JStr "img3.jpg")).
  - simpl. right; left; reflexivity.
  - reflexivity.
Defined.

(** *** Nothing is lost *)

Lemma bucket_add_perm k t b :
  Permutation (concat (map snd (bucket_add k t b))) (concat (map snd b) ++ [t]).
Proof.
  induction b as [|[k' ts] b IH]; simpl; [reflexivity|].
  destruct (String.eqb k k'); simpl.
  - rewrite <- !List.app_assoc. apply Permutation_app_head. apply Permutation_app_comm.
  - rewrite IH, List.app_assoc. reflexivity.
Qed.

Lemma fill_bucket_perm ts : forall b b',
  fill_bucket ts b = Ok b' ->
  Permutation (concat (map snd b')) (concat (map snd b) ++ ts).
Proof.
  induction ts as [|t ts IH]; intros b b' H; simpl in H.
  - injection H as <-. rewrite app_nil_r. reflexivity.
  - inv_bind H. apply IH in H. rewrite H, bucket_add_perm, <- List.app_assoc. reflexivity.
Qed.

Lemma merge_group_count tasks m :
  merge_group tasks = Ok m ->
  annotation_count m = list_sum (map annotation_count tasks).
Proof.
  intros H. destruct (merge_group_Ok _ _ H) as (base & anns & _ & Hset & Hren).
  unfold annotation_count at 1. rewrite (annotations_of_setitem _ _ _ Hset).
  rewrite (renumber_from_length _ _ _ Hren). apply flat_map_length_sum.
Qed.

Lemma list_sum_perm l l' : Permutation l l' -> list_sum l = list_sum l'.
Proof.
  induction 1 as [|x l l' _ IH|x y l|l1 l2 l3 _ IH1 _ IH2]; simpl; lia.
Qed.

(** The merged tasks hold as many annotations as the input tasks do: the
    groups share out the tasks, and a group keeps the annotations of all
    its tasks. *)
Theorem merge_keeps_all_annotations (task_lists : list (list json)) merged :
  merge_ls_tasks task_lists = Ok merged ->
  list_sum (map annotation_count merged)
  = list_sum (map annotation_count (concat task_lists)).
Proof.
  intros H. apply merge_ls_tasks_Ok in H. destruct H as (bucket & Hb & Hm).
  apply fill_bucket_perm in Hb. simpl in Hb.
  rewrite <- (list_sum_perm _ _ (Permutation_map annotation_count Hb)).
  clear Hb. induction Hm as [|kg m bucket merged Hg _ IH]; simpl; [reflexivity|].
  rewrite map_app, list_sum_app, IH, (merge_group_count _ _ Hg). reflexivity.
Qed.

Lemma merge_keeps_all_annotations_witness :
  exists merged,
    merge_ls_tasks [contributor_a; contributor_b] = Ok merged
    /\ list_sum (map annotation_count merged) = 3%nat.
Proof.
  destruct (merge_ls_tasks [contributor_a; contributor_b]) as [merged|e] eqn:E;
    [|vm_compute in E; discriminate].
  exists merged. split; [reflexivity|].
  rewrite (merge_keeps_all_annotations _ _ E). reflexivity.
Defined.

(** ** What the file operations leave alone *)

Lemma unchanged_refl W fs : unchanged_outside W fs fs.
Proof. intros p _. reflexivity. Qed.

Lemma unchanged_trans W fs1 fs2 fs3 :
  unchanged_outside W fs1 fs2 -> unchanged_outside W fs2 fs3 -> unchanged_outside W fs1 fs3.
Proof. intros H12 H23 p Hp. rewrite H23, H12; auto. Qed.

Lemma unchanged_weaken (W W' : path -> bool) fs fs' :
  (forall p, W p = true -> W' p = true) ->
  unchanged_outside W fs fs' -> unchanged_outside W' fs fs'.
Proof.
  intros HW H p Hp. apply H. destruct (W p) eqn:E; [|reflexivity].
  apply HW in E. congruence.
Qed.

Lemma modifies_weaken {A} (W W' : path -> bool) (m : IO A) :
  (forall p, W p = true -> W' p = true) -> modifies W m -> modifies W' m.
Proof. intros HW H fs. eapply unchanged_weaken; [exact HW | apply H]. Qed.

Lemma modifies_ret {A} W (a : A) : modifies W (ret a).
Proof. intros fs. apply unchanged_refl. Qed.

Lemma modifies_raise {A} W e : modifies W (@raise filesystem A e).
Proof. intros fs. apply unchanged_refl. Qed.

Lemma modifies_look {A} W (f : filesystem -> result A) : modifies W (look f).
Proof. intros fs. apply unchanged_refl. Qed.

Lemma modifies_lift {A} W (r : result A) : modifies W (lift r).
Proof. intros fs. apply unchanged_refl. Qed.

Lemma modifies_bind {A B} W (m : IO A) (k : A -> IO B) :
  modifies W m -> (forall a, modifies W (k a)) -> modifies W (bind m k).
Proof.
  intros Hm Hk fs. unfold bind. specialize (Hm fs).
  destruct (m fs) as [[a|e] fs1]; simpl in *; [|exact Hm].
  eapply unchanged_trans; [exact Hm | apply Hk].
Qed.

Lemma modifies_each {A} W (f : A -> IO unit) l :
  (forall x, modifies W (f x)) -> modifies W (st_each f l).
Proof.
  intros Hf. induction l as [|x l IH]; simpl; [apply modifies_ret|].
  apply modifies_bind; [apply Hf | intros _; exact IH].
Qed.

Lemma modifies_fold {A B} W (f : A -> B -> IO B) l :
  (forall x b, modifies W (f x b)) -> forall b, modifies W (st_fold f l b).
Proof.
  intros Hf. induction l as [|x l IH]; intros b; simpl; [apply modifies_ret|].
  apply modifies_bind; [apply Hf | intros b'; apply IH].
Qed.

Lemma modifies_map {A B} W (f : A -> IO B) l :
  (forall x, modifies W (f x)) -> modifies W (st_map f l).
Proof.
  intros Hf. induction l as [|x l IH]; simpl; [apply modifies_ret|].
  apply modifies_bind; [apply Hf|]. intros y.
  apply modifies_bind; [exact IH | intros ys; apply modifies_ret].
Qed.

Lemma modifies_try_finally {A} W (body : IO A) (cleanup : filesystem -> filesystem) :
  modifies W body -> (forall fs, unchanged_outside W fs (cleanup fs)) ->
  modifies W (try_finally body cleanup).
Proof.
  intros Hb Hc fs. unfold try_finally. specialize (Hb fs).
  destruct (body fs) as [r fs1]. simpl in *.
  eapply unchanged_trans; [exact Hb | apply Hc].
Qed.

(** What evolves inside [W] changes nothing outside it. *)
Lemma modifies_of_evolves {A} W (m : IO A) :
  (forall fs0, hoare (evolves W fs0) m (fun _ => evolves W fs0) (evolves W fs0)) ->
  modifies W m.
Proof.
  intros H fs. specialize (H fs fs (evolves_refl W fs)).
  destruct (m fs) as [[a|e] fs1]; simpl; intros p Hp; apply H; exact Hp.
Qed.

Lemma unchanged_remove_tree fs root : unchanged_outside (is_prefix root) fs (fs_remove_tree fs root).
Proof.
  intros p Hp. destruct root as [|a root]; [discriminate|].
  rewrite fs_lookup_remove_tree by discriminate. rewrite Hp. reflexivity.
Qed.

Lemma modifies_rmtree p : modifies (is_prefix p) (rmtree p).
Proof.
  intros fs. unfold rmtree. destruct (fs_lookup fs p) as [[|c]|]; simpl;
    [apply unchanged_remove_tree | apply unchanged_refl | apply unchanged_refl].
Qed.

Lemma unchanged_rmtree_ignore_errors p fs :
  unchanged_outside (is_prefix p) fs (rmtree_ignore_errors p fs).
Proof.
  unfold rmtree_ignore_errors. destruct (fs_is_dir fs p);
    [apply unchanged_remove_tree | apply unchanged_refl].
Qed.

(** *** Prefixes *)

Lemma is_prefix_trans p q r :
  is_prefix p q = true -> is_prefix q r = true -> is_prefix p r = true.
Proof.
  intros H1 H2. apply is_prefix_spec in H1. destruct H1 as [l1 ->].
  apply is_prefix_spec in H2. destruct H2 as [l2 ->].
  rewrite <- List.app_assoc. apply is_prefix_app.
Qed.

Lemma is_prefix_cases q root x :
  is_prefix q (root ++ x) = true -> is_prefix q root = true \/ is_prefix root q = true.
Proof.
  revert root; induction q as [|a q IH]; intros root H; [left; reflexivity|].
  destruct root as [|b root]; [right; reflexivity|].
  simpl in H. apply andb_true_iff in H. destruct H as [E H].
  simpl. rewrite E. simpl. apply String.eqb_eq in E. subst b.
  rewrite String.eqb_refl. simpl. apply IH. exact H.
Qed.

Lemma parent_is_prefix p : is_prefix (parent p) p = true.
Proof.
  destruct p as [|a p] using rev_ind; [reflexivity|].
  rewrite parent_of_app. apply is_prefix_app.
Qed.

Lemma parent_below root mp : mp <> [] -> parent (root ++ mp) = root ++ parent mp.
Proof. intros H. unfold parent. apply removelast_app. exact H. Qed.

(** *** Extraction stays below the target directory *)

Section Footprint.

Variable W : path -> bool.
Variable root : path.
Hypothesis W_above : forall q, q <> [] -> is_prefix q root = true -> W q = true.
Hypothesis W_below : forall x, W (root ++ x) = true.

Lemma W_near q x : q <> [] -> is_prefix q (root ++ x) = true -> W q = true.
Proof.
  intros Hne H. apply is_prefix_cases in H. destruct H as [H|H].
  - apply W_above; assumption.
  - apply is_prefix_spec in H. destruct H as [l ->]. apply W_below.
Qed.

Lemma modifies_extract_member e : modifies W (extract_member root e).
Proof.
  apply modifies_of_evolves. intros fs0. unfold extract_member.
  eapply hoare_bind; [apply hoare_read|]. intros up.
  apply hoare_bind with (Q := fun _ => evolves W fs0).
  { destruct up; [apply hoare_ret; auto|]. apply hoare_makedirs.
    intros q l E Hne.
    destruct (member_path (fst e)) as [|c mp] eqn:Emp.
    - rewrite app_nil_r in E. apply W_above; [assumption|].
      eapply is_prefix_trans; [|apply parent_is_prefix].
      rewrite E. apply is_prefix_app.
    - rewrite parent_below in E by discriminate.
      apply (W_near q (parent (c :: mp))); [assumption|].
      rewrite E. apply is_prefix_app. }
  intros u. destruct (is_dir_member (fst e)).
  - eapply hoare_bind; [apply hoare_read|]. intros d.
    destruct d; [apply hoare_ret; auto | apply hoare_os_mkdir; apply W_below].
  - apply hoare_write_file. apply W_below.
Qed.

Lemma modifies_extractall zp : modifies W (extractall root zp).
Proof.
  unfold extractall. apply modifies_bind.
  - unfold open_zip. apply modifies_bind; [apply modifies_look|].
    intros c. destruct c; try apply modifies_raise. apply modifies_ret.
  - intros es. apply modifies_each. apply modifies_extract_member.
Qed.

End Footprint.

(** *** The flattener *)

Lemma flatten_area_above dest_dir q : is_prefix q dest_dir = true -> flatten_area dest_dir q = true.
Proof. intros H. unfold flatten_area. rewrite H. reflexivity. Qed.

Lemma flatten_area_output dest_dir x : flatten_area dest_dir (dest_dir ++ x) = true.
Proof. unfold flatten_area. rewrite is_prefix_app, orb_true_r. reflexivity. Qed.

Lemma flatten_area_work dest_dir x : flatten_area dest_dir (tmp_root_of dest_dir ++ x) = true.
Proof. unfold flatten_area. rewrite is_prefix_app, orb_true_r. reflexivity. Qed.

Lemma flatten_area_near dest_dir q :
  q <> [] -> is_prefix q (tmp_root_of dest_dir) = true -> flatten_area dest_dir q = true.
Proof.
  intros Hne H. apply is_prefix_spec in H. destruct H as [l E].
  destruct l as [|z l _] using rev_ind.
  - rewrite app_nil_r in E. rewrite <- E, <- (app_nil_r (tmp_root_of dest_dir)).
    apply flatten_area_work.
  - unfold tmp_root_of in E. rewrite List.app_assoc in E.
    apply app_inj_tail in E. destruct E as [E _].
    apply flatten_area_above. eapply is_prefix_trans; [|apply parent_is_prefix].
    rewrite E. apply is_prefix_app.
Qed.

Lemma modifies_mkdir_p W p :
  (forall q, q <> [] -> is_prefix q p = true -> W q = true) -> modifies W (mkdir_p p).
Proof.
  intros HW. apply modifies_of_evolves. intros fs0. apply hoare_mkdir_p.
  intros q l E Hne. apply HW; [assumption|]. rewrite E. apply is_prefix_app.
Qed.

Lemma modifies_flatten_prepare dest_dir :
  modifies (flatten_area dest_dir) (flatten_prepare dest_dir).
Proof.
  unfold flatten_prepare.
  apply modifies_bind; [apply modifies_look|]. intros there.
  apply modifies_bind.
  { destruct there; [|apply modifies_ret].
    eapply modifies_weaken; [|apply modifies_rmtree].
    intros p Hp. apply is_prefix_spec in Hp. destruct Hp as [l ->].
    apply flatten_area_output. }
  intros u. apply modifies_bind.
  { apply modifies_mkdir_p. intros q _ Hq. apply flatten_area_above. exact Hq. }
  intros u'. apply modifies_mkdir_p. apply flatten_area_near.
Qed.

Lemma modifies_flatten_file W dest_dir p st :
  (forall x, W (dest_dir ++ x) = true) -> modifies W (flatten_file dest_dir p st).
Proof.
  intros HW. apply modifies_of_evolves. intros fs0. apply hoare_flatten_file. exact HW.
Qed.

Lemma modifies_flatten_body rglob zip_paths dest_dir :
  modifies (flatten_area dest_dir) (flatten_body rglob zip_paths dest_dir).
Proof.
  unfold flatten_body.
  apply modifies_bind.
  { apply modifies_each. intros zp. apply modifies_extractall.
    - apply flatten_area_near.
    - apply flatten_area_work. }
  intros u. apply modifies_bind; [apply modifies_look|]. intros ps.
  apply modifies_bind; [|intros st; apply modifies_ret].
  apply modifies_fold. intros p st. apply modifies_flatten_file.
  apply flatten_area_output.
Qed.

Lemma modifies_extract_and_flatten_zips rglob zip_paths dest_dir :
  modifies (flatten_area dest_dir) (extract_and_flatten_zips rglob zip_paths dest_dir).
Proof.
  unfold extract_and_flatten_zips.
  apply modifies_bind; [apply modifies_flatten_prepare|]. intros u.
  apply modifies_try_finally; [apply modifies_flatten_body|].
  intros fs. eapply unchanged_weaken; [|apply unchanged_rmtree_ignore_errors].
  intros p Hp. apply is_prefix_spec in Hp. destruct Hp as [l ->].
  apply flatten_area_work.
Qed.

(** Whatever the flattener returns or raises, it has changed nothing but
    the output directory, the directories above it and the working area:
    the archives it reads from elsewhere are as they were. *)
Theorem flatten_leaves_the_rest rglob zip_paths dest_dir fs p :
  flatten_area dest_dir p = false ->
  fs_lookup (snd (extract_and_flatten_zips rglob zip_paths dest_dir fs)) p = fs_lookup fs p.
Proof. intros Hp. apply modifies_extract_and_flatten_zips. exact Hp. Qed.

Lemma flatten_leaves_the_rest_witness :
  fs_lookup (snd (extract_and_flatten_zips rglob_listing [["a.zip"]; ["b.zip"]]
                    ["Merger"; "Temp"] broken_upload)) ["a.zip"]
  = Some (File (Zip [("x/cat.png", "abc")])).
Proof.
  rewrite (flatten_leaves_the_rest rglob_listing [["a.zip"]; ["b.zip"]] ["Merger"; "Temp"]
             broken_upload ["a.zip"]); reflexivity.
Defined.

(** *** [zip_dir] *)

Lemma modifies_write_file W q c : W q = true -> modifies W (write_file q c).
Proof.
  intros HW. apply modifies_of_evolves. intros fs0. apply hoare_write_file. exact HW.
Qed.

Lemma modifies_zip_member W src_dir p : modifies W (zip_member src_dir p).
Proof.
  unfold zip_member. apply modifies_bind; [apply modifies_look|]. intros f.
  destruct f; [|apply modifies_ret].
  apply modifies_bind; [apply modifies_look | intros c; apply modifies_ret].
Qed.

Lemma modifies_zip_dir rglob src_dir out_zip :
  modifies (is_prefix out_zip) (zip_dir rglob src_dir out_zip).
Proof.
  unfold zip_dir.
  apply modifies_bind; [apply modifies_look|]. intros there.
  apply modifies_bind.
  { destruct there; [|apply modifies_ret]. intros fs.
    destruct (fs_is_dir fs out_zip); simpl;
      [apply unchanged_refl | apply unchanged_remove_tree]. }
  intros u. apply modifies_bind; [apply modifies_write_file, is_prefix_refl|]. intros u'.
  apply modifies_bind; [apply modifies_look|]. intros ps.
  apply modifies_bind; [apply modifies_map; intros p; apply modifies_zip_member|].
  intros members. apply modifies_write_file, is_prefix_refl.
Qed.

(** *** [main] *)

Lemma around_above dir q : is_prefix q dir = true -> around dir q = true.
Proof. intros H. unfold around. rewrite H. reflexivity. Qed.

Lemma around_below dir x : around dir (dir ++ x) = true.
Proof. unfold around. rewrite is_prefix_app. apply orb_true_r. Qed.

Lemma around_child dir c q :
  is_prefix q (dir ++ [c]) = true -> around dir q = true.
Proof.
  intros H. apply is_prefix_cases in H. destruct H as [H|H].
  - apply around_above. exact H.
  - apply is_prefix_spec in H. destruct H as [l ->]. apply around_below.
Qed.

Lemma staging_around dir p : staging dir p = true -> around dir p = true.
Proof.
  unfold staging. intros H. apply orb_true_iff in H. destruct H as [H|H].
  - apply orb_true_iff in H. destruct H as [H|H]; [apply around_above; exact H|].
    apply is_prefix_spec in H. destruct H as [l ->].
    rewrite <- List.app_assoc. apply around_below.
  - apply path_eqb_eq in H. subst p. apply around_below.
Qed.

Lemma flatten_area_around dir c p :
  flatten_area (dir ++ [c]) p = true -> around dir p = true.
Proof.
  unfold flatten_area, tmp_root_of. rewrite parent_of_app. intros H.
  apply orb_true_iff in H. destruct H as [H|H].
  - apply orb_true_iff in H. destruct H as [H|H]; [eapply around_child; exact H|].
    apply is_prefix_spec in H. destruct H as [l ->].
    rewrite <- List.app_assoc. apply around_below.
  - apply is_prefix_spec in H. destruct H as [l ->].
    rewrite <- List.app_assoc. apply around_below.
Qed.

Lemma modifies_main rglob members out_dir :
  modifies (around (Path_of out_dir)) (main rglob members out_dir).
Proof.
  unfold main. destruct (negb _); [apply modifies_raise|].
  apply modifies_bind.
  { eapply modifies_weaken; [apply staging_around|].
    apply modifies_of_evolves. intros fs0. apply staging_mkdirs. }
  intros u. apply modifies_bind.
  { eapply modifies_weaken; [apply staging_around|].
    apply modifies_fold. intros m acc.
    apply modifies_of_evolves. intros fs0. apply staging_load_member. }
  intros loaded. apply modifies_bind; [apply modifies_lift|]. intros merged.
  apply modifies_bind; [apply modifies_write_file, around_below|]. intros u1.
  apply modifies_bind.
  { eapply modifies_weaken; [apply flatten_area_around|].
    apply modifies_extract_and_flatten_zips. }
  intros counts. apply modifies_bind.
  { eapply modifies_weaken; [|apply modifies_zip_dir].
    intros p Hp. apply is_prefix_spec in Hp. destruct Hp as [l ->].
    rewrite <- List.app_assoc. apply around_below. }
  intros u2. apply modifies_bind; [|intros u3; apply modifies_ret].
  intros fs. simpl. eapply unchanged_weaken; [|apply unchanged_rmtree_ignore_errors].
  intros p Hp. apply is_prefix_spec in Hp. destruct Hp as [l ->].
  rewrite <- List.app_assoc. apply around_below.
Qed.

(** Whatever a run returns or raises, it has changed nothing outside the
    output directory and the directories above it: the contributors'
    files, when they lie elsewhere, are as they were. *)
Theorem main_leaves_the_rest rglob members out_dir fs p :
  around (Path_of out_dir) p = false ->
  fs_lookup (snd (main rglob members out_dir fs)) p = fs_lookup fs p.
Proof. intros Hp. apply modifies_main. exact Hp. Qed.

Lemma main_leaves_the_rest_witness :
  fs_lookup (snd (main rglob_listing [alice; bob] "Merger" both_present)) ["bob.zip"]
  = Some (File (Zip [("img/cat.png", "xyz"); ("img/dog.png", "abc")])).
Proof.
  rewrite (main_leaves_the_rest rglob_listing [alice; bob] "Merger" both_present ["bob.zip"]);
    reflexivity.
Defined.

(** ** A run that returns *)

Ltac bind_inv H a s Ha := apply bind_Ok_inv in H; destruct H as (a & s & Ha & H).

Lemma write_file_lookup q c fs fs' :
  write_file q c fs = (Ok tt, fs') -> fs_lookup fs' q = Some (File c).
Proof.
  unfold write_file. intros H.
  assert (Hq : q <> []).
  { intros ->. simpl in H. discriminate. }
  destruct (fs_lookup fs q) as [[|c']|]; [discriminate| |];
    [|destruct (fs_lookup fs (parent q)) as [[|c']|]; try discriminate];
    injection H as <-; rewrite fs_lookup_set by assumption;
    rewrite path_eqb_refl; reflexivity.
Qed.

Lemma zip_dir_lookup rglob src_dir out_zip fs fs' :
  zip_dir rglob src_dir out_zip fs = (Ok tt, fs') ->
  exists es, fs_lookup fs' out_zip = Some (File (Zip es)).
Proof.
  unfold zip_dir. intros H.
  bind_inv H there f1 H1. bind_inv H u1 f2 H2. bind_inv H u2 f3 H3.
  bind_inv H ps f4 H4. bind_inv H members f5 H5.
  eexists. eapply write_file_lookup. exact H.
Qed.

Lemma sibling_not_prefix dir a b l : a <> b -> is_prefix (dir ++ [a]) (dir ++ b :: l) = false.
Proof.
  intros Hne. rewrite is_prefix_app_both. simpl.
  destruct (String.eqb_spec a b); [contradiction | reflexivity].
Qed.

Lemma flatten_area_sibling dir c x :
  x <> c -> x <> "_unzips_tmp" -> flatten_area (dir ++ [c]) (dir ++ [x]) = false.
Proof.
  intros H1 H2. unfold flatten_area, tmp_root_of. rewrite parent_of_app.
  rewrite !sibling_not_prefix; auto.
Qed.

(** After a call that returns, the output directory is there and the
    working area is not. *)
Lemma flatten_Ok_state rglob zip_paths dest_dir fs c fs' :
  is_prefix (tmp_root_of dest_dir) dest_dir = false ->
  extract_and_flatten_zips rglob zip_paths dest_dir fs = (Ok c, fs') ->
  fs_is_dir fs' dest_dir = true /\ tree_absent fs' (tmp_root_of dest_dir).
Proof.
  intros Hsib H. unfold extract_and_flatten_zips in H. bind_inv H u h Hprep. destruct u.
  pose proof (flatten_prepare_is_dir _ _ _ Hprep) as Htmp.
  assert (Hdest : fs_is_dir h dest_dir = true).
  { unfold flatten_prepare in Hprep.
    bind_inv Hprep there f1 H1. bind_inv Hprep u1 f2 H2. bind_inv Hprep u2 f3 H3.
    destruct u2. apply mkdir_p_is_dir in H3.
    pose proof (hoare_mkdir_p (fun _ => true) f3 (tmp_root_of dest_dir)
                  (fun _ _ _ _ => eq_refl) f3 (evolves_refl _ f3)) as Hev.
    rewrite Hprep in Hev. apply Hev. exact H3. }
  unfold try_finally in H.
  pose proof (persist_flatten_body rglob h zip_paths dest_dir h (evolves_refl _ h)) as Hb.
  destruct (flatten_body rglob zip_paths dest_dir h) as [r0 fs2].
  injection H as -> <-.
  assert (Hd2 : forall d, fs_is_dir h d = true -> fs_is_dir fs2 d = true)
    by (intros d; apply Hb).
  unfold rmtree_ignore_errors. rewrite (Hd2 _ Htmp). split.
  - apply fs_is_dir_lookup.
    rewrite fs_lookup_remove_tree by apply tmp_root_not_nil.
    rewrite Hsib. apply fs_is_dir_lookup. apply Hd2. exact Hdest.
  - apply remove_tree_absent, tmp_root_not_nil.
Qed.

Section Loading.

Variable merger_dir : path.
Variable fs0 : filesystem.

Let I (fs : filesystem) : Prop := evolves (staging merger_dir) fs0 fs.

(** A contributor that is loaded: its task file held a list when the run
    started. *)
Lemma load_member_Ok m acc fs acc' fs' :
  I fs -> staging merger_dir (Path_of (member_json m)) = false ->
  load_member (merger_dir ++ ["Individuals"]) m acc fs = (Ok acc', fs') ->
  I fs'
  /\ exists tl,
       fs_lookup fs0 (Path_of (member_json m)) = Some (File (Json (JArr tl)))
       /\ acc' = (fst acc ++ [tl], snd acc ++ [Path_of (member_zip m)]).
Proof.
  intros Hfs Hout Hrun. split.
  { pose proof (staging_load_member merger_dir fs0 m acc fs Hfs) as H.
    rewrite Hrun in H. exact H. }
  unfold load_member in Hrun. bind_inv Hrun jt f1 Hj. destruct (negb jt); [discriminate|].
  bind_inv Hrun zt f2 Hz. destruct (negb zt); [discriminate|].
  apply look_Ok_inv in Hj. destruct Hj as [_ ->].
  apply look_Ok_inv in Hz. destruct Hz as [_ ->].
  bind_inv Hrun u1 h1 Hstep. bind_inv Hrun u2 h2 Hstep0. bind_inv Hrun tsk h3 Hstep1.
  injection Hrun as <- <-.
  assert (H1 : I h1).
  { pose proof (staging_copy2 merger_dir fs0 (Path_of (member_json m))
                  ("input_" +:+ spaces_to_underscores (safe_name (member_name m)) +:+ ".json")
                  fs Hfs) as H.
    rewrite Hstep in H. exact H. }
  assert (H2 : I h2).
  { pose proof (staging_copy2 merger_dir fs0 (Path_of (member_zip m))
                  ("images_" +:+ spaces_to_underscores (safe_name (member_name m)) +:+ ".zip")
                  h1 H1) as H.
    rewrite Hstep0 in H. exact H. }
  unfold load_ls_array in Hstep1. bind_inv Hstep1 c h4 Hstep2.
  apply look_Ok_inv in Hstep2. destruct Hstep2 as [Hread ->].
  destruct (H2 (Path_of (member_json m))) as [_ Hsame]. rewrite (Hsame Hout) in Hread.
  destruct (fs_lookup fs0 (Path_of (member_json m))) as [[|c0]|]; try discriminate.
  injection Hread as ->.
  destruct c as [b|j|es]; try discriminate.
  destruct j as [| | | | |l|]; try discriminate.
  injection Hstep1 as <- _. exists l. split; reflexivity.
Qed.

Lemma load_members_Ok members : forall acc fs loaded fs',
  I fs ->
  Forall (fun m => staging merger_dir (Path_of (member_json m)) = false) members ->
  st_fold (load_member (merger_dir ++ ["Individuals"])) members acc fs = (Ok loaded, fs') ->
  I fs'
  /\ exists tls,
       Forall2 (fun m tl =>
                  fs_lookup fs0 (Path_of (member_json m)) = Some (File (Json (JArr tl))))
         members tls
       /\ fst loaded = fst acc ++ tls.
Proof.
  induction members as [|m members IH]; intros acc fs loaded fs' Hfs Hout Hrun.
  - injection Hrun as <- <-. split; [exact Hfs|]. exists []. split; [constructor|].
    rewrite app_nil_r. reflexivity.
  - simpl in Hrun. bind_inv Hrun acc1 f1 Hstep. inversion Hout as [|? ? Hm Hms]; subst.
    destruct (load_member_Ok _ _ _ _ _ Hfs Hm Hstep) as (H1 & tl & Htl & ->).
    destruct (IH _ _ _ _ H1 Hms Hrun) as (H2 & tls & Htls & E).
    split; [exact H2|]. exists (tl :: tls). split; [constructor; assumption|].
    rewrite E. simpl. rewrite <- List.app_assoc. reflexivity.
Qed.

End Loading.

Lemma tmp_root_of_child dir c : tmp_root_of (dir ++ [c]) = dir ++ ["_unzips_tmp"].
Proof. unfold tmp_root_of. rewrite parent_of_app. reflexivity. Qed.

Lemma below_sibling dir a b p :
  a <> b -> is_prefix (dir ++ [b]) p = true -> is_prefix (dir ++ [a]) p = false.
Proof.
  intros Hne H. apply is_prefix_spec in H. destruct H as [l ->].
  rewrite <- List.app_assoc. simpl. apply sibling_not_prefix. exact Hne.
Qed.

(** A run that returns has read every contributor's task list as it was
    when the run started, has written their merge to [merged_input.json]
    and an archive to [merged_images.zip], reports the number of merged
    tasks, and has left neither [Temp] nor the working area behind. *)
Theorem main_outputs rglob members out_dir fs s fs' :
  Forall (fun m => staging (Path_of out_dir) (Path_of (member_json m)) = false) members ->
  main rglob members out_dir fs = (Ok s, fs') ->
  exists task_lists merged,
    Forall2 (fun m tl => fs_lookup fs (Path_of (member_json m)) = Some (File (Json (JArr tl))))
      members task_lists
    /\ merge_ls_tasks task_lists = Ok merged
    /\ fs_lookup fs' (Path_of out_dir ++ ["merged_input.json"])
       = Some (File (Json (JArr merged)))
    /\ merged_tasks s = length merged
    /\ (exists es, fs_lookup fs' (Path_of out_dir ++ ["merged_images.zip"])
                   = Some (File (Zip es)))
    /\ tree_absent fs' (Path_of out_dir ++ ["Temp"])
    /\ tree_absent fs' (Path_of out_dir ++ ["_unzips_tmp"]).
Proof.
  intros Hout H. unfold main in H.
  destruct (negb _); [discriminate|].
  set (dir := Path_of out_dir) in *.
  bind_inv H u1 f1 Hmk.
  assert (I1 : evolves (staging dir) fs f1).
  { pose proof (staging_mkdirs dir fs fs (evolves_refl _ fs)) as Hev.
    rewrite Hmk in Hev. exact Hev. }
  bind_inv H ld f2 Hload.
  destruct (load_members_Ok dir fs members _ _ _ _ I1 Hout Hload) as (_ & tls & Htls & Etls).
  simpl in Etls.
  bind_inv H merged f3 Hmerge. unfold lift in Hmerge.
  injection Hmerge as Hmerge <-. rewrite Etls in Hmerge.
  bind_inv H u2 f4 Hwrite. destruct u2. apply write_file_lookup in Hwrite.
  bind_inv H counts f5 Hflat.
  assert (Hsib : is_prefix (tmp_root_of (dir ++ ["Temp"])) (dir ++ ["Temp"]) = false).
  { rewrite tmp_root_of_child. apply sibling_not_prefix. discriminate. }
  destruct (flatten_Ok_state _ _ _ _ _ _ Hsib Hflat) as [Hd5 Habs5].
  rewrite tmp_root_of_child in Habs5.
  pose proof (modifies_extract_and_flatten_zips rglob (snd ld) (dir ++ ["Temp"]) f4) as M5.
  rewrite Hflat in M5. simpl in M5.
  bind_inv H u3 f6 Hzip. destruct u3.
  destruct (zip_dir_lookup _ _ _ _ _ Hzip) as [es Hes].
  pose proof (modifies_zip_dir rglob (dir ++ ["Temp"]) (dir ++ ["merged_images.zip"]) f5) as M6.
  rewrite Hzip in M6. simpl in M6.
  bind_inv H u4 f7 Hrm. injection Hrm as _ <-. injection H as <- <-.
  assert (Hd6 : fs_is_dir f6 (dir ++ ["Temp"]) = true).
  { apply fs_is_dir_lookup. rewrite M6.
    - apply fs_is_dir_lookup. exact Hd5.
    - apply sibling_not_prefix. discriminate. }
  unfold rmtree_ignore_errors. rewrite Hd6.
  assert (Hne : dir ++ ["Temp"] <> []) by apply app_not_nil.
  exists tls, merged. split; [exact Htls|]. split; [exact Hmerge|].
  split; [|split; [reflexivity|split; [|split]]].
  - rewrite fs_lookup_remove_tree by exact Hne.
    rewrite sibling_not_prefix by discriminate.
    rewrite M6 by (apply sibling_not_prefix; discriminate).
    rewrite M5 by (apply flatten_area_sibling; discriminate).
    exact Hwrite.
  - exists es. rewrite fs_lookup_remove_tree by exact Hne.
    rewrite sibling_not_prefix by discriminate. exact Hes.
  - apply remove_tree_absent. exact Hne.
  - intros p Hp. rewrite fs_lookup_remove_tree by exact Hne.
    rewrite (below_sibling dir "Temp" "_unzips_tmp" p) by (discriminate || exact Hp).
    rewrite M6 by (apply (below_sibling dir "merged_images.zip" "_unzips_tmp" p);
                   [discriminate | exact Hp]).
    apply Habs5. exact Hp.
Qed.

Lemma main_outputs_witness :
  exists s fs' merged,
    main rglob_listing [alice; bob] "Merger" both_present = (Ok s, fs')
    /\ merge_ls_tasks [contributor_a; contributor_b] = Ok merged
    /\ fs_lookup fs' ["Merger"; "merged_input.json"] = Some (File (Json (JArr merged)))
    /\ merged_tasks s = 2%nat
    /\ fs_lookup fs' ["Merger"; "Temp"] = None.
Proof.
  destruct (main rglob_listing [alice; bob] "Merger" both_present) as [[s|e] fs'] eqn:E;
    [|vm_compute in E; discriminate].
  destruct (main_outputs rglob_listing [alice; bob] "Merger" both_present s fs')
    as (tls & merged & Htls & Hm & Hj & Hn & _ & Ht & _).
  - repeat constructor.
  - exact E.
  - inversion Htls as [|? tl1 ? tls1 H1 Htls1]; subst.
    inversion Htls1 as [|? tl2 ? tls2 H2 Htls2]; subst.
    inversion Htls2; subst.
    vm_compute in H1. injection H1 as <-. vm_compute in H2. injection H2 as <-.
    exists s, fs', merged. split; [reflexivity|]. split; [exact Hm|]. split; [exact Hj|].
    split.
    + rewrite Hn. vm_compute in Hm. injection Hm as <-. reflexivity.
    + apply Ht. reflexivity.
Defined.

(** ** The archive [zip_dir] writes *)




















(** ** Digests and names *)

Local Open Scope nat_scope.

Lemma sha1_digest_bytes msg :
  length (SHA1.digest msg) = 20 /\ Forall (fun b => (0 <= b < 256)%Z) (SHA1.digest msg).
Proof.
  unfold SHA1.digest. destruct (fold_left _ _ _) as [[[[a b] c] d] e].
  unfold be_bytes. split.
  - rewrite !length_app, !length_rev, !le_bytes_length. reflexivity.
  - do 4 (apply Forall_app; split; [apply Forall_rev, le_bytes_bytes|]).
    apply Forall_rev, le_bytes_bytes.
Qed.

(** A digest is forty hexadecimal digits. *)
Lemma sha1_hexdigest_chars s :
  length (chars (SHA1.hexdigest s)) = 40
  /\ Forall (fun c => is_hex_digit c = true) (chars (SHA1.hexdigest s)).
Proof.
  unfold SHA1.hexdigest.
  destruct (sha1_digest_bytes (bytes_of s)) as [Hl Hb].
  destruct (hex_of_bytes_chars _ Hb) as [Hl' Hf]. rewrite Hl in Hl'. split; assumption.
Qed.

Lemma rfind_dot_app a b :
  rfind_dot (a ++ b) = match rfind_dot b with
                       | Some j => Some (length a + j)
                       | None => rfind_dot a
                       end.
Proof.
  induction a as [|c a IH]; simpl.
  - destruct (rfind_dot b); reflexivity.
  - rewrite IH. destruct (rfind_dot b); reflexivity.
Qed.

Lemma rfind_dot_skipn cs : forall i,
  rfind_dot cs = Some i -> rfind_dot (skipn i cs) = Some 0 /\ i < length cs.
Proof.
  induction cs as [|c cs IH]; intros i H; [discriminate|]. simpl in H.
  destruct (rfind_dot cs) as [j|] eqn:E.
  - injection H as <-. destruct (IH j eq_refl) as [H1 H2]. simpl. split; [exact H1 | lia].
  - destruct (ascii_eqb c dot) eqn:Ec; [|discriminate]. injection H as <-.
    simpl. rewrite E, Ec. split; [reflexivity | lia].
Qed.

Lemma suffix_at_Some nm i :
  suffix_at nm = Some i ->
  rfind_dot (chars nm) = Some i /\ 0 < i /\ i < String.length nm - 1.
Proof.
  unfold suffix_at. destruct (rfind_dot (chars nm)) as [j|]; [|discriminate].
  destruct (0 <? j) eqn:E1; [|discriminate].
  destruct (j <? String.length nm - 1) eqn:E2; [|discriminate].
  simpl. intros [= <-]. apply Nat.ltb_lt in E1, E2. auto.
Qed.

Lemma is_image_suffix nm : is_image nm = true -> exists i, suffix_at nm = Some i.
Proof.
  unfold is_image, suffix. destruct (suffix_at nm) as [i|]; [eauto | discriminate].
Qed.

(** An image that is renamed keeps its extension: the new name is the old
    one with an underscore and eight hexadecimal digits before the
    suffix, so it is an image name again. *)
Theorem renamed_keeps_extension nm c :
  is_image nm = true ->
  suffix (renamed nm (content_digest c)) = suffix nm
  /\ stem (renamed nm (content_digest c)) = stem nm +:+ "_" +:+ str_take 8 (content_digest c)
  /\ is_image (renamed nm (content_digest c)) = true
  /\ String.length (renamed nm (content_digest c)) = String.length nm + 9
  /\ Forall (fun x => is_hex_digit x = true) (chars (str_take 8 (content_digest c))).
Proof.
  intros Him. destruct (is_image_suffix _ Him) as [i Hi].
  destruct (suffix_at_Some _ _ Hi) as (Hr & H0 & H1).
  destruct (rfind_dot_skipn _ _ Hr) as [Hs Hlen].
  destruct (sha1_hexdigest_chars (content_bytes c)) as [Hl Hhex].
  fold (content_digest c) in Hl, Hhex.
  set (h8 := str_take 8 (content_digest c)).
  assert (Hh8 : length (chars h8) = 8).
  { unfold h8. rewrite chars_take, length_firstn. lia. }
  assert (Est : stem nm = text (firstn i (chars nm))) by (unfold stem; rewrite Hi; reflexivity).
  assert (Esu : suffix nm = text (skipn i (chars nm))) by (unfold suffix; rewrite Hi; reflexivity).
  assert (Ech : chars (renamed nm (content_digest c))
                = (firstn i (chars nm) ++ chars ("_" +:+ h8)) ++ skipn i (chars nm)).
  { unfold renamed. fold h8. rewrite Est, Esu, !chars_app, !chars_text.
    rewrite <- !List.app_assoc. reflexivity. }
  assert (Elen : length (firstn i (chars nm) ++ chars ("_" +:+ h8)) = i + 9).
  { rewrite length_app, length_firstn, chars_app, length_app, Hh8. simpl. lia. }
  assert (Ern : String.length (renamed nm (content_digest c)) = String.length nm + 9).
  { rewrite <- !chars_length, Ech, length_app, Elen, length_skipn. lia. }
  assert (Eat : suffix_at (renamed nm (content_digest c)) = Some (i + 9)).
  { unfold suffix_at. rewrite Ech, rfind_dot_app, Hs, Elen, Nat.add_0_r.
    rewrite Ern.
    replace (0 <? i + 9) with true by (symmetry; apply Nat.ltb_lt; lia).
    replace (i + 9 <? String.length nm + 9 - 1) with true
      by (symmetry; apply Nat.ltb_lt; lia).
    reflexivity. }
  assert (Esuf : suffix (renamed nm (content_digest c)) = suffix nm).
  { unfold suffix at 1. rewrite Eat, Ech, <- Elen, skipn_app, Nat.sub_diag.
    rewrite skipn_all. simpl. symmetry. exact Esu. }
  split; [exact Esuf|]. split; [|split; [|split]].
  - unfold stem at 1. rewrite Eat, Ech, <- Elen, firstn_app, Nat.sub_diag.
    rewrite firstn_all, firstn_O, app_nil_r. apply chars_inj.
    rewrite chars_text, !chars_app, Est, chars_text. reflexivity.
  - unfold is_image in *. rewrite Esuf. exact Him.
  - exact Ern.
  - unfold h8. rewrite chars_take. apply Forall_take. exact Hhex.
Qed.

Lemma renamed_keeps_extension_witness :
  suffix (renamed "cat.png" (content_digest (Raw "xyz"))) = ".png"
  /\ String.length (renamed "cat.png" (content_digest (Raw "xyz"))) = 16.
Proof.
  destruct (renamed_keeps_extension "cat.png" (Raw "xyz")) as (Hs & _ & _ & Hl & _).
  - reflexivity.
  - split; [exact Hs | exact Hl].
Defined.

Local Close Scope nat_scope.

(** *** [safe_name] *)

Local Open Scope nat_scope.

Lemma safe_char_plain c : (ord c <? 128) = true -> is_plain (safe_char c) = true.
Proof.
  destruct c as [[] [] [] [] [] [] [] []]; intros H; try reflexivity; discriminate H.
Qed.

Lemma safe_char_fixed c : safe_char (safe_char c) = safe_char c.
Proof. destruct c as [[] [] [] [] [] [] [] []]; reflexivity. Qed.

Lemma safe_char_no_space c : is_space c = false -> is_space (safe_char c) = false.
Proof. destruct c as [[] [] [] [] [] [] [] []]; intros H; try reflexivity; discriminate H. Qed.

Lemma is_plain_not_slash c : is_plain c = true -> c <> slash.
Proof. intros H ->. discriminate H. Qed.

(** [lstrip] drops a run of white space at the front. *)
Lemma lstrip_split l : exists pre, l = pre ++ lstrip l /\ Forall (fun c => is_space c = true) pre.
Proof.
  induction l as [|c l (pre & E & Hp)]; [exists []; split; [reflexivity | constructor]|].
  simpl. destruct (is_space c) eqn:Ec.
  - exists (c :: pre). split; [simpl; congruence | constructor; assumption].
  - exists []. split; [reflexivity | constructor].
Qed.

Lemma lstrip_head l c r : lstrip l = c :: r -> is_space c = false.
Proof.
  induction l as [|x l IH]; simpl; [discriminate|].
  destruct (is_space x) eqn:Ex; [exact IH|]. intros [= <- _]. exact Ex.
Qed.

Lemma lstrip_fixed l :
  match l with
  | [] => True
  | c :: _ => is_space c = false
  end -> lstrip l = l.
Proof. destruct l as [|c l]; [reflexivity|]. simpl. intros ->. reflexivity. Qed.

Lemma strip_stripped cs : stripped (rev (lstrip (rev (lstrip cs)))).
Proof.
  set (a := lstrip cs). set (b := lstrip (rev a)).
  assert (Hb : lstrip b = b).
  { apply lstrip_fixed. destruct b as [|c r] eqn:E; [exact Logic.I|].
    eapply lstrip_head. exact E. }
  split; [|rewrite rev_involutive; exact Hb].
  destruct (lstrip_split (rev a)) as (pre & E & _). fold b in E.
  apply (f_equal (@rev ascii)) in E. rewrite rev_involutive, rev_app_distr in E.
  apply lstrip_fixed. destruct (rev b) as [|c r] eqn:Er; [exact Logic.I|].
  simpl in E. eapply lstrip_head. unfold a in E. exact E.
Qed.

Lemma strip_of_stripped l : stripped l -> rev (lstrip (rev (lstrip l))) = l.
Proof. intros [H1 H2]. rewrite H1, H2. apply rev_involutive. Qed.

Lemma map_safe_stripped l : stripped l -> stripped (map safe_char l).
Proof.
  assert (Hm : forall l', lstrip l' = l' -> lstrip (map safe_char l') = map safe_char l').
  { intros l' H. apply lstrip_fixed. destruct l' as [|c r]; [exact Logic.I|]. simpl.
    apply safe_char_no_space. eapply lstrip_head. exact H. }
  intros [H1 H2]. split; [apply Hm; exact H1|].
  rewrite <- map_rev. apply Hm. exact H2.
Qed.

Lemma strip_sub cs c : In c (rev (lstrip (rev (lstrip cs)))) -> In c cs.
Proof.
  intros H. apply in_rev in H.
  destruct (lstrip_split (rev (lstrip cs))) as (pre & E & _).
  assert (H' : In c (rev (lstrip cs))) by (rewrite E; apply in_or_app; right; exact H).
  apply in_rev in H'.
  destruct (lstrip_split cs) as (pre' & E' & _). rewrite E'. apply in_or_app. right. exact H'.
Qed.

Lemma strip_length cs : length (rev (lstrip (rev (lstrip cs)))) <= length cs.
Proof.
  rewrite length_rev.
  destruct (lstrip_split (rev (lstrip cs))) as (pre & E & _).
  apply (f_equal (@length ascii)) in E. rewrite length_app, length_rev in E.
  destruct (lstrip_split cs) as (pre' & E' & _).
  apply (f_equal (@length ascii)) in E'. rewrite length_app in E'. lia.
Qed.

(** For a name of ASCII characters, [safe_name] gives letters, digits,
    spaces, underscores, hyphens and dots only, is no longer than the name
    and changes nothing when applied again; with the spaces replaced, as
    [main] does, the result has neither a slash nor a space, so the copies
    it names are files of [Individuals] itself. *)
Theorem safe_name_plain s :
  is_ascii s = true ->
  forallb is_plain (chars (safe_name s)) = true
  /\ ~ In slash (chars (spaces_to_underscores (safe_name s)))
  /\ ~ In " "%char (chars (spaces_to_underscores (safe_name s)))
  /\ String.length (safe_name s) <= String.length s
  /\ safe_name (safe_name s) = safe_name s.
Proof.
  intros Ha. unfold is_ascii in Ha.
  assert (Hplain : forallb is_plain (chars (safe_name s)) = true).
  { unfold safe_name, str_strip. rewrite !chars_text. apply forallb_forall.
    intros c Hc. apply in_map_iff in Hc. destruct Hc as (x & <- & Hx).
    apply safe_char_plain. apply strip_sub in Hx.
    exact (proj1 (forallb_forall _ _) Ha x Hx). }
  split; [exact Hplain|]. split; [|split; [|split]].
  - unfold spaces_to_underscores. rewrite chars_text. intros H.
    apply in_map_iff in H. destruct H as (x & E & Hx).
    pose proof (proj1 (forallb_forall _ _) Hplain x Hx) as Hp.
    destruct (ascii_eqb x " ") eqn:Ex; [discriminate E|].
    subst x. discriminate Hp.
  - unfold spaces_to_underscores. rewrite chars_text. intros H.
    apply in_map_iff in H. destruct H as (x & E & Hx).
    destruct (ascii_eqb x " ") eqn:Ex; [discriminate E|].
    subst x. discriminate Ex.
  - unfold safe_name, str_strip. rewrite <- !chars_length, !chars_text, length_map.
    apply strip_length.
  - unfold safe_name at 1. unfold str_strip. unfold safe_name at 1. unfold str_strip.
    rewrite !chars_text.
    rewrite (strip_of_stripped (map safe_char _)).
    + rewrite map_map. unfold safe_name, str_strip. rewrite chars_text. f_equal.
      apply map_ext. intros c. apply safe_char_fixed.
    + apply map_safe_stripped, strip_stripped.
Qed.

Lemma safe_name_plain_witness :
  safe_name (safe_name "  Alice O'Smith/x ") = safe_name "  Alice O'Smith/x "
  /\ ~ In slash (chars (spaces_to_underscores (safe_name "  Alice O'Smith/x "))).
Proof.
  destruct (safe_name_plain "  Alice O'Smith/x ") as (_ & Hs & _ & _ & Hi).
  - reflexivity.
  - split; [exact Hi | exact Hs].
Defined.

Local Close Scope nat_scope.

(** ** What the output directory holds *)

#[local] Arguments content_digest : simpl never.

Lemma prefix_both p q : is_prefix p q = true -> is_prefix q p = true -> p = q.
Proof.
  intros H1 H2. apply is_prefix_spec in H1. destruct H1 as [l ->].
  apply is_prefix_spec in H2. destruct H2 as [l' E].
  rewrite <- List.app_assoc in E. rewrite <- (app_nil_r p) in E at 1.
  apply app_inv_head in E. symmetry in E. apply app_eq_nil in E.
  destruct E as [-> _]. symmetry. apply app_nil_r.
Qed.

Lemma near_cases dest_dir q :
  q <> [] -> is_prefix q (tmp_root_of dest_dir) = true ->
  is_prefix q dest_dir = true \/ is_prefix (tmp_root_of dest_dir) q = true.
Proof.
  intros Hne H. apply is_prefix_spec in H. destruct H as [l E].
  destruct l as [|z l _] using rev_ind.
  - rewrite app_nil_r in E. right. rewrite E. apply is_prefix_refl.
  - unfold tmp_root_of in E. rewrite List.app_assoc in E.
    apply app_inj_tail in E. destruct E as [E _].
    left. eapply is_prefix_trans; [|apply parent_is_prefix].
    rewrite E. apply is_prefix_app.
Qed.

Section Output.

Variable dest_dir : path.
Hypothesis dest_not_nil : dest_dir <> [].
Hypothesis dest_name : name dest_dir <> "_unzips_tmp".

(** Where the flattener works before the loop, once the output directory
    is cleared. *)
Let beside (p : path) : bool := is_prefix p dest_dir || is_prefix (tmp_root_of dest_dir) p.

Lemma beside_not_below q :
  is_prefix dest_dir q = true -> q <> dest_dir -> beside q = false.
Proof.
  intros Hq Hne. unfold beside. apply orb_false_iff. split.
  - destruct (is_prefix q dest_dir) eqn:E; [|reflexivity].
    exfalso. apply Hne. apply prefix_both; assumption.
  - destruct (is_prefix (tmp_root_of dest_dir) q) eqn:E; [|reflexivity].
    rewrite (beside_output _ _ dest_not_nil dest_name E) in Hq. discriminate.
Qed.

Lemma beside_near q :
  q <> [] -> is_prefix q (tmp_root_of dest_dir) = true -> beside q = true.
Proof.
  intros Hne H. unfold beside. destruct (near_cases _ _ Hne H) as [E|E]; rewrite E;
    [reflexivity | apply orb_true_r].
Qed.

Lemma beside_work x : beside (tmp_root_of dest_dir ++ x) = true.
Proof. unfold beside. rewrite is_prefix_app. apply orb_true_r. Qed.

(** When the walk starts, nothing is in the output directory. *)
Lemma walk_start_empty zip_paths fs :
  (fs_exists fs dest_dir = false ->
   forall q, is_prefix dest_dir q = true -> fs_lookup fs q = None) ->
  fst ((let* _ := flatten_prepare dest_dir in
        st_each (extractall (tmp_root_of dest_dir)) zip_paths) fs) = Ok tt ->
  forall q, is_prefix dest_dir q = true -> q <> dest_dir ->
    fs_lookup (walk_start zip_paths dest_dir fs) q = None.
Proof.
  intros Htree Hok q Hq Hne. unfold walk_start.
  unfold bind in *. destruct (flatten_prepare dest_dir fs) as [[u|e] f3] eqn:Ep;
    [|discriminate].
  pose proof (modifies_each beside (extractall (tmp_root_of dest_dir)) zip_paths
                (fun zp => modifies_extractall beside (tmp_root_of dest_dir)
                             beside_near beside_work zp) f3) as Mx.
  rewrite (Mx q (beside_not_below q Hq Hne)).
  unfold flatten_prepare in Ep.
  bind_inv Ep there f0 H0. apply look_Ok_inv in H0. destruct H0 as [H0 ->].
  injection H0 as <-.
  bind_inv Ep u1 f1 H1. bind_inv Ep u2 f2 H2.
  pose proof (modifies_mkdir_p beside dest_dir
                (fun q' _ Hq' => ltac:(unfold beside; rewrite Hq'; reflexivity)) f1) as M2.
  rewrite H2 in M2.
  pose proof (modifies_mkdir_p beside (tmp_root_of dest_dir) beside_near f2) as M3.
  rewrite Ep in M3. simpl in M2, M3.
  rewrite (M3 q (beside_not_below q Hq Hne)), (M2 q (beside_not_below q Hq Hne)).
  destruct (fs_exists fs dest_dir) eqn:Ex.
  - unfold rmtree in H1. destruct (fs_lookup fs dest_dir) as [[|c]|]; try discriminate.
    injection H1 as _ <-. rewrite fs_lookup_remove_tree by exact dest_not_nil.
    rewrite Hq. reflexivity.
  - injection H1 as _ <-. apply Htree; [reflexivity | exact Hq].
Qed.

Lemma output_recorded_step p st fs st' fs' :
  flatten_file dest_dir p st fs = (Ok st', fs') ->
  output_recorded dest_dir (seen_hash st) fs ->
  output_recorded dest_dir (seen_hash st') fs'.
Proof.
  intros Hrun HK.
  destruct (is_candidate fs p) eqn:Hc.
  2:{ rewrite (flatten_file_other _ _ _ _ Hc) in Hrun. injection Hrun as <- <-. exact HK. }
  destruct (is_candidate_file _ _ Hc) as [c Hp].
  destruct (dict_get (seen_hash st) (content_digest c)) as [n|] eqn:Hs.
  { rewrite (flatten_file_duplicate _ _ _ _ _ _ Hc Hp Hs) in Hrun.
    injection Hrun as <- <-. exact HK. }
  destruct (flatten_file_new _ _ _ _ _ _ _ Hc Hp Hs Hrun) as (-> & Hnd & ->). simpl.
  set (out := output_name fs dest_dir (name p) (content_digest c)) in *.
  assert (Ht : target_of fs dest_dir p (content_digest c) = dest_dir ++ [out]).
  { unfold target_of. fold out.
    destruct (fs_is_dir fs (dest_dir ++ [out])) eqn:Ed; [|reflexivity].
    exfalso. apply fs_is_dir_lookup in Ed.
    specialize (HK (dest_dir ++ [out]) (is_prefix_app _ _)). rewrite Ed in HK.
    apply HK. intros E. rewrite <- (app_nil_r dest_dir) in E at 2.
    apply app_inv_head in E. discriminate. }
  rewrite Ht. intros q Hq Hne.
  rewrite fs_lookup_set by apply app_not_nil.
  destruct (path_eqb q (dest_dir ++ [out])) eqn:Eq.
  - apply path_eqb_eq in Eq. exists out. split; [exact Eq | apply dict_get_set_eq].
  - specialize (HK q Hq Hne). destruct (fs_lookup fs q) as [[|c0]|]; try exact HK.
    destruct HK as (x & Ex & Hx). exists x. split; [exact Ex|].
    rewrite dict_get_set_ne; [exact Hx|]. intros E. rewrite <- E in Hx. congruence.
Qed.

Lemma output_recorded_loop ps : forall st fs st' fs',
  st_fold (flatten_file dest_dir) ps st fs = (Ok st', fs') ->
  output_recorded dest_dir (seen_hash st) fs ->
  output_recorded dest_dir (seen_hash st') fs'.
Proof.
  induction ps as [|p ps IH]; intros st fs st' fs' Hrun HK.
  - injection Hrun as <- <-. exact HK.
  - simpl in Hrun. bind_inv Hrun st1 fs1 H1.
    eapply IH; [exact Hrun|]. eapply output_recorded_step; eassumption.
Qed.

End Output.

(** When the flattener returns, the output directory holds files of its
    own only, each with the digest of an image of the walk, and no two of
    them with the same digest: what was there before the call is gone. *)
Theorem output_holds_extracted_images rglob zip_paths dest_dir fs w s fs' :
  (forall fs root p, In p (rglob fs root) -> is_prefix root p = true) ->
  dest_dir <> [] -> name dest_dir <> "_unzips_tmp" ->
  (fs_exists fs dest_dir = false ->
   forall q, is_prefix dest_dir q = true -> fs_lookup fs q = None) ->
  extract_and_flatten_zips rglob zip_paths dest_dir fs = (Ok (w, s), fs') ->
  (forall q, is_prefix dest_dir q = true -> q <> dest_dir ->
     fs_lookup fs' q = None
     \/ exists x c, q = dest_dir ++ [x] /\ fs_lookup fs' q = Some (File c)
          /\ In (content_digest c)
               (digests (walk_start zip_paths dest_dir fs)
                  (rglob (walk_start zip_paths dest_dir fs) (tmp_root_of dest_dir))))
  /\ (forall x1 x2 c1 c2,
        fs_lookup fs' (dest_dir ++ [x1]) = Some (File c1) ->
        fs_lookup fs' (dest_dir ++ [x2]) = Some (File c2) ->
        content_digest c1 = content_digest c2 -> x1 = x2).
Proof.
  intros Hrglob Hne Hnm Htree Hrun.
  assert (Hok : fst ((let* _ := flatten_prepare dest_dir in
                      st_each (extractall (tmp_root_of dest_dir)) zip_paths) fs) = Ok tt).
  { unfold extract_and_flatten_zips, try_finally, flatten_body, bind in *.
    destruct (flatten_prepare dest_dir fs) as [[[]|e] f1]; [|discriminate].
    destruct (st_each _ zip_paths f1) as [[[]|e] f2]; [reflexivity | discriminate]. }
  pose proof (walk_start_empty dest_dir Hne Hnm zip_paths fs Htree Hok) as Hempty.
  destruct (flatten_run _ _ _ _ _ _ _ Hrun) as (st' & fs3 & Hloop & _ & _).
  assert (HK : output_recorded dest_dir (seen_hash st') fs3).
  { eapply output_recorded_loop; [exact Hloop|]. intros q Hq Hq'. simpl.
    rewrite (Hempty q Hq Hq'). exact Logic.I. }
  assert (Hkeys : forall d, In d (map fst (seen_hash st'))
            -> In d (digests (walk_start zip_paths dest_dir fs)
                       (rglob (walk_start zip_paths dest_dir fs) (tmp_root_of dest_dir)))).
  { apply flatten_loop in Hloop.
    - destruct Hloop as (_ & _ & _ & Hk). intros d Hd. apply Hk in Hd.
      destruct Hd as [[]|Hd]. exact Hd.
    - apply List.Forall_forall. intros p Hp.
      apply beside_output; try assumption. eapply Hrglob. exact Hp.
    - constructor. }
  assert (Hfs' : forall q, is_prefix dest_dir q = true -> fs_lookup fs' q = fs_lookup fs3 q).
  { intros q Hq.
    assert (E : fs' = rmtree_ignore_errors (tmp_root_of dest_dir) fs3).
    { unfold extract_and_flatten_zips, try_finally, flatten_body, walk_start, bind, look, ret
        in *.
      destruct (flatten_prepare dest_dir fs) as [[u|e] f1]; [|discriminate].
      destruct (st_each (extractall (tmp_root_of dest_dir)) zip_paths f1) as [[u'|e] f2];
        [|discriminate].
      simpl in Hloop. rewrite Hloop in Hrun. injection Hrun as _ _ <-. reflexivity. }
    rewrite E. apply unchanged_rmtree_ignore_errors.
    destruct (is_prefix (tmp_root_of dest_dir) q) eqn:Et; [|reflexivity].
    rewrite (beside_output _ _ Hne Hnm Et) in Hq. discriminate. }
  split.
  - intros q Hq Hq'. rewrite (Hfs' q Hq). specialize (HK q Hq Hq').
    destruct (fs_lookup fs3 q) as [[|c]|]; [destruct HK| |left; reflexivity].
    destruct HK as (x & Ex & Hx). right. exists x, c. split; [exact Ex|].
    split; [reflexivity|]. apply Hkeys. apply dict_get_In in Hx.
    apply in_map_iff. exists (content_digest c, x). auto.
  - intros x1 x2 c1 c2 H1 H2 Ed.
    assert (Hx : forall x c, fs_lookup fs' (dest_dir ++ [x]) = Some (File c) ->
                   dict_get (seen_hash st') (content_digest c) = Some x).
    { intros x c Hl. rewrite (Hfs' _ (is_prefix_app _ _)) in Hl.
      assert (Hq' : dest_dir ++ [x] <> dest_dir).
      { intros E. rewrite <- (app_nil_r dest_dir) in E at 2.
        apply app_inv_head in E. discriminate. }
      specialize (HK _ (is_prefix_app dest_dir [x]) Hq'). rewrite Hl in HK.
      destruct HK as (x' & Ex & Hx'). apply app_inv_head in Ex. injection Ex as <-.
      exact Hx'. }
    apply Hx in H1, H2. rewrite Ed in H1. congruence.
Qed.

Lemma output_holds_extracted_images_witness :
  fs_lookup (snd (extract_and_flatten_zips rglob_listing [["a.zip"]] ["Merger"; "Temp"]
                    copied_cat)) ["Merger"; "Temp"; "cat.png"] = None
  \/ exists x c,
       ["Merger"; "Temp"; "cat.png"] = ["Merger"; "Temp"] ++ [x]
       /\ fs_lookup (snd (extract_and_flatten_zips rglob_listing [["a.zip"]]
                            ["Merger"; "Temp"] copied_cat)) ["Merger"; "Temp"; "cat.png"]
          = Some (File c)
       /\ In (content_digest c)
            (digests (walk_start [["a.zip"]] ["Merger"; "Temp"] copied_cat)
               (rglob_listing (walk_start [["a.zip"]] ["Merger"; "Temp"] copied_cat)
                  (tmp_root_of ["Merger"; "Temp"]))).
Proof.
  apply (output_holds_extracted_images rglob_listing [["a.zip"]] ["Merger"; "Temp"]
           copied_cat 2%nat 1%nat).
  - exact rglob_listing_below.
  - discriminate.
  - discriminate.
  - intros _ q Hq. apply is_prefix_spec in Hq. destruct Hq as [l ->]. reflexivity.
  - vm_compute. reflexivity.
  - reflexivity.
  - discriminate.
Defined.

(** *** Where the images of the walk come from *)

Lemma hoare_conj {S A} (P1 P2 : S -> Prop) (m : ST S A) (Q1 Q2 : A -> S -> Prop) E1 E2 :
  hoare P1 m Q1 E1 -> hoare P2 m Q2 E2 ->
  hoare (fun s => P1 s /\ P2 s) m (fun a s => Q1 a s /\ Q2 a s) (fun s => E1 s /\ E2 s).
Proof.
  intros H1 H2 s [Hs1 Hs2]. specialize (H1 s Hs1). specialize (H2 s Hs2).
  destruct (m s) as [[a|e] s']; split; assumption.
Qed.

Lemma hoare_of_modifies {A} W fs0 (m : IO A) :
  modifies W m ->
  hoare (unchanged_outside W fs0) m (fun _ => unchanged_outside W fs0)
    (unchanged_outside W fs0).
Proof.
  intros Hm fs Hfs. specialize (Hm fs).
  destruct (m fs) as [[a|e] fs']; simpl in Hm; eapply unchanged_trans; eassumption.
Qed.

Section Extracted.

Variable root : path.
Variable B : string -> Prop.

Let J (fs : filesystem) : Prop := files_below root B fs.

Lemma files_below_dir fs q : J fs -> fs_lookup fs q = None -> J (fs ++ [(q, Dir)]).
Proof.
  intros HJ Hq p c Hp Hl. rewrite fs_lookup_app in Hl by exact Hq.
  destruct (path_eqb p q); [discriminate|]. eapply HJ; eassumption.
Qed.

Lemma files_below_write fs q b : J fs -> q <> [] -> B b -> J (fs_set fs q (File (Raw b))).
Proof.
  intros HJ Hq Hb p c Hp Hl. rewrite fs_lookup_set in Hl by exact Hq.
  destruct (path_eqb p q).
  - injection Hl as <-. exists b. auto.
  - eapply HJ; eassumption.
Qed.

Lemma files_below_remove fs r : J fs -> J (fs_remove_tree fs r).
Proof.
  intros HJ p c Hp Hl. destruct r as [|a r].
  - destruct p as [|x p]; [discriminate Hl|]. unfold fs_lookup in Hl.
    rewrite fs_find_remove_tree in Hl. discriminate.
  - rewrite fs_lookup_remove_tree in Hl by discriminate.
    destruct (is_prefix (a :: r) p); [discriminate|]. eapply HJ; eassumption.
Qed.

Lemma extracted_ensure_dir b q : hoare J (ensure_dir b q) (fun _ => J) J.
Proof.
  intros fs HJ. unfold ensure_dir.
  destruct (fs_lookup fs q) as [[|c]|] eqn:E; try exact HJ.
  apply files_below_dir; assumption.
Qed.

Lemma extracted_os_mkdir q : hoare J (os_mkdir q) (fun _ => J) J.
Proof.
  intros fs HJ. unfold os_mkdir.
  destruct (fs_lookup fs q) as [n|] eqn:E; [exact HJ|].
  destruct (fs_lookup fs (parent q)) as [[|c]|]; try exact HJ.
  apply files_below_dir; assumption.
Qed.

Lemma extracted_ancestors p : hoare J (st_each (ensure_dir false) (ancestors p)) (fun _ => J) J.
Proof.
  apply hoare_each with (G := fun _ => True).
  - intros q _. apply extracted_ensure_dir.
  - apply List.Forall_forall. auto.
Qed.

Lemma extracted_mkdir_p p : hoare J (mkdir_p p) (fun _ => J) J.
Proof.
  unfold mkdir_p. eapply hoare_bind; [apply extracted_ancestors|]. intros u.
  destruct p; [apply hoare_ret; auto | apply extracted_ensure_dir].
Qed.

Lemma extracted_makedirs p : hoare J (makedirs p) (fun _ => J) J.
Proof.
  unfold makedirs. eapply hoare_bind; [apply extracted_ancestors|]. intros u.
  apply extracted_os_mkdir.
Qed.

Lemma extracted_write_file q b : B b -> hoare J (write_file q (Raw b)) (fun _ => J) J.
Proof.
  intros Hb fs HJ. unfold write_file.
  destruct (fs_lookup fs q) as [[|c']|] eqn:E; [exact HJ| |].
  - apply files_below_write; try assumption. intros ->. discriminate.
  - destruct (fs_lookup fs (parent q)) as [[|c']|]; try exact HJ.
    apply files_below_write; try assumption. intros ->. discriminate.
Qed.

Lemma extracted_member dir e : B (snd e) -> hoare J (extract_member dir e) (fun _ => J) J.
Proof.
  intros Hb. unfold extract_member.
  apply hoare_bind with (Q := fun _ => J); [apply hoare_look; auto|]. intros up.
  apply hoare_bind with (Q := fun _ => J).
  { destruct up; [apply hoare_ret; auto | apply extracted_makedirs]. }
  intros u. destruct (is_dir_member (fst e)).
  - apply hoare_bind with (Q := fun _ => J); [apply hoare_look; auto|]. intros d.
    destruct d; [apply hoare_ret; auto | apply extracted_os_mkdir].
  - apply extracted_write_file. exact Hb.
Qed.

Lemma extracted_rmtree p : hoare J (rmtree p) (fun _ => J) J.
Proof.
  intros fs HJ. unfold rmtree. destruct (fs_lookup fs p) as [[|c]|]; try exact HJ.
  apply files_below_remove. exact HJ.
Qed.

Lemma extracted_prepare dest_dir : hoare J (flatten_prepare dest_dir) (fun _ => J) J.
Proof.
  unfold flatten_prepare.
  apply hoare_bind with (Q := fun _ => J); [apply hoare_look; auto|]. intros there.
  apply hoare_bind with (Q := fun _ => J).
  { destruct there; [apply extracted_rmtree | apply hoare_ret; auto]. }
  intros u. apply hoare_bind with (Q := fun _ => J); [apply extracted_mkdir_p|].
  intros u'. apply extracted_mkdir_p.
Qed.

End Extracted.

Lemma In_omap {A B} (f : A -> option B) l y :
  In y (omap f l) -> exists x, In x l /\ f x = Some y.
Proof.
  induction l as [|x l IH]; [intros []|]. rewrite omap_cons.
  destruct (f x) as [y'|] eqn:E.
  - intros [<-|H]; [exists x; split; [left; reflexivity | exact E]|].
    destruct (IH H) as (x' & Hx' & Hf). exists x'. split; [right|]; assumption.
  - intros H. destruct (IH H) as (x' & Hx' & Hf). exists x'. split; [right|]; assumption.
Qed.

(** When no working area is left from an earlier call and the archives lie
    outside the places the flattener writes to, every image of the walk
    holds the bytes of a member of one of the archives: its digest is the
    SHA-1 digest of that member. *)
Theorem walk_images_come_from_archives rglob zip_paths dest_dir fs d :
  (forall fs root p, In p (rglob fs root) -> is_prefix root p = true) ->
  tree_absent fs (tmp_root_of dest_dir) ->
  Forall (fun zp => flatten_area dest_dir zp = false) zip_paths ->
  In d (digests (walk_start zip_paths dest_dir fs)
          (rglob (walk_start zip_paths dest_dir fs) (tmp_root_of dest_dir))) ->
  exists zp es nm b,
    In zp zip_paths /\ fs_lookup fs zp = Some (File (Zip es)) /\ In (nm, b) es
    /\ d = SHA1.hexdigest b.
Proof.
  intros Hrglob Habs Hzips Hd.
  set (tmp := tmp_root_of dest_dir) in *.
  set (B := archived fs zip_paths).
  set (I := fun s => files_below tmp B s /\ unchanged_outside (flatten_area dest_dir) fs s).
  assert (Hx : forall zp, In zp zip_paths -> hoare I (extractall tmp zp) (fun _ => I) I).
  { intros zp Hzp s [HJ HU]. unfold extractall, open_zip, read_file, look, bind. cbv beta.
    destruct (fs_lookup s zp) as [[|[b|j|es]]|] eqn:El; simpl; try exact (conj HJ HU).
    assert (Hes : hoare I (st_each (extract_member tmp) es) (fun _ => I) I).
    { apply hoare_each with (G := fun e => B (snd e)).
      - intros e He. apply hoare_conj.
        + apply extracted_member. exact He.
        + apply hoare_of_modifies. apply modifies_extract_member.
          * apply flatten_area_near.
          * apply flatten_area_work.
      - apply List.Forall_forall. intros [nm b] He. exists zp, es, nm.
        split; [exact Hzp|]. split; [|exact He].
        rewrite <- El. symmetry. apply HU.
        exact (proj1 (List.Forall_forall _ _) Hzips zp Hzp). }
    exact (Hes s (conj HJ HU)). }
  assert (Hall : hoare I (let* _ := flatten_prepare dest_dir in
                          st_each (extractall tmp) zip_paths) (fun _ => I) I).
  { eapply hoare_bind.
    - apply hoare_conj; [apply extracted_prepare|].
      apply hoare_of_modifies, modifies_flatten_prepare.
    - intros u. apply hoare_each with (G := fun zp => In zp zip_paths); [exact Hx|].
      apply List.Forall_forall. auto. }
  assert (H0 : I fs).
  { split; [|apply unchanged_refl]. intros q c Hq Hl. rewrite (Habs q Hq) in Hl. discriminate. }
  assert (HJ : files_below tmp B (walk_start zip_paths dest_dir fs)).
  { unfold walk_start. fold tmp. specialize (Hall fs H0).
    destruct ((let* _ := flatten_prepare dest_dir in st_each (extractall tmp) zip_paths) fs)
      as [[u|e] s]; apply Hall. }
  unfold digests, candidates in Hd. apply In_omap in Hd. destruct Hd as (p & Hp & Hdig).
  apply filter_In in Hp. destruct Hp as [Hp _]. apply Hrglob in Hp.
  unfold digest_at in Hdig.
  destruct (fs_lookup (walk_start zip_paths dest_dir fs) p) as [[|c]|] eqn:El;
    try discriminate.
  injection Hdig as <-. destruct (HJ p c Hp El) as (b & -> & zp & es & nm & Hzp & Hl & Hin).
  exists zp, es, nm, b. repeat split; assumption.
Qed.

Lemma walk_images_come_from_archives_witness :
  exists zp es nm b,
    In zp [["a.zip"]] /\ fs_lookup copied_cat zp = Some (File (Zip es)) /\ In (nm, b) es
    /\ "a9993e364706816aba3e25717850c26c9cd0d89d" = SHA1.hexdigest b.
Proof.
  apply (walk_images_come_from_archives rglob_listing [["a.zip"]] ["Merger"; "Temp"]
           copied_cat).
  - exact rglob_listing_below.
  - intros q Hq. apply is_prefix_spec in Hq. destruct Hq as [l ->]. reflexivity.
  - repeat constructor.
  - vm_compute. left; reflexivity.
Defined.
